(** * Expert ranking engine and record cache of the GitHub expert finder

    A shallow embedding of [src/query.py] (class [ExpertFinder]),
    [src/cache_manager.py] (class [PRCacheManager] and
    [get_or_scrape_repos]), the part of [src/embedder.py] that the query
    path calls, and the constants of [config.py] they read; further
    [generate_embeddings_batch] and [embed_prs] of [src/embedder.py], the
    points and results of [src/vector_db.py], the two scores of
    [src/github_api_scraper.py], and [is_bot_author] and
    [format_pr_text_for_embedding] of [src/utils.py].

    Modelling conventions.
    - Python [float] values are exact rationals ([Q]); equations between
      scores are stated up to [Qeq].  Rounding is not modelled.
    - Python [int] values are [Z]; [len] is [Z.of_nat (length _)].
    - A dictionary read with [d.get(key, default)] is a record field; the
      field is an [option] exactly where the default differs from the
      neutral value of its type.
    - Insertion-ordered dictionaries that are iterated ([defaultdict]) are
      association lists; dictionaries used only by key are [gmap]s.
    - An exception is the [Raise] case of [res]; [try/except Exception] is a
      match on it.  Writes to the file system are assumed to succeed. *)

From Stdlib Require Import QArith Qminmax ZArith List Bool Ascii String Lia.
From Stdlib Require Import Sorted Permutation Lqa.
From stdpp Require Import gmap strings.
Import ListNotations.

(** ** Python runtime *)

Inductive exn : Type :=
| IndexError
| JSONDecodeError
| KeyError (key : string)
| OverflowError
| ProviderError (msg : string).

Inductive res (A : Type) : Type :=
| Ok (a : A)
| Raise (e : exn).
Arguments Ok {A} a.
Arguments Raise {A} e.

Definition len {A : Type} (l : list A) : Z := Z.of_nat (length l).

(** [l[:n]] for an integer [n]: a negative bound counts from the end. *)
Definition slice_to {A : Type} (n : Z) (l : list A) : list A :=
  if (0 <=? n)%Z then firstn (Z.to_nat n) l
  else firstn (Z.to_nat (len l + n)) l.

(** [sum(xs)] on floats and on ints: left to right, from zero. *)
Definition sumQ (xs : list Q) : Q := fold_left Qplus xs 0%Q.
Definition sumZ (xs : list Z) : Z := fold_left Z.add xs 0%Z.

Section Sorting.
Context {A : Type}.
(** [lt x y] reads "the key of [x] is strictly below the key of [y]". *)
Variable lt : A -> A -> bool.

Fixpoint insert_desc (x : A) (l : list A) : list A :=
  match l with
  | [] => [x]
  | y :: l' => if lt x y then y :: insert_desc x l' else x :: y :: l'
  end.

(** [sorted(l, key=..., reverse=True)]: descending and stable, an element
    stays in front of the later elements that have the same key. *)
Fixpoint sort_desc (l : list A) : list A :=
  match l with
  | [] => []
  | x :: l' => insert_desc x (sort_desc l')
  end.

(** No element is strictly below an element that comes after it. *)
Definition descending (l : list A) : Prop :=
  StronglySorted (fun x y => lt x y = false) l.
End Sorting.

(** [d[k] = f(d[k])] on a [defaultdict] whose factory returns [default];
    the dictionary keeps its keys in the order of their first insertion. *)
Fixpoint defaultdict_update {V : Type} (default : V) (f : V -> V) (k : string)
    (d : list (string * V)) : list (string * V) :=
  match d with
  | [] => [(k, f default)]
  | (k', v) :: rest =>
      if String.eqb k k' then (k', f v) :: rest
      else (k', v) :: defaultdict_update default f k rest
  end.

Definition Qltb (a b : Q) : bool := negb (Qle_bool b a).
Definition by_keyQ {A : Type} (key : A -> Q) (x y : A) : bool :=
  Qltb (key x) (key y).
Definition by_keyZ {A : Type} (key : A -> Z) (x y : A) : bool :=
  (key x <? key y)%Z.

(** ** config.py *)

Module config.
Definition MIN_SUBSTANTIAL_PR_LINES : Z := 100.
Definition TOP_K_RESULTS : Z := 100.
Definition TOP_N_EXPERTS : Z := 10.
Definition MIN_EXPERT_PRS : Z := 2.
Definition MIN_EXPERT_TOTAL_LINES : Z := 500.
Definition CACHE_MAX_AGE_DAYS : Z := 7.
End config.

(** ** Pull-request dictionaries *)

(** The value under ['merged_date']: missing or empty, a string that
    [datetime.fromisoformat] rejects, or a timestamp (microseconds). *)
Inductive date_field : Type :=
| NoDate
| BadDate
| IsoDate (t : Z).

Record PR : Type := mkPR {
  pr_title : string;
  pr_url : string;
  pr_repo : string;
  pr_author : option string;            (* None: key missing or null *)
  pr_tech_keywords : list string;
  pr_lines_changed : Z;
  pr_merged_date : date_field;
  pr_similarity_score : Q;
  pr_complexity_score : option Q;       (* read with default 0.5 and 0 *)
  pr_impact_score : option Q;           (* read with default 0.5 *)
  pr_impact_category : option string;   (* read with default 'unknown' *)
  pr_has_tests : bool;
  pr_has_docs : bool;
  pr_review_comments_count : Z;
  pr_files_changed : Z;
  pr_commits_count : Z
}.

Definition get {A : Type} (field : option A) (default : A) : A :=
  match field with Some v => v | None => default end.

(** ** query.py: ExpertFinder *)

Module ExpertFinder.
Import config.
Local Open Scope Q_scope.

(** The dictionary built for each author in [_rank_experts]. *)
Record Expert : Type := mkExpert {
  author : string;
  score : Q;
  similarity_score : Q;
  recency_score : Q;
  tech_depth_score : Q;
  best_pr : PR;
  top_prs : list PR;
  tech_expertise : list string;
  tech_specialization : list (string * Z);
  total_relevant_prs : Z;
  total_lines_changed : Z;
  substantial_prs_count : Z
}.

(** The nested function [combined_score] of [_rank_experts]. *)
Definition combined_score (pr : PR) : Q :=
  let similarity := pr_similarity_score pr in
  let lines := pr_lines_changed pr in
  let lines_normalized := Qmin (inject_Z lines / 5000.0) 1.0 in
  let size_boost :=
    if (MIN_SUBSTANTIAL_PR_LINES <=? lines)%Z
    then 0.15 * lines_normalized
    else 0.05 * lines_normalized in
  let complexity := get (pr_complexity_score pr) 0.5 in
  let complexity_boost := complexity * 0.10 in
  let impact := get (pr_impact_score pr) 0.5 in
  let impact_boost := impact * 0.08 in
  let quality_boost := 0.0 in
  let quality_boost :=
    if pr_has_tests pr then quality_boost + 0.03 else quality_boost in
  let quality_boost :=
    if pr_has_docs pr then quality_boost + 0.02 else quality_boost in
  let quality_boost :=
    if (5 <? pr_review_comments_count pr)%Z
    then quality_boost + 0.03 else quality_boost in
  similarity * (1.0 + size_boost + complexity_boost + impact_boost
                + quality_boost).

(** [author_prs[author].append(pr)] on a [defaultdict(list)]. *)
Definition append_pr (a : string) (pr : PR) (author_prs : list (string * list PR))
  : list (string * list PR) :=
  defaultdict_update [] (fun l => l ++ [pr]) a author_prs.

(** [if author:] is false for a missing key, [None] and the empty string. *)
Definition truthy_author (pr : PR) : option string :=
  match pr_author pr with
  | Some a => if String.eqb a "" then None else Some a
  | None => None
  end.

(** The grouping loop at the head of [_rank_experts]. *)
Definition group_by_author (prs : list PR) : list (string * list PR) :=
  fold_left
    (fun author_prs pr =>
       match truthy_author pr with
       | Some a => append_pr a pr author_prs
       | None => author_prs
       end)
    prs [].

(** [tech_frequency[tech] += 1] on a [defaultdict(int)]. *)
Definition incr (tech : string) (freq : list (string * Z)) : list (string * Z) :=
  defaultdict_update 0%Z (fun n => (n + 1)%Z) tech freq.

Definition tech_frequency (prs_list : list PR) : list (string * Z) :=
  fold_left
    (fun freq pr => fold_left (fun f tech => incr tech f) (pr_tech_keywords pr) freq)
    prs_list [].

(** [all_tech.update(...)] on a set, kept as a duplicate-free list. *)
Definition add_tech (all_tech : list string) (tech : string) : list string :=
  if existsb (String.eqb tech) all_tech then all_tech else all_tech ++ [tech].

Definition all_tech (prs_list : list PR) : list string :=
  fold_left (fun s pr => fold_left add_tech (pr_tech_keywords pr) s) prs_list [].

(** [sorted(list(all_tech))]: ascending order of strings. *)
Definition sorted_strings (l : list string) : list string :=
  sort_desc (fun x y => String.ltb y x) l.

Definition is_substantial (pr : PR) : bool :=
  (MIN_SUBSTANTIAL_PR_LINES <=? pr_lines_changed pr)%Z.

Section Clock.
(** [now] is the reading of [datetime.now] (microseconds); [decay d] is
    [math.exp(-0.001 * d)] for an age of [d] whole days: it is not a
    rational number and is left abstract, and it raises [OverflowError]
    when the argument is out of range. *)
Variable now : Z.
Variable decay : Z -> res Q.

Definition microseconds_per_day : Z := 86400000000.

(** [timedelta.days]: the floor of the difference in days. *)
Definition age_in_days (t : Z) : Z := ((now - t) / microseconds_per_day)%Z.

Definition _calculate_recency_score (merged_date : date_field) : Q :=
  match merged_date with
  | NoDate => 0.0
  | BadDate => 0.0
  | IsoDate merge_dt =>
      let age_days := age_in_days merge_dt in
      match decay age_days with
      | Ok score => Qmax 0.0 (Qmin 1.0 score)
      | Raise _ => 0.0
      end
  end.

(** The body of the loop [for author, prs_list in author_prs.items()]. *)
Definition score_author (recency_weight : Q) (a : string) (prs_list : list PR)
  : res Expert :=
  let prs_list := sort_desc (by_keyQ combined_score) prs_list in
  match prs_list with
  | [] => Raise IndexError
  | best :: _ =>
      let top_5_prs := firstn 5 prs_list in
      let top_5_scores := map combined_score top_5_prs in
      let weights := firstn (length top_5_scores) [1.0; 0.8; 0.6; 0.4; 0.2] in
      let weighted_avg :=
        sumQ (map (fun sw => fst sw * snd sw) (combine top_5_scores weights))
        / sumQ weights in
      let total_lines :=
        fold_left (fun acc pr => (acc + pr_lines_changed pr)%Z) prs_list 0%Z in
      let freq := tech_frequency prs_list in
      let tech_depth :=
        match freq with
        | [] => 0.0
        | _ :: _ =>
            let top_techs := firstn 3 (sort_desc (by_keyZ snd) freq) in
            let avg_top_frequency :=
              inject_Z (sumZ (map snd top_techs)) / inject_Z (len top_techs) in
            Qmin (avg_top_frequency / 5.0) 1.0
        end in
      let volume_boost := Qmin (inject_Z (len prs_list) / 10.0) 1.0 in
      let substantial_count := len (List.filter is_substantial prs_list) in
      let substantial_boost := Qmin (inject_Z substantial_count / 5.0) 0.2 in
      let tech_specialization_boost := tech_depth * 0.15 in
      let similarity :=
        weighted_avg * (0.7 + 0.3 * volume_boost)
        * (1.0 + substantial_boost + tech_specialization_boost) in
      let recency := _calculate_recency_score (pr_merged_date best) in
      let final_score :=
        similarity * (1 - recency_weight) + recency * recency_weight in
      Ok {| author := a;
            score := final_score;
            similarity_score := similarity;
            recency_score := recency;
            tech_depth_score := tech_depth;
            best_pr := best;
            top_prs := firstn 3 prs_list;
            tech_expertise := sorted_strings (all_tech prs_list);
            tech_specialization := firstn 5 (sort_desc (by_keyZ snd) freq);
            total_relevant_prs := len prs_list;
            total_lines_changed := total_lines;
            substantial_prs_count := substantial_count |}
  end.

(** The loop over the groups: the first exception leaves the loop. *)
Fixpoint score_authors (recency_weight : Q) (groups : list (string * list PR))
  : res (list Expert) :=
  match groups with
  | [] => Ok []
  | (a, prs_list) :: rest =>
      match score_author recency_weight a prs_list with
      | Raise e => Raise e
      | Ok expert =>
          match score_authors recency_weight rest with
          | Raise e => Raise e
          | Ok experts => Ok (expert :: experts)
          end
      end
  end.

Definition meets_criteria (expert : Expert) : bool :=
  (MIN_EXPERT_PRS <=? total_relevant_prs expert)%Z
  || (MIN_EXPERT_TOTAL_LINES <=? total_lines_changed expert)%Z.

(** Lines 256-273 of [_rank_experts]: the loop that fills
    [filtered_experts] and the fallback when it stays empty. *)
Definition filter_experts (experts : list Expert) : list Expert :=
  let filtered_experts :=
    fold_left
      (fun acc expert => if meets_criteria expert then acc ++ [expert] else acc)
      experts [] in
  match filtered_experts with
  | _ :: _ => filtered_experts
  | [] => experts
  end.

Definition _rank_experts (prs : list PR) (recency_weight : Q) : res (list Expert) :=
  let author_prs := group_by_author prs in
  match score_authors recency_weight author_prs with
  | Raise e => Raise e
  | Ok experts =>
      let experts := sort_desc (by_keyQ score) experts in
      Ok (filter_experts experts)
  end.

(** Lines 70-87 of [find_experts]. *)
Definition substantiality_filter (results : list PR) : list PR :=
  let substantial_prs := List.filter is_substantial results in
  match substantial_prs with
  | _ :: _ =>
      if (20 <=? len substantial_prs)%Z then substantial_prs
      else
        let smaller_prs :=
          List.filter
            (fun pr => (pr_lines_changed pr <? MIN_SUBSTANTIAL_PR_LINES)%Z)
            results in
        let smaller_prs := sort_desc (by_keyZ pr_lines_changed) smaller_prs in
        substantial_prs
        ++ firstn (Z.to_nat (Z.max 10 (20 - len substantial_prs))) smaller_prs
  | [] => results
  end.

(** *** The two collaborators of [find_experts] *)

(** [encode] is the provider call of [PREmbedder]
    ([_generate_openai_embedding] or [_generate_local_embedding]);
    [db_search] is [QdrantDB.search]. *)
Variable EMBEDDING_DIMENSION : nat.
Variable encode : string -> res (list Q).
Variable db_search :
  list Q -> Z -> option (list string) -> option string -> res (list PR).

(** [PREmbedder.generate_embedding]; the state is the dictionary
    [self.cache]. *)
Definition generate_embedding (cache : gmap string (list Q)) (text : string)
  : list Q * gmap string (list Q) :=
  match cache !! text with
  | Some embedding => (embedding, cache)
  | None =>
      match encode text with
      | Ok embedding => (embedding, <[text := embedding]> cache)
      | Raise _ => (repeat 0.0 EMBEDDING_DIMENSION, cache)
      end
  end.

Definition find_experts (cache : gmap string (list Q))
    (query : string) (top_n : Z)
    (tech_filter : option (list string)) (repo_filter : option string)
    (recency_weight : Q)
  : res (list Expert) * gmap string (list Q) :=
  let '(query_embedding, cache) := generate_embedding cache query in
  match db_search query_embedding TOP_K_RESULTS tech_filter repo_filter with
  | Raise e => (Raise e, cache)
  | Ok results =>
      let results := sort_desc (by_keyQ pr_similarity_score) results in
      let results := substantiality_filter results in
      match _rank_experts results recency_weight with
      | Raise e => (Raise e, cache)
      | Ok experts => (Ok (slice_to top_n experts), cache)
      end
  end.
End Clock.
End ExpertFinder.

(** ** A state-and-exception monad for code that mutates an object *)

(** A raised exception keeps the mutations made before it. *)
Definition M (S A : Type) : Type := S -> res A * S.

Definition ret {S A : Type} (a : A) : M S A := fun s => (Ok a, s).

Definition bind {S A B : Type} (m : M S A) (k : A -> M S B) : M S B :=
  fun s =>
    match m s with
    | (Ok a, s') => k a s'
    | (Raise e, s') => (Raise e, s')
    end.

Definition lift {S A : Type} (r : res A) : M S A := fun s => (r, s).

Definition gets {S A : Type} (f : S -> A) : M S A := fun s => (Ok (f s), s).

Definition modify {S : Type} (f : S -> S) : M S unit := fun s => (Ok tt, f s).

(** [try: body except Exception as e: handler e]. *)
Definition try_except {S A : Type} (body : M S A) (handler : exn -> M S A) : M S A :=
  fun s =>
    match body s with
    | (Ok a, s') => (Ok a, s')
    | (Raise e, s') => handler e s'
    end.

Declare Scope py_scope.
Delimit Scope py_scope with py.
Notation "x <- m ;; k" := (bind m (fun x => k))
  (at level 100, m at level 99, right associativity) : py_scope.
Notation "m ;;; k" := (bind m (fun _ => k))
  (at level 100, right associativity) : py_scope.

(** ** cache_manager.py *)

Module PRCacheManager.
Local Open Scope Z_scope.
Local Open Scope py_scope.

(** One value of the dictionary [self.index]. *)
Record index_entry : Type := mkEntry {
  cached_at : Z;
  pr_count : Z;
  cache_file : string
}.

(** The dictionary [cache_data] written by [cache_prs]; [metadata] is
    either empty or the pair written by [get_or_scrape_repos]. *)
Record cache_data : Type := mkData {
  data_repo : string;
  data_cached_at : Z;
  data_pr_count : Z;
  data_metadata : option (Z * Z);
  data_prs : list PR
}.

(** What a payload file holds: a document that [json.load] and the read
    of ['prs'] accept, or one on which they raise [e]. *)
Inductive payload : Type :=
| Json (data : cache_data)
| Corrupt (e : exn).

(** The lines printed by the cache. *)
Inductive event : Type :=
| Loaded (repo : string) (n : Z)
| LoadWarning (repo : string) (e : exn)
| Cached (repo : string) (n : Z)
| Invalidated (repo : string)
| Scraping (repo : string)
| ScrapeError (repo : string) (e : exn)
| UsingStale (repo : string).

(** The object [self] with the part of the disk it owns: [index] is
    [self.index], [index_file] the contents of [cache_index.json], [files]
    the payload files by path. *)
Record t : Type := mkCache {
  cache_dir : string;
  index : gmap string index_entry;
  index_file : gmap string index_entry;
  files : gmap string payload;
  output : list event
}.

Definition set_index (f : gmap string index_entry -> gmap string index_entry)
    (self : t) : t :=
  mkCache (cache_dir self) (f (index self)) (index_file self) (files self)
          (output self).

Definition set_files (f : gmap string payload -> gmap string payload)
    (self : t) : t :=
  mkCache (cache_dir self) (index self) (index_file self) (f (files self))
          (output self).

Definition with_output (ev : event) (self : t) : t :=
  mkCache (cache_dir self) (index self) (index_file self) (files self)
          (output self ++ [ev]).

(** The state after [json.dump(self.index, f)]. *)
Definition saved (self : t) : t :=
  mkCache (cache_dir self) (index self) (index self) (files self) (output self).

Definition print (ev : event) : M t unit := modify (with_output ev).

Definition _save_index : M t unit := modify saved.

(** [repo.replace('/', '_')]. *)
Fixpoint replace_slash (s : string) : string :=
  match s with
  | EmptyString => EmptyString
  | String c s' =>
      String (if Ascii.eqb c "/"%char then "_"%char else c) (replace_slash s')
  end.

Definition _get_repo_cache_path (self : t) (repo : string) : string :=
  (cache_dir self ++ "/" ++ replace_slash repo ++ ".json")%string.

Definition microseconds_per_day : Z := 86400000000.

(** [(datetime.now() - cached_time).days] *)
Definition age_days (now cached_time : Z) : Z :=
  (now - cached_time) / microseconds_per_day.

Definition is_cached (now : Z) (self : t) (repo : string) (max_age_days : Z) : bool :=
  match index self !! repo with
  | None => false
  | Some cache_info => age_days now (cached_at cache_info) <? max_age_days
  end.

(** [json.load(f)] followed by [data['prs']]. *)
Definition load_prs (p : payload) : res (list PR) :=
  match p with
  | Json data => Ok (data_prs data)
  | Corrupt e => Raise e
  end.

Definition get_cached_prs (repo : string) : M t (option (list PR)) :=
  idx <- gets index ;;
  match idx !! repo with
  | None => ret None
  | Some _ =>
      cache_path <- gets (fun self => _get_repo_cache_path self repo) ;;
      fs <- gets files ;;
      match fs !! cache_path with
      | None =>
          modify (set_index (delete repo)) ;;;
          _save_index ;;;
          ret None
      | Some content =>
          try_except
            (prs <- lift (load_prs content) ;;
             print (Loaded repo (len prs)) ;;;
             ret (Some prs))
            (fun e =>
             print (LoadWarning repo e) ;;;
             ret None)
      end
  end.

Definition cache_prs (now : Z) (repo : string) (prs : list PR)
    (metadata : option (Z * Z)) : M t unit :=
  cache_path <- gets (fun self => _get_repo_cache_path self repo) ;;
  let data := mkData repo now (len prs) metadata prs in
  modify (set_files (insert cache_path (Json data))) ;;;
  modify (set_index (insert repo (mkEntry now (len prs) cache_path))) ;;;
  _save_index ;;;
  print (Cached repo (len prs)).

Definition invalidate_cache (repo : string) : M t unit :=
  idx <- gets index ;;
  match idx !! repo with
  | Some _ =>
      cache_path <- gets (fun self => _get_repo_cache_path self repo) ;;
      modify (set_files (delete cache_path)) ;;;
      modify (set_index (delete repo)) ;;;
      _save_index ;;;
      print (Invalidated repo)
  | None => ret tt
  end.

(** [if cached_prs:] holds for a list that is not empty. *)
Definition truthy (cached_prs : option (list PR)) : bool :=
  match cached_prs with
  | Some (_ :: _) => true
  | _ => false
  end.


(** The loop of [clear_all_cache] (lines 145-146) over the keys that
    [list(self.index.keys())] has listed. *)
Fixpoint invalidate_each (repos : list string) : M t unit :=
  match repos with
  | [] => ret tt
  | repo :: rest => invalidate_cache repo ;;; invalidate_each rest
  end.

Section GetOrScrape.
(** [scraper_func] is the caller's function; it may raise. *)
Variable scraper_func : string -> res (list PR).
Variable force_refresh : bool.
Variable max_cache_age_days : Z.
Variable now : Z.

(** The part of the loop body after the cache check. *)
Definition scrape (repo : string) (all_prs : list PR) : M t (list PR) :=
  print (Scraping repo) ;;;
  try_except
    (prs <- lift (scraper_func repo) ;;
     cache_prs now repo prs (Some (now, len prs)) ;;;
     ret (all_prs ++ prs))
    (fun e =>
     print (ScrapeError repo e) ;;;
     cached_prs <- get_cached_prs repo ;;
     if truthy cached_prs
     then print (UsingStale repo) ;;; ret (all_prs ++ get cached_prs [])
     else ret all_prs).

(** One iteration of [for repo in repos]. *)
Definition loop_body (repo : string) (all_prs : list PR) : M t (list PR) :=
  fresh <- gets (fun self =>
             negb force_refresh && is_cached now self repo max_cache_age_days) ;;
  if (fresh : bool) then
    cached_prs <- get_cached_prs repo ;;
    if truthy cached_prs
    then ret (all_prs ++ get cached_prs [])
    else scrape repo all_prs
  else scrape repo all_prs.

Fixpoint for_repos (repos : list string) (all_prs : list PR) : M t (list PR) :=
  match repos with
  | [] => ret all_prs
  | repo :: rest =>
      all_prs <- loop_body repo all_prs ;;
      for_repos rest all_prs
  end.

Definition get_or_scrape_repos (repos : list string) : M t (list PR) :=
  for_repos repos [].
End GetOrScrape.
End PRCacheManager.

(** ** The documented rules, written from the specification

    The scoring and filtering rules below follow the wording of the
    specification; the theorems compare them with the functions translated
    from the source.  The module also holds the observations on cache
    states in which the theorems about the record cache are stated. *)

Module Spec.
Import config.
Local Open Scope Q_scope.

(** *** Per-candidate combined score (section 4.3, step 3) *)

Definition substantial (c : PR) : bool :=
  (MIN_SUBSTANTIAL_PR_LINES <=? pr_lines_changed c)%Z.

Definition f (x : Q) : Q := Qmin (x / 5000) 1.

Definition iverson (b : bool) : Q := if b then 1 else 0.

Definition sizeBoost (c : PR) : Q :=
  f (inject_Z (pr_lines_changed c)) * (if substantial c then 0.15 else 0.05).

Definition complexityBoost (c : PR) : Q := get (pr_complexity_score c) 0.5 * 0.10.

Definition impactBoost (c : PR) : Q := get (pr_impact_score c) 0.5 * 0.08.

Definition qualityBoost (c : PR) : Q :=
  0.03 * iverson (pr_has_tests c)
  + 0.02 * iverson (pr_has_docs c)
  + 0.03 * iverson (5 <? pr_review_comments_count c)%Z.

Definition combined (c : PR) : Q :=
  pr_similarity_score c
  * (1 + sizeBoost c + complexityBoost c + impactBoost c + qualityBoost c).

(** *** Aggregate score of an author group (steps 4 to 8) *)

(** A list of strings without its repetitions, every string at the place
    of its first occurrence. *)
Fixpoint distinct (l : list string) : list string :=
  match l with
  | [] => []
  | x :: l' => x :: List.filter (fun y => negb (String.eqb y x)) (distinct l')
  end.

(** The candidates of one author, in retrieval order. *)
Definition group (a : string) (candidates : list PR) : list PR :=
  List.filter
    (fun c => match pr_author c with Some b => String.eqb b a | None => false end)
    candidates.

(** The author identities that own a group: the non-empty author strings
    of the candidates, each once, in order of first appearance. *)
Definition named (c : PR) : list string :=
  match pr_author c with
  | Some a => if String.eqb a "" then [] else [a]
  | None => []
  end.

Definition authors (candidates : list PR) : list string :=
  distinct (flat_map named candidates).

(** A candidate whose author field is present and not the empty string. *)
Definition hasAuthor (c : PR) : bool :=
  match pr_author c with
  | Some a => negb (String.eqb a "")
  | None => false
  end.

Definition top (k : nat) (g : list PR) : list PR :=
  firstn k (sort_desc (by_keyQ combined) g).

Definition weights : list Q := [1.0; 0.8; 0.6; 0.4; 0.2].

Fixpoint weightedSum (scores ws : list Q) : Q :=
  match scores, ws with
  | s :: scores', w :: ws' => s * w + weightedSum scores' ws'
  | _, _ => 0
  end.

Definition total (ws : list Q) : Q := fold_right Qplus 0 ws.

Definition weightedAvg (g : list PR) : Q :=
  weightedSum (map combined (top 5 g)) weights
  / total (firstn (length g) weights).

(** Technology tokens of the group, with repetitions. *)
Definition tokens (g : list PR) : list string := concat (map pr_tech_keywords g).

Definition frequency (t : string) (l : list string) : Z :=
  len (List.filter (String.eqb t) l).

(** The frequencies of the (at most) three most frequent tokens. *)
Definition topFrequencies (g : list PR) : list Z :=
  firstn 3
    (sort_desc Z.ltb (map (fun t => frequency t (tokens g)) (distinct (tokens g)))).

Definition techDepth (g : list PR) : Q :=
  match topFrequencies g with
  | [] => 0
  | fs => Qmin ((inject_Z (fold_right Z.add 0%Z fs) / inject_Z (len fs)) / 5) 1
  end.

Definition volumeBoost (g : list PR) : Q := Qmin (inject_Z (len g) / 10) 1.

Definition substantialBoost (g : list PR) : Q :=
  Qmin (inject_Z (len (List.filter substantial g)) / 5) 0.2.

Definition specializationBoost (g : list PR) : Q := techDepth g * 0.15.

Definition similarityScore (g : list PR) : Q :=
  weightedAvg g * (0.7 + 0.3 * volumeBoost g)
  * (1 + substantialBoost g + specializationBoost g).

(** *** Substantiality filter as the specification words it (step 2) *)

Definition substantialityRule (candidates : list PR) : list PR :=
  let substantial_ := List.filter substantial candidates in
  let other := List.filter (fun c => negb (substantial c)) candidates in
  if (20 <=? len substantial_)%Z then substantial_
  else substantial_
       ++ firstn (Z.to_nat (Z.max 10 (20 - len substantial_)))
                 (sort_desc (by_keyZ pr_lines_changed) other).

(** *** Minimum-expertise filter (step 12) *)

Definition qualifies (p : ExpertFinder.Expert) : Prop :=
  (MIN_EXPERT_PRS <= ExpertFinder.total_relevant_prs p)%Z
  \/ (MIN_EXPERT_TOTAL_LINES <= ExpertFinder.total_lines_changed p)%Z.

(** *** Record cache (section 4.1) *)

(** The records that the cache can serve for [repo]: the index has an
    entry and the payload file it names is a readable document. *)
Definition cachedRecords (self : PRCacheManager.t) (repo : string)
  : option (list PR) :=
  match PRCacheManager.index self !! repo with
  | None => None
  | Some _ =>
      match PRCacheManager.files self
            !! PRCacheManager._get_repo_cache_path self repo with
      | Some (PRCacheManager.Json data) => Some (PRCacheManager.data_prs data)
      | _ => None
      end
  end.

(** Two cache states that hold the same payload files and the same index
    entries, except possibly the entry of [repo]. *)
Definition agreeExcept (repo : string) (c1 c2 : PRCacheManager.t) : Prop :=
  PRCacheManager.cache_dir c1 = PRCacheManager.cache_dir c2
  /\ PRCacheManager.files c1 = PRCacheManager.files c2
  /\ forall other, other <> repo ->
       PRCacheManager.index c1 !! other = PRCacheManager.index c2 !! other.

(** The records that each repository of the list contributes to the
    result of [get_or_scrape_repos], in order: the loop run one repository
    at a time, every iteration starting from an empty result. *)
Fixpoint contributions (scraper_func : string -> res (list PR))
    (force_refresh : bool) (max_cache_age_days now : Z) (repos : list string)
    (self : PRCacheManager.t) : list (string * list PR) :=
  match repos with
  | [] => []
  | repo :: rest =>
      let '(r, self') :=
        PRCacheManager.loop_body scraper_func force_refresh max_cache_age_days
          now repo [] self in
      (repo, match r with Ok prs => prs | Raise _ => [] end)
      :: contributions scraper_func force_refresh max_cache_age_days now rest self'
  end.

(** The entries of repositories other than [repo]. *)
Definition others {A : Type} (repo : string) (l : list (string * A))
  : list (string * A) :=
  List.filter (fun p => negb (String.eqb (fst p) repo)) l.

Definition without (repo : string) (repos : list string) : list string :=
  List.filter (fun r => negb (String.eqb r repo)) repos.

(** Two cache states that serve [repo] alike: same directory, same index
    entry for [repo], same payload file for [repo]. *)
Definition sameEntry (repo : string) (c1 c2 : PRCacheManager.t) : Prop :=
  PRCacheManager.cache_dir c1 = PRCacheManager.cache_dir c2
  /\ PRCacheManager.index c1 !! repo = PRCacheManager.index c2 !! repo
  /\ PRCacheManager.files c1 !! PRCacheManager._get_repo_cache_path c1 repo
     = PRCacheManager.files c2 !! PRCacheManager._get_repo_cache_path c2 repo.

(** *** Failure reporting (section 7) *)

(** The requirement as the specification words it: a run whose embedding
    step fails never returns the value of a run over a corpus with
    nothing relevant. *)
Definition failuresDistinguishable : Prop :=
  forall (now : Z) (decay : Z -> res Q) (dimension : nat)
         (encode1 encode2 : string -> res (list Q))
         (search1 search2 :
            list Q -> Z -> option (list string) -> option string -> res (list PR))
         (query : string) (top_n : Z) (tech_filter : option (list string))
         (repo_filter : option string) (recency_weight : Q),
    (exists e, encode1 query = Raise e) ->
    (exists v, encode2 query = Ok v) ->
    (forall v k t r, search2 v k t r = Ok []) ->
    fst (ExpertFinder.find_experts now decay dimension encode1 search1 ∅
           query top_n tech_filter repo_filter recency_weight)
    <> fst (ExpertFinder.find_experts now decay dimension encode2 search2 ∅
              query top_n tech_filter repo_filter recency_weight).
End Spec.

(** ** Concrete inputs used by the examples below *)

Module Sample.
Import ExpertFinder.
Local Open Scope Q_scope.

(** A candidate with the given author, size and similarity; every other
    key is absent or empty. *)
Definition candidate (a : option string) (lines : Z) (similarity : Q) : PR :=
  mkPR "" "" "" a [] lines NoDate similarity None None None false false 0 0 0.

Definition small : PR := candidate (Some "alice"%string) 0 0.5.
Definition large : PR := candidate (Some "bob"%string) 600 0.9.
Definition anonymous : PR := candidate None 5000 0.4.

(** The three candidates of the scenario of section 8. *)
Definition alice_600 : PR := candidate (Some "alice"%string) 600 0.9.
Definition alice_50 : PR := candidate (Some "alice"%string) 50 0.95.
Definition alice_5000 : PR := candidate (Some "alice"%string) 5000 0.4.

(** Twenty-one candidates, none of them substantial. *)
Definition all_small : list PR := repeat small 21.

(** A profile with the given counts. *)
Definition profile (a : string) (prs lines : Z) : Expert :=
  mkExpert a 0.5 0.5 0 0 small [small] [] [] prs lines 0.

Definition two_prs : Expert := profile "alice" 2 0.
Definition one_small_pr : Expert := profile "bob" 1 100.

(** An embedding provider that is down, one that answers, and a vector
    index that holds nothing. *)
Definition provider_down (text : string) : res (list Q) :=
  Raise (ProviderError "connection refused").
Definition provider_up (text : string) : res (list Q) := Ok [0.6; 0.8].
Definition empty_index (v : list Q) (limit : Z) (tech : option (list string))
    (repo : option string) : res (list PR) := Ok [].

(** A cache whose index names a payload that is not a JSON document, and
    one that holds two records cached at time zero. *)
Definition entry (path : string) (n : Z) : PRCacheManager.index_entry :=
  PRCacheManager.mkEntry 0 n path.

Definition corrupt_cache : PRCacheManager.t :=
  PRCacheManager.mkCache "data/cache"
    {[ "octo/repo"%string := entry "data/cache/octo_repo.json" 2 ]}
    {[ "octo/repo"%string := entry "data/cache/octo_repo.json" 2 ]}
    {[ "data/cache/octo_repo.json"%string := PRCacheManager.Corrupt JSONDecodeError ]}
    [].

Definition stale_cache : PRCacheManager.t :=
  PRCacheManager.mkCache "data/cache"
    {[ "octo/repo"%string := entry "data/cache/octo_repo.json" 2 ]}
    {[ "octo/repo"%string := entry "data/cache/octo_repo.json" 2 ]}
    {[ "data/cache/octo_repo.json"%string :=
         PRCacheManager.Json
           (PRCacheManager.mkData "octo/repo" 0 2 None [small; large]) ]}
    [].

(** Thirty days after time zero, in microseconds. *)
Definition thirty_days : Z := 30 * 86400000000.

(** A scraper that fails for ["octo/repo"] and returns one record for any
    other repository. *)
Definition flaky_scraper (repo : string) : res (list PR) :=
  if String.eqb repo "octo/repo" then Raise (ProviderError "rate limit")
  else Ok [anonymous].
End Sample.

(** ** embedder.py: PREmbedder, embedding in batches *)

Module PREmbedder.
Local Open Scope py_scope.

(** [l.insert(idx, x)] for an index that is not negative: an index past
    the end appends. *)
Definition insert_at {A : Type} (idx : nat) (x : A) (l : list A) : list A :=
  firstn idx l ++ x :: skipn idx l.

(** [l.index(x)]: the first position of [x], [None] where Python raises. *)
Fixpoint index (x : nat) (l : list nat) : option nat :=
  match l with
  | [] => None
  | y :: l' => if Nat.eqb x y then Some 0%nat else option_map S (index x l')
  end.

(** [range(0, stop, step)] for a positive step. *)
Definition range_step (stop step : nat) : list nat :=
  map (fun k => k * step)%nat (seq 0 ((stop + step - 1) / step)).

Definition enumerate {A : Type} (l : list A) : list (nat * A) :=
  combine (seq 0 (length l)) l.

(** [l[i]] for an index that is not negative. *)
Definition item {A : Type} (l : list A) (i : nat) : res A :=
  match nth_error l i with
  | Some x => Ok x
  | None => Raise IndexError
  end.

Section Provider.
Variable dimension : nat.
(** The provider call of a batch, [_generate_openai_embeddings_batch] or
    [_generate_local_embeddings_batch]. *)
Variable encode_batch : list string -> res (list (list Q)).

(** The cache check at the head of a batch (lines 125 to 134): the
    vectors found, the texts not found and their positions in the batch. *)
Definition check_step (cache : gmap string (list Q))
    (acc : list (list Q) * list string * list nat) (it : nat * string)
  : list (list Q) * list string * list nat :=
  let '(batch_embeddings, uncached_texts, uncached_indices) := acc in
  let '(idx, text) := it in
  match cache !! text with
  | Some embedding => (batch_embeddings ++ [embedding], uncached_texts, uncached_indices)
  | None => (batch_embeddings, uncached_texts ++ [text], uncached_indices ++ [idx])
  end.

Definition check_cache (cache : gmap string (list Q)) (batch : list string)
  : list (list Q) * list string * list nat :=
  fold_left (check_step cache) (enumerate batch) ([], [], []).

(** The state that the body of the [try] works on: the cache of the
    embedder and the local list [batch_embeddings]. *)
Definition batch_state : Type := gmap string (list Q) * list (list Q).

(** The loop of lines 145 to 147.  A failed [index] raises [ValueError]
    in Python; the handler of the enclosing [try] does not look at the
    exception, which is written [IndexError] here. *)
Fixpoint store_new (uncached_texts : list string) (uncached_indices : list nat)
    (pairs : list (nat * list Q)) : M batch_state unit :=
  match pairs with
  | [] => ret tt
  | (idx, embedding) :: rest =>
      j <- lift (match index idx uncached_indices with
                 | Some j => Ok j
                 | None => Raise IndexError
                 end) ;;
      text <- lift (item uncached_texts j) ;;
      modify (fun st : batch_state => (<[text := embedding]> (fst st), snd st)) ;;;
      modify (fun st : batch_state => (fst st, insert_at idx embedding (snd st))) ;;;
      store_new uncached_texts uncached_indices rest
  end.

(** The loop of the handler, lines 152 and 153. *)
Fixpoint fill_zeros (uncached_indices : list nat) : M batch_state unit :=
  match uncached_indices with
  | [] => ret tt
  | idx :: rest =>
      modify (fun st : batch_state =>
                (fst st, insert_at idx (repeat 0.0%Q dimension) (snd st))) ;;;
      fill_zeros rest
  end.

(** One turn of the loop over the batches, lines 124 to 153: the vectors
    of the batch and the cache afterwards.  Printing is left out. *)
Definition embed_batch (batch : list string) (cache : gmap string (list Q))
  : list (list Q) * gmap string (list Q) :=
  let '(batch_embeddings, uncached_texts, uncached_indices) :=
    check_cache cache batch in
  match uncached_texts with
  | [] => (batch_embeddings, cache)
  | _ :: _ =>
      let st :=
        snd (try_except
               (new_embeddings <- lift (encode_batch uncached_texts) ;;
                store_new uncached_texts uncached_indices
                  (combine uncached_indices new_embeddings))
               (fun _ => fill_zeros uncached_indices)
               (cache, batch_embeddings)) in
      (snd st, fst st)
  end.

(** [generate_embeddings_batch], for a positive batch size. *)
Definition generate_embeddings_batch (texts : list string) (batch_size : positive)
    (cache : gmap string (list Q)) : list (list Q) * gmap string (list Q) :=
  fold_left
    (fun (acc : list (list Q) * gmap string (list Q)) (i : nat) =>
       let batch := firstn (Pos.to_nat batch_size) (skipn i texts) in
       let r := embed_batch batch (snd acc) in
       (fst acc ++ fst r, snd r))
    (range_step (length texts) (Pos.to_nat batch_size))
    ([], cache).

(** *** [embed_prs] *)

(** The text of a record: [format_pr_text_for_embedding] applied to its
    title, its description and its technology keywords. *)
Variable text_of : PR -> string.

(** A copy of a record with the keys ['text_for_embedding'] and
    ['embedding'] set. *)
Record embedded : Type := mkEmbedded {
  source : PR;
  text_for_embedding : string;
  embedding : list Q
}.

(** The loop of lines 188 to 197; [if text:] holds for a string that is
    not empty. *)
Definition select_step (acc : list string * list nat) (it : nat * PR)
  : list string * list nat :=
  let '(texts, valid_indices) := acc in
  let '(idx, pr) := it in
  let text := text_of pr in
  if String.eqb text "" then (texts, valid_indices)
  else (texts ++ [text], valid_indices ++ [idx]).

(** The loop of lines 204 to 208. *)
Fixpoint attach (prs : list PR) (texts : list string) (embeddings : list (list Q))
    (pairs : list (nat * nat)) (embedded_prs : list embedded)
  : res (list embedded) :=
  match pairs with
  | [] => Ok embedded_prs
  | (pr_idx, embedding_idx) :: rest =>
      match item prs pr_idx with
      | Raise e => Raise e
      | Ok pr =>
          match item texts embedding_idx with
          | Raise e => Raise e
          | Ok text =>
              match item embeddings embedding_idx with
              | Raise e => Raise e
              | Ok vector =>
                  attach prs texts embeddings rest
                    (embedded_prs ++ [mkEmbedded pr text vector])
              end
          end
      end
  end.

Definition embed_prs (prs : list PR) (cache : gmap string (list Q))
  : res (list embedded) * gmap string (list Q) :=
  let '(texts, valid_indices) := fold_left select_step (enumerate prs) ([], []) in
  let r := generate_embeddings_batch texts 100%positive cache in
  (attach prs texts (fst r) (enumerate valid_indices) [], snd r).
End Provider.
End PREmbedder.

(** ** vector_db.py: QdrantDB *)

Module QdrantDB.
Local Open Scope Q_scope.

(** The payload of a point (lines 108 to 120), as [query.py] reads it
    back: the keys that [upload_prs] copies keep their value, every other
    key of the record is absent and is read with its default.  (The keys
    ['pr_id'], ['pr_number'], ['description'] and ['text_for_embedding']
    are copied as well; the ranking does not read them.  A missing author
    is stored as the empty string.) *)
Definition payload_of (pr : PR) : PR :=
  mkPR (pr_title pr) (pr_url pr) (pr_repo pr)
       (Some (get (pr_author pr) ""%string))
       (pr_tech_keywords pr) (pr_lines_changed pr) (pr_merged_date pr)
       0 None None None false false 0 0 0.

Record PointStruct : Type := mkPoint {
  id : nat;
  vector : list Q;
  payload : PR
}.

(** The loop of lines 99 to 122 on records made by [embed_prs] (which
    always carry the key ['embedding']): a record whose vector is empty
    is skipped. *)
Definition point_step (points : list PointStruct)
    (it : nat * PREmbedder.embedded) : list PointStruct :=
  let '(idx, pr) := it in
  match PREmbedder.embedding pr with
  | [] => points
  | _ :: _ =>
      points ++ [mkPoint idx (PREmbedder.embedding pr)
                   (payload_of (PREmbedder.source pr))]
  end.

Definition points_of (prs : list PREmbedder.embedded) : list PointStruct :=
  fold_left point_step (PREmbedder.enumerate prs) [].

(** [upload_prs], for a positive batch size: the arguments of the calls
    of [client.upsert], in the order of the calls. *)
Definition upload_prs (prs : list PREmbedder.embedded) (batch_size : positive)
  : list (list PointStruct) :=
  let points := points_of prs in
  map (fun i => firstn (Pos.to_nat batch_size) (skipn i points))
    (PREmbedder.range_step (length points) (Pos.to_nat batch_size)).

(** [pr_data = dict(result.payload); pr_data['similarity_score'] = result.score]. *)
Definition format_result (payload : PR) (score : Q) : PR :=
  mkPR (pr_title payload) (pr_url payload) (pr_repo payload) (pr_author payload)
       (pr_tech_keywords payload) (pr_lines_changed payload)
       (pr_merged_date payload) score
       (pr_complexity_score payload) (pr_impact_score payload)
       (pr_impact_category payload) (pr_has_tests payload) (pr_has_docs payload)
       (pr_review_comments_count payload) (pr_files_changed payload)
       (pr_commits_count payload).

(** The loop of lines 203 to 209 over the scored points that the client
    returns. *)
Definition format_results (results : list (PointStruct * Q)) : list PR :=
  map (fun r => format_result (payload (fst r)) (snd r)) results.
End QdrantDB.

(** ** Strings *)

(** [pattern in s]. *)
Fixpoint contains (pattern s : string) : bool :=
  if String.prefix pattern s then true
  else match s with
       | EmptyString => false
       | String _ s' => contains pattern s'
       end.

(** ** github_api_scraper.py: the two scores of a scraped record *)

Module GitHubAPIScraper.
Local Open Scope Q_scope.


(** The dictionary [categories], in its order. *)
Definition categories : list (string * (list string * Q)) :=
  [ ("feature"%string,
     (["feat:"; "feature:"; "add"; "implement"; "introduce"; "new"]%string, 1.0));
    ("performance"%string,
     (["perf:"; "performance:"; "optimize"; "speed up"; "improve performance"]%string,
      0.9));
    ("fix"%string,
     (["fix:"; "bug:"; "resolve"; "patch"; "correct"]%string, 0.7));
    ("refactor"%string,
     (["refactor:"; "restructure"; "cleanup"; "reorganize"]%string, 0.5));
    ("docs"%string,
     (["docs:"; "documentation:"; "readme"; "comment"]%string, 0.3));
    ("chore"%string,
     (["chore:"; "deps:"; "ci:"; "build:"; "dependencies"; "upgrade"]%string, 0.2)) ].

Section Lower.
(** [str.lower]. *)
Variable lower : string -> string.

Definition matches (title_lower : string) (entry : string * (list string * Q))
  : bool :=
  existsb (fun pattern => contains pattern title_lower) (fst (snd entry)).

Definition _categorize_pr_impact (title : string) : string * Q :=
  if String.eqb title "" then ("unknown"%string, 0.5)
  else
    let title_lower := lower title in
    match find (matches title_lower) categories with
    | Some (category, (_, score)) => (category, score)
    | None => ("unknown"%string, 0.5)
    end.
End Lower.
End GitHubAPIScraper.

(** ** utils.py *)

Module utils.

(** [BOT_AUTHORS] of config.py. *)
Definition BOT_AUTHORS : list string :=
  ["dependabot"; "renovate"; "renovate-bot"; "dependabot-preview"]%string.

Section Text.
(** [str.lower], and [clean_text], whose regular expressions are not
    modelled. *)
Variable lower : string -> string.
Variable clean_text : string -> string.

Definition is_bot_author (username : string) : bool :=
  if String.eqb username "" then true
  else
    let username_lower := lower username in
    if existsb (String.eqb username_lower) BOT_AUTHORS then true
    else
      let bot_patterns := ["bot"; "automated"; "dependabot"; "renovate"]%string in
      existsb (fun pattern => contains pattern username_lower) bot_patterns.

(** A string is a sequence of characters here: [len] and the slice
    [description[:500]] count them. *)
Definition format_pr_text_for_embedding (title description : string)
    (tech_keywords : list string) : string :=
  let title := if String.eqb title "" then ""%string else clean_text title in
  let description :=
    if String.eqb description "" then ""%string else clean_text description in
  let components := [] in
  let components :=
    if String.eqb title "" then components else components ++ [title] in
  let components :=
    if String.eqb description "" then components
    else
      let description :=
        if (500 <? String.length description)%nat
        then (String.substring 0 500 description ++ "...")%string
        else description in
      components ++ [description] in
  let components :=
    match tech_keywords with
    | [] => components
    | _ :: _ =>
        components
        ++ [("Technologies: " ++ String.concat ", " tech_keywords)%string]
    end in
  match components with
  | [] => ""%string
  | _ :: _ => String.concat ". " components
  end.
End Text.
End utils.

(** ** Vocabulary of the further properties *)

Module Props.

(** A cache whose index is saved and names only payload files that exist. *)
Definition consistent (self : PRCacheManager.t) : Prop :=
  PRCacheManager.index_file self = PRCacheManager.index self
  /\ forall repo entry,
       PRCacheManager.index self !! repo = Some entry ->
       is_Some (PRCacheManager.files self
                !! PRCacheManager._get_repo_cache_path self repo).

(** What a run of the scraper adds to the result: its records, or nothing
    when it raises. *)
Definition scraped (scraper_func : string -> res (list PR)) (repo : string)
  : list PR :=
  match scraper_func repo with
  | Ok prs => prs
  | Raise _ => []
  end.

(** The cache check of a batch, told by recursion on the batch: the
    vectors of the texts that are cached, the texts that are not, with
    the positions of these counted from [k]. *)
Fixpoint hits (cache : gmap string (list Q)) (batch : list string) : list (list Q) :=
  match batch with
  | [] => []
  | text :: rest =>
      match cache !! text with
      | Some embedding => embedding :: hits cache rest
      | None => hits cache rest
      end
  end.

Fixpoint misses (cache : gmap string (list Q)) (batch : list string) : list string :=
  match batch with
  | [] => []
  | text :: rest =>
      match cache !! text with
      | Some _ => misses cache rest
      | None => text :: misses cache rest
      end
  end.

Fixpoint miss_positions (cache : gmap string (list Q)) (k : nat) (batch : list string)
  : list nat :=
  match batch with
  | [] => []
  | text :: rest =>
      match cache !! text with
      | Some _ => miss_positions cache (S k) rest
      | None => k :: miss_positions cache (S k) rest
      end
  end.

(** The vector that stands for a text when texts missing from the cache
    are given the vector [fresh text]. *)
Definition vector_of (cache : gmap string (list Q)) (fresh : string -> list Q)
    (text : string) : list Q :=
  get (cache !! text) (fresh text).

(** A cache that grew out of [cache] by storing the vector [fresh text]
    for each text of [seen] that was missing. *)
Definition grown (cache : gmap string (list Q)) (fresh : string -> list Q)
    (seen : list string) (c : gmap string (list Q)) : Prop :=
  forall text,
    c !! text = if in_dec string_dec text seen
                then Some (vector_of cache fresh text)
                else cache !! text.

(** A cache that keeps every entry of [cache] and whose other entries are
    vectors [fresh text] of texts of [seen]. *)
Definition extends (cache : gmap string (list Q)) (fresh : string -> list Q)
    (seen : list string) (c : gmap string (list Q)) : Prop :=
  (forall text v, cache !! text = Some v -> c !! text = Some v)
  /\ (forall text v, c !! text = Some v -> cache !! text = None ->
        v = fresh text /\ In text seen).

(** The records whose text is not empty, with their positions from [k]. *)
Fixpoint valid_positions (text_of : PR -> string) (k : nat) (prs : list PR) : list nat :=
  match prs with
  | [] => []
  | pr :: rest =>
      if String.eqb (text_of pr) "" then valid_positions text_of (S k) rest
      else k :: valid_positions text_of (S k) rest
  end.

Definition has_text (text_of : PR -> string) (pr : PR) : bool :=
  negb (String.eqb (text_of pr) "").
End Props.

(** ** More concrete inputs *)

Module Cases.

(** Two repository names that [_get_repo_cache_path] maps to one file. *)
Definition repo_slash : string := "acme/web_app".
Definition repo_underscore : string := "acme_web/app".

Definition empty_cache : PRCacheManager.t :=
  PRCacheManager.mkCache "data/cache" ∅ ∅ ∅ [].
End Cases.

(** * Theorems *)

(** ** Arithmetic helpers *)

Section Arith.
Local Open Scope Q_scope.

Lemma Qmin_eq_compat (a b c d : Q) : a == c -> b == d -> Qmin a b == Qmin c d.
Proof. intros H1 H2. rewrite H1, H2. reflexivity. Qed.

Lemma lines_normalized_f (lines : Z) :
  Qmin (inject_Z lines / 5000.0) 1.0 == Spec.f (inject_Z lines).
Proof.
  unfold Spec.f. apply Qmin_eq_compat.
  - unfold Qdiv. apply Qmult_comp; reflexivity.
  - reflexivity.
Qed.
End Arith.

(** ** The combined score of a candidate *)

(** Unfold both sides and decide the four tests of [combined_score]. *)
Ltac combined_score_cases c :=
  unfold ExpertFinder.combined_score, Spec.combined, Spec.sizeBoost,
    Spec.complexityBoost, Spec.impactBoost, Spec.qualityBoost, Spec.substantial,
    Spec.iverson;
  cbv zeta;
  let Hf := fresh "Hf" in
  pose proof (lines_normalized_f (pr_lines_changed c)) as Hf;
  set (Qmin (inject_Z (pr_lines_changed c) / 5000.0) 1.0) in *;
  set (Spec.f (inject_Z (pr_lines_changed c))) in *;
  destruct (config.MIN_SUBSTANTIAL_PR_LINES <=? pr_lines_changed c)%Z,
    (pr_has_tests c), (pr_has_docs c), (5 <? pr_review_comments_count c)%Z;
  rewrite Hf; ring.

Lemma combined_score_spec (c : PR) :
  (ExpertFinder.combined_score c == Spec.combined c)%Q.
Proof. combined_score_cases c. Qed.

(** C1. For every candidate match [c], the combined score computed by the
    nested function [combined_score] of the ranking engine equals
    similarity(c) * (1 + sizeBoost + complexityBoost + impactBoost +
    qualityBoost), with the four boosts as the specification defines them
    (a field that the candidate does not carry reads as the default of the
    source: 0.5 for the complexity and impact scores). *)
Theorem C1_combined_score_formula (c : PR) :
  (ExpertFinder.combined_score c
   == pr_similarity_score c
      * (1 + Spec.sizeBoost c + Spec.complexityBoost c + Spec.impactBoost c
         + Spec.qualityBoost c))%Q.
Proof.
  unfold ExpertFinder.combined_score, Spec.sizeBoost, Spec.complexityBoost,
    Spec.impactBoost, Spec.qualityBoost, Spec.substantial, Spec.iverson.
  cbv zeta.
  pose proof (lines_normalized_f (pr_lines_changed c)) as Hf.
  set (n := Qmin (inject_Z (pr_lines_changed c) / 5000.0) 1.0) in *.
  set (fx := Spec.f (inject_Z (pr_lines_changed c))) in *.
  destruct (config.MIN_SUBSTANTIAL_PR_LINES <=? pr_lines_changed c)%Z.
  - (* substantial: the size boost is 0.15 * f(lines) *)
    destruct (pr_has_tests c), (pr_has_docs c),
      (5 <? pr_review_comments_count c)%Z; rewrite Hf; ring.
  - (* not substantial: the size boost is 0.05 * f(lines) *)
    destruct (pr_has_tests c), (pr_has_docs c),
      (5 <? pr_review_comments_count c)%Z; rewrite Hf; ring.
Qed.

(** ** Sums *)

Section Sums.
Local Open Scope Q_scope.

Lemma fold_left_Qplus (xs : list Q) (a : Q) :
  fold_left Qplus xs a == a + fold_right Qplus 0 xs.
Proof.
  revert a. induction xs as [|x xs IH]; intros a; simpl.
  - ring.
  - rewrite IH. ring.
Qed.

Lemma sumQ_total (xs : list Q) : sumQ xs == Spec.total xs.
Proof. unfold sumQ, Spec.total. rewrite fold_left_Qplus. ring. Qed.

Lemma fold_left_Zplus (xs : list Z) (a : Z) :
  fold_left Z.add xs a = (a + fold_right Z.add 0 xs)%Z.
Proof.
  revert a. induction xs as [|x xs IH]; intros a; simpl.
  - lia.
  - rewrite IH. lia.
Qed.

Lemma sumZ_fold_right (xs : list Z) : sumZ xs = fold_right Z.add 0%Z xs.
Proof. unfold sumZ. rewrite fold_left_Zplus. lia. Qed.

Lemma weighted_products (scores ws : list Q) :
  Spec.total (map (fun sw => fst sw * snd sw) (combine scores ws))
  == Spec.weightedSum scores ws.
Proof.
  revert ws. induction scores as [|s scores IH]; intros [|w ws]; simpl;
    try reflexivity.
  rewrite IH. reflexivity.
Qed.

Lemma combine_firstn_length {A B : Type} (xs : list A) (ys : list B) :
  combine xs (firstn (length xs) ys) = combine xs ys.
Proof.
  revert ys. induction xs as [|x xs IH]; intros [|y ys]; simpl; try reflexivity.
  now rewrite IH.
Qed.

Lemma firstn_min_weights (n : nat) :
  firstn (Nat.min 5 n) Spec.weights = firstn n Spec.weights.
Proof.
  destruct (Nat.le_gt_cases n 5) as [Hle|Hgt].
  - now rewrite Nat.min_r.
  - rewrite Nat.min_l by lia.
    do 6 (destruct n as [|n]; [lia|]). reflexivity.
Qed.
End Sums.

(** ** The stable descending sort *)

Section SortFacts.
Context {A : Type}.

Lemma insert_desc_ext (lt1 lt2 : A -> A -> bool) (x : A) (l : list A) :
  (forall a b, lt1 a b = lt2 a b) -> insert_desc lt1 x l = insert_desc lt2 x l.
Proof.
  intros H. induction l as [|y l IH]; simpl; [reflexivity|].
  rewrite H, IH. reflexivity.
Qed.

Lemma sort_desc_ext (lt1 lt2 : A -> A -> bool) (l : list A) :
  (forall a b, lt1 a b = lt2 a b) -> sort_desc lt1 l = sort_desc lt2 l.
Proof.
  intros H. induction l as [|x l IH]; simpl; [reflexivity|].
  rewrite IH. now apply insert_desc_ext.
Qed.

Lemma insert_desc_perm (lt : A -> A -> bool) (x : A) (l : list A) :
  Permutation (insert_desc lt x l) (x :: l).
Proof.
  induction l as [|y l IH]; simpl; [reflexivity|].
  destruct (lt x y); [|reflexivity].
  rewrite IH. apply perm_swap.
Qed.

Lemma sort_desc_perm (lt : A -> A -> bool) (l : list A) :
  Permutation (sort_desc lt l) l.
Proof.
  induction l as [|x l IH]; simpl; [reflexivity|].
  rewrite insert_desc_perm. now apply perm_skip.
Qed.

Lemma sort_desc_length (lt : A -> A -> bool) (l : list A) :
  length (sort_desc lt l) = length l.
Proof. apply Permutation_length, sort_desc_perm. Qed.

Lemma sort_desc_In (lt : A -> A -> bool) (l : list A) (x : A) :
  In x (sort_desc lt l) <-> In x l.
Proof.
  split; apply Permutation_in; [|symmetry]; apply sort_desc_perm.
Qed.

Lemma sort_desc_nil (lt : A -> A -> bool) (l : list A) :
  sort_desc lt l = [] -> l = [].
Proof.
  intros H. apply (f_equal (@length A)) in H.
  rewrite sort_desc_length in H. now destruct l.
Qed.

Lemma sort_desc_Forall (lt : A -> A -> bool) (P : A -> Prop) (l : list A) :
  Forall P l -> Forall P (sort_desc lt l).
Proof.
  rewrite !List.Forall_forall. intros H x Hx. apply H.
  now apply sort_desc_In in Hx.
Qed.
End SortFacts.

Section SortOrder.
Context {A : Type} (lt : A -> A -> bool).
Hypothesis lt_asym : forall x y, lt x y = true -> lt y x = false.
Hypothesis ge_trans : forall x y z, lt x y = false -> lt y z = false -> lt x z = false.

Lemma insert_desc_descending (x : A) (l : list A) :
  descending lt l -> descending lt (insert_desc lt x l).
Proof.
  unfold descending. induction 1 as [|y l Hl IH Hy]; simpl.
  - repeat constructor.
  - destruct (lt x y) eqn:Hxy.
    + constructor; [exact IH|].
      rewrite List.Forall_forall in *. intros z Hz.
      apply (Permutation_in _ (insert_desc_perm lt x l)) in Hz.
      destruct Hz as [<-|Hz]; [now apply lt_asym | now apply Hy].
    + constructor; [now constructor|].
      constructor; [exact Hxy|].
      rewrite List.Forall_forall in *. intros z Hz.
      apply ge_trans with y; [exact Hxy | now apply Hy].
Qed.

Lemma sort_desc_descending (l : list A) : descending lt (sort_desc lt l).
Proof.
  induction l as [|x l IH]; simpl.
  - constructor.
  - now apply insert_desc_descending.
Qed.
End SortOrder.

Lemma by_keyQ_asym {A : Type} (key : A -> Q) (x y : A) :
  by_keyQ key x y = true -> by_keyQ key y x = false.
Proof.
  unfold by_keyQ, Qltb. rewrite Bool.negb_true_iff, Bool.negb_false_iff.
  intros H. apply Qle_bool_iff. apply Qlt_le_weak, Qnot_le_lt.
  intros Hle. apply Qle_bool_iff in Hle. congruence.
Qed.

Lemma by_keyQ_ge_trans {A : Type} (key : A -> Q) (x y z : A) :
  by_keyQ key x y = false -> by_keyQ key y z = false -> by_keyQ key x z = false.
Proof.
  unfold by_keyQ, Qltb. rewrite !Bool.negb_false_iff, !Qle_bool_iff.
  intros H1 H2. now apply Qle_trans with (key y).
Qed.

(** After [list.sort(key=k, reverse=True)] no element has a key strictly
    below the key of a later element. *)
Lemma sort_desc_by_keyQ_descending {A : Type} (key : A -> Q) (l : list A) :
  descending (by_keyQ key) (sort_desc (by_keyQ key) l).
Proof.
  apply sort_desc_descending.
  - apply by_keyQ_asym.
  - apply by_keyQ_ge_trans.
Qed.

Lemma descending_app {A : Type} (lt : A -> A -> bool) (l1 l2 : list A) :
  descending lt (l1 ++ l2) ->
  forall x y, In x l1 -> In y l2 -> lt x y = false.
Proof.
  unfold descending. induction l1 as [|a l1 IH]; simpl; intros H x y Hx Hy;
    [contradiction|].
  inversion H as [|? ? Hsorted Hall]; subst.
  destruct Hx as [<-|Hx]; [|now apply IH].
  rewrite List.Forall_forall in Hall. apply Hall, List.in_or_app. now right.
Qed.

(** The first [k] elements after the sort are the [k] largest: none of
    them has a key below the key of an element that is left out. *)
Lemma sort_desc_top {A : Type} (key : A -> Q) (k : nat) (l : list A) (x y : A) :
  In x (firstn k (sort_desc (by_keyQ key) l)) ->
  In y (skipn k (sort_desc (by_keyQ key) l)) ->
  (key y <= key x)%Q.
Proof.
  intros Hx Hy.
  pose proof (sort_desc_by_keyQ_descending key l) as Hsorted.
  rewrite <- (List.firstn_skipn k (sort_desc (by_keyQ key) l)) in Hsorted.
  pose proof (descending_app _ _ _ Hsorted x y Hx Hy) as Hlt.
  unfold by_keyQ, Qltb in Hlt. rewrite Bool.negb_false_iff in Hlt.
  now apply Qle_bool_iff.
Qed.

Lemma by_keyQ_ext {A : Type} (k1 k2 : A -> Q) :
  (forall a, (k1 a == k2 a)%Q) -> forall x y, by_keyQ k1 x y = by_keyQ k2 x y.
Proof.
  intros H x y. unfold by_keyQ, Qltb. f_equal.
  destruct (Qle_bool (k1 y) (k1 x)) eqn:E1, (Qle_bool (k2 y) (k2 x)) eqn:E2;
    try reflexivity.
  - apply Qle_bool_iff in E1. rewrite !H in E1. apply Qle_bool_iff in E1. congruence.
  - apply Qle_bool_iff in E2. rewrite <- !H in E2. apply Qle_bool_iff in E2. congruence.
Qed.

Lemma map_insert_desc {A B : Type} (f : A -> B) (lt : B -> B -> bool) (x : A)
    (l : list A) :
  map f (insert_desc (fun a b => lt (f a) (f b)) x l) = insert_desc lt (f x) (map f l).
Proof.
  induction l as [|y l IH]; simpl; [reflexivity|].
  destruct (lt (f x) (f y)); simpl; [now rewrite IH | reflexivity].
Qed.

Lemma map_sort_desc {A B : Type} (f : A -> B) (lt : B -> B -> bool) (l : list A) :
  map f (sort_desc (fun a b => lt (f a) (f b)) l) = sort_desc lt (map f l).
Proof.
  induction l as [|x l IH]; simpl; [reflexivity|].
  now rewrite map_insert_desc, IH.
Qed.

Lemma insert_desc_Z_comm (x y : Z) (l : list Z) :
  insert_desc Z.ltb x (insert_desc Z.ltb y l)
  = insert_desc Z.ltb y (insert_desc Z.ltb x l).
Proof.
  induction l as [|z l IH]; simpl.
  - destruct (Z.ltb_spec x y), (Z.ltb_spec y x); try reflexivity; try lia.
    replace y with x by lia. reflexivity.
  - destruct (Z.ltb_spec y z), (Z.ltb_spec x z); simpl.
    + destruct (Z.ltb_spec x z), (Z.ltb_spec y z); try lia. now rewrite IH.
    + destruct (Z.ltb_spec x z), (Z.ltb_spec y x), (Z.ltb_spec y z); try lia.
      reflexivity.
    + destruct (Z.ltb_spec x y), (Z.ltb_spec x z), (Z.ltb_spec y z); try lia.
      reflexivity.
    + destruct (Z.ltb_spec x y), (Z.ltb_spec y x), (Z.ltb_spec x z),
        (Z.ltb_spec y z); try lia; try reflexivity.
      replace y with x by lia. reflexivity.
Qed.

(** Sorting integers forgets the order in which they were given. *)
Lemma sort_desc_Z_perm (l1 l2 : list Z) :
  Permutation l1 l2 -> sort_desc Z.ltb l1 = sort_desc Z.ltb l2.
Proof.
  induction 1 as [|x l1 l2 _ IH|x y l|l1 l2 l3 _ IH1 _ IH2]; simpl.
  - reflexivity.
  - now rewrite IH.
  - apply insert_desc_Z_comm.
  - now rewrite IH1.
Qed.

(** ** Insertion-ordered dictionaries *)

Section Distinct.
Lemma distinct_In (l : list string) (x : string) :
  In x (Spec.distinct l) <-> In x l.
Proof.
  induction l as [|a l IH]; simpl; [tauto|].
  rewrite List.filter_In, IH, Bool.negb_true_iff, String.eqb_neq.
  destruct (string_dec a x) as [->|Hne]; [tauto|].
  split; [tauto|]. intros [H|H]; [tauto|]. right. split; [exact H|congruence].
Qed.

Lemma distinct_NoDup (l : list string) : List.NoDup (Spec.distinct l).
Proof.
  induction l as [|a l IH]; simpl; constructor.
  - rewrite List.filter_In, Bool.negb_true_iff, String.eqb_neq. tauto.
  - now apply List.NoDup_filter.
Qed.

Lemma distinct_snoc (l : list string) (k : string) :
  Spec.distinct (l ++ [k])
  = if in_dec string_dec k l then Spec.distinct l else Spec.distinct l ++ [k].
Proof.
  induction l as [|a l IH]; simpl; [reflexivity|].
  rewrite IH.
  destruct (string_dec a k) as [->|Hne].
  - destruct (in_dec string_dec k l) as [Hin|Hin]; [reflexivity|].
    rewrite List.filter_app. simpl. rewrite String.eqb_refl. simpl.
    now rewrite List.app_nil_r.
  - destruct (in_dec string_dec k l) as [Hin|Hin]; [reflexivity|].
    rewrite List.filter_app. simpl.
    assert (String.eqb k a = false) as -> by (apply String.eqb_neq; congruence).
    reflexivity.
Qed.

Lemma distinct_perm (l1 l2 : list string) :
  Permutation l1 l2 -> Permutation (Spec.distinct l1) (Spec.distinct l2).
Proof.
  intros H. apply Permutation.NoDup_Permutation; try apply distinct_NoDup.
  intros x. rewrite !distinct_In.
  split; apply Permutation_in; [exact H | now symmetry].
Qed.
End Distinct.

Section DefaultDict.
Context {V X : Type}.
Variable default : V.
Variable key : X -> string.
Variable upd : X -> V -> V.

Lemma defaultdict_update_map (g : V -> V) (k : string) (v : string -> V)
    (D : list string) :
  List.NoDup D ->
  defaultdict_update default g k (map (fun k' => (k', v k')) D)
  = map (fun k' => (k', if String.eqb k k' then g (v k') else v k')) D
    ++ (if in_dec string_dec k D then [] else [(k, g default)]).
Proof.
  induction D as [|a D IH]; intros Hnd; simpl; [reflexivity|].
  inversion Hnd as [|? ? Hnotin HD]; subst.
  destruct (String.eqb_spec k a) as [->|Hne].
  - destruct (string_dec a a) as [Haa|]; [|congruence].
    rewrite List.app_nil_r. f_equal.
    apply List.map_ext_in. intros b Hb.
    destruct (String.eqb_spec a b) as [->|]; [contradiction|reflexivity].
  - rewrite IH by exact HD. simpl.
    destruct (string_dec a k) as [->|Hak]; [congruence|].
    destruct (in_dec string_dec k D); reflexivity.
Qed.

(** The value that the key [k] holds after the updates of [l]. *)
Lemma fold_updates_snoc (k : string) (l : list X) (x : X) :
  fold_left (fun v y => upd y v)
    (List.filter (fun y => String.eqb (key y) k) (l ++ [x])) default
  = if String.eqb (key x) k
    then upd x (fold_left (fun v y => upd y v)
                  (List.filter (fun y => String.eqb (key y) k) l) default)
    else fold_left (fun v y => upd y v)
           (List.filter (fun y => String.eqb (key y) k) l) default.
Proof.
  rewrite List.filter_app. simpl.
  destruct (String.eqb (key x) k).
  - now rewrite List.fold_left_app.
  - now rewrite List.app_nil_r.
Qed.

(** A loop of [d[key(x)] = upd(x, d[key(x)])] leaves one entry per distinct
    key, in the order of first occurrence, holding the updates of the
    elements that have this key. *)
Lemma defaultdict_fold (l : list X) :
  fold_left (fun d x => defaultdict_update default (upd x) (key x) d) l []
  = map (fun k =>
           (k, fold_left (fun v y => upd y v)
                 (List.filter (fun y => String.eqb (key y) k) l) default))
        (Spec.distinct (map key l)).
Proof.
  induction l as [|x l IH] using List.rev_ind; [reflexivity|].
  rewrite List.fold_left_app. simpl. rewrite IH.
  rewrite defaultdict_update_map by apply distinct_NoDup.
  rewrite List.map_app. simpl. rewrite distinct_snoc.
  assert (Hmap : forall D,
    map (fun k' => (k', if String.eqb (key x) k'
                        then upd x (fold_left (fun v y => upd y v)
                               (List.filter (fun y => String.eqb (key y) k') l) default)
                        else fold_left (fun v y => upd y v)
                               (List.filter (fun y => String.eqb (key y) k') l) default)) D
    = map (fun k' => (k', fold_left (fun v y => upd y v)
               (List.filter (fun y => String.eqb (key y) k') (l ++ [x])) default)) D).
  { intros D. apply List.map_ext. intros k'. now rewrite fold_updates_snoc. }
  rewrite Hmap.
  destruct (in_dec string_dec (key x) (Spec.distinct (map key l))) as [Hin|Hin];
    destruct (in_dec string_dec (key x) (map key l)) as [Hin'|Hin'].
  - now rewrite List.app_nil_r.
  - exfalso. apply Hin'. now apply distinct_In.
  - exfalso. apply Hin. now apply distinct_In.
  - rewrite List.map_app. simpl. f_equal. f_equal. f_equal.
    rewrite fold_updates_snoc, String.eqb_refl. f_equal.
    clear -Hin'. induction l as [|y l IHl]; simpl in *; [reflexivity|].
    destruct (String.eqb_spec (key y) (key x)) as [Heq|Hne].
    + exfalso. apply Hin'. now left.
    + apply IHl. tauto.
Qed.
End DefaultDict.

(** ** Grouping by author *)

Section Grouping.
Import ExpertFinder.

Lemma fold_left_snoc_all {A : Type} (l acc : list A) :
  fold_left (fun v y => v ++ [y]) l acc = acc ++ l.
Proof.
  revert acc. induction l as [|x l IH]; intros acc; simpl.
  - now rewrite List.app_nil_r.
  - rewrite IH, <- List.app_assoc. reflexivity.
Qed.

Lemma truthy_author_named (pr : PR) :
  Spec.named pr = match truthy_author pr with Some a => [a] | None => [] end.
Proof.
  unfold Spec.named, truthy_author.
  destruct (pr_author pr) as [a|]; [|reflexivity].
  now destruct (String.eqb a "").
Qed.

Lemma truthy_author_nonempty (pr : PR) (a : string) :
  truthy_author pr = Some a -> pr_author pr = Some a /\ a <> ""%string.
Proof.
  unfold truthy_author. destruct (pr_author pr) as [b|]; [|discriminate].
  destruct (String.eqb_spec b "") as [->|Hne]; [discriminate|].
  intros [= <-]. now split.
Qed.

(** The grouping loop only sees the candidates whose author is truthy. *)
Lemma group_by_author_fold (prs : list PR) (acc : list (string * list PR)) :
  fold_left
    (fun author_prs pr =>
       match truthy_author pr with
       | Some a => append_pr a pr author_prs
       | None => author_prs
       end) prs acc
  = fold_left
      (fun d pr => defaultdict_update [] (fun l => l ++ [pr])
                     (get (truthy_author pr) ""%string) d)
      (List.filter (fun pr => match truthy_author pr with
                              | Some _ => true | None => false end) prs)
      acc.
Proof.
  revert acc. induction prs as [|pr prs IH]; intros acc; simpl; [reflexivity|].
  destruct (truthy_author pr) as [a|] eqn:Ha; simpl.
  - rewrite Ha. simpl. apply IH.
  - apply IH.
Qed.

Lemma named_keys (prs : list PR) :
  map (fun pr => get (truthy_author pr) ""%string)
      (List.filter (fun pr => match truthy_author pr with
                              | Some _ => true | None => false end) prs)
  = flat_map Spec.named prs.
Proof.
  induction prs as [|pr prs IH]; simpl; [reflexivity|].
  rewrite truthy_author_named.
  destruct (truthy_author pr) as [a|] eqn:Ha; simpl; rewrite ?Ha; simpl;
    now rewrite IH.
Qed.

Lemma authors_nonempty (prs : list PR) (a : string) :
  In a (Spec.authors prs) -> a <> ""%string.
Proof.
  unfold Spec.authors. rewrite distinct_In, List.in_flat_map.
  intros (pr & _ & Hin). rewrite truthy_author_named in Hin.
  destruct (truthy_author pr) as [b|] eqn:Hb; [|contradiction].
  destruct Hin as [<-|[]]. now apply truthy_author_nonempty in Hb.
Qed.

Lemma group_of_named (prs : list PR) (a : string) :
  a <> ""%string ->
  List.filter (fun y => String.eqb (get (truthy_author y) ""%string) a)
    (List.filter (fun pr => match truthy_author pr with
                            | Some _ => true | None => false end) prs)
  = Spec.group a prs.
Proof.
  intros Ha. unfold Spec.group.
  induction prs as [|pr prs IH]; simpl; [reflexivity|].
  destruct (truthy_author pr) as [b|] eqn:Hb; simpl.
  - rewrite Hb. simpl. apply truthy_author_nonempty in Hb as [Hb _].
    rewrite Hb. destruct (String.eqb b a); now rewrite IH.
  - rewrite IH. unfold truthy_author in Hb.
    destruct (pr_author pr) as [b|]; [|reflexivity].
    destruct (String.eqb_spec b "") as [Hbe|Hne]; [subst b|discriminate].
    destruct (String.eqb_spec "" a) as [Hae|Hne]; [congruence|reflexivity].
Qed.

(** One group per author identity, in order of first appearance, holding
    that author's candidates in their original order. *)
Lemma group_by_author_spec (prs : list PR) :
  group_by_author prs = map (fun a => (a, Spec.group a prs)) (Spec.authors prs).
Proof.
  unfold group_by_author. rewrite group_by_author_fold.
  rewrite (defaultdict_fold [] (fun pr => get (truthy_author pr) ""%string)
             (fun pr l => l ++ [pr])).
  rewrite named_keys. fold (Spec.authors prs).
  apply List.map_ext_in. intros a Ha. f_equal.
  rewrite fold_left_snoc_all. simpl.
  apply group_of_named. now apply authors_nonempty in Ha.
Qed.

Lemma group_nonempty (prs : list PR) (a : string) :
  In a (Spec.authors prs) -> Spec.group a prs <> [].
Proof.
  unfold Spec.authors. rewrite distinct_In, List.in_flat_map.
  intros (pr & Hpr & Hin) Hnil.
  assert (In pr (Spec.group a prs)) as Hg; [|rewrite Hnil in Hg; contradiction].
  unfold Spec.group. apply List.filter_In. split; [exact Hpr|].
  unfold Spec.named in Hin. destruct (pr_author pr) as [b|]; [|contradiction].
  destruct (String.eqb b ""); [contradiction|].
  destruct Hin as [->|[]]. apply String.eqb_refl.
Qed.
End Grouping.

(** ** Technology frequencies *)

Section Frequencies.
Import ExpertFinder.

Lemma filter_perm {A : Type} (f : A -> bool) (l1 l2 : list A) :
  Permutation l1 l2 -> Permutation (List.filter f l1) (List.filter f l2).
Proof.
  induction 1 as [|x l1 l2 _ IH|x y l|l1 l2 l3 _ IH1 _ IH2]; simpl.
  - constructor.
  - destruct (f x); [now constructor | exact IH].
  - destruct (f x), (f y); try reflexivity. apply perm_swap.
  - now transitivity (List.filter f l2).
Qed.

Lemma len_perm {A : Type} (l1 l2 : list A) : Permutation l1 l2 -> len l1 = len l2.
Proof. intros H. unfold len. now rewrite (Permutation_length H). Qed.

Lemma tokens_perm (g1 g2 : list PR) :
  Permutation g1 g2 -> Permutation (Spec.tokens g1) (Spec.tokens g2).
Proof.
  unfold Spec.tokens.
  induction 1 as [|x l1 l2 _ IH|x y l|l1 l2 l3 _ IH1 _ IH2]; simpl.
  - constructor.
  - now apply Permutation_app_head.
  - rewrite !List.app_assoc. apply Permutation_app_tail, Permutation_app_comm.
  - now transitivity (concat (map pr_tech_keywords l2)).
Qed.

Lemma frequency_perm (t : string) (l1 l2 : list string) :
  Permutation l1 l2 -> Spec.frequency t l1 = Spec.frequency t l2.
Proof. intros H. unfold Spec.frequency. now apply len_perm, filter_perm. Qed.

Lemma fold_left_concat {A B C : Type} (h : A -> B -> A) (k : C -> list B)
    (l : list C) (a : A) :
  fold_left (fun acc x => fold_left h (k x) acc) l a
  = fold_left h (concat (map k l)) a.
Proof.
  revert a. induction l as [|x l IH]; intros a; simpl; [reflexivity|].
  now rewrite IH, List.fold_left_app.
Qed.

Lemma fold_left_count {A : Type} (l : list A) (a : Z) :
  fold_left (fun v _ => (v + 1)%Z) l a = (a + len l)%Z.
Proof.
  revert a. induction l as [|x l IH]; intros a.
  - unfold len. simpl. lia.
  - simpl. rewrite IH. unfold len. simpl length. lia.
Qed.

(** [tech_frequency] holds, for every token of the group and in order of
    first occurrence, the number of its occurrences. *)
Lemma tech_frequency_spec (g : list PR) :
  tech_frequency g
  = map (fun t => (t, Spec.frequency t (Spec.tokens g)))
        (Spec.distinct (Spec.tokens g)).
Proof.
  unfold tech_frequency.
  rewrite (fold_left_concat (fun f tech => incr tech f) pr_tech_keywords).
  fold (Spec.tokens g).
  unfold incr.
  rewrite (defaultdict_fold 0%Z (fun t : string => t) (fun _ n => (n + 1)%Z)).
  rewrite List.map_id.
  apply List.map_ext. intros t. f_equal.
  rewrite fold_left_count, Z.add_0_l. unfold Spec.frequency. f_equal.
  apply List.filter_ext. intros y. apply String.eqb_sym.
Qed.

Lemma firstn_nil_iff {A : Type} (n : nat) (l : list A) :
  firstn (S n) l = [] <-> l = [].
Proof. destruct l; simpl; split; congruence. Qed.

(** The frequencies of the top three tokens do not depend on the order of
    the group. *)
Lemma top_frequencies (g s : list PR) :
  Permutation s g ->
  map snd (firstn 3 (sort_desc (by_keyZ snd) (tech_frequency s)))
  = Spec.topFrequencies g.
Proof.
  intros Hperm. unfold Spec.topFrequencies.
  rewrite <- List.firstn_map.
  change (by_keyZ (@snd string Z)) with (fun a b : string * Z => Z.ltb (snd a) (snd b)).
  rewrite map_sort_desc. f_equal.
  apply sort_desc_Z_perm.
  rewrite tech_frequency_spec, List.map_map. simpl.
  pose proof (tokens_perm _ _ Hperm) as Htok.
  rewrite (List.map_ext _ (fun t => Spec.frequency t (Spec.tokens g)))
    by (intros t; now apply frequency_perm).
  apply Permutation_map. now apply distinct_perm.
Qed.
End Frequencies.

(** ** The profile of one author *)

Section Profile.
Import ExpertFinder.
Local Open Scope Q_scope.

Lemma weightedSum_compat (xs ys ws : list Q) :
  Forall2 Qeq xs ys -> Spec.weightedSum xs ws == Spec.weightedSum ys ws.
Proof.
  intros H. revert ws. induction H as [|x y xs ys Hxy _ IH]; intros [|w ws];
    simpl; try reflexivity.
  rewrite Hxy, IH. reflexivity.
Qed.

Lemma map_combined_score (l : list PR) :
  Forall2 Qeq (map combined_score l) (map Spec.combined l).
Proof.
  induction l as [|c l IH]; simpl; constructor; [apply combined_score_spec | exact IH].
Qed.

Lemma sort_by_combined (g : list PR) :
  sort_desc (by_keyQ combined_score) g = sort_desc (by_keyQ Spec.combined) g.
Proof. apply sort_desc_ext, by_keyQ_ext, combined_score_spec. Qed.

Lemma weighted_avg_spec (g s : list PR) :
  s = sort_desc (by_keyQ combined_score) g ->
  sumQ (map (fun sw => fst sw * snd sw)
          (combine (map combined_score (firstn 5 s))
             (firstn (length (map combined_score (firstn 5 s)))
                [1.0; 0.8; 0.6; 0.4; 0.2])))
  / sumQ (firstn (length (map combined_score (firstn 5 s)))
            [1.0; 0.8; 0.6; 0.4; 0.2])
  == Spec.weightedAvg g.
Proof.
  intros ->. unfold Spec.weightedAvg, Spec.top.
  fold Spec.weights.
  rewrite combine_firstn_length, !sumQ_total, weighted_products.
  rewrite List.length_map, List.length_firstn, sort_desc_length, firstn_min_weights.
  rewrite sort_by_combined.
  rewrite (weightedSum_compat _ _ _ (map_combined_score _)).
  reflexivity.
Qed.

Lemma tech_depth_spec (g s : list PR) :
  Permutation s g ->
  match tech_frequency s with
  | [] => 0.0
  | _ :: _ =>
      Qmin (inject_Z (sumZ (map snd (firstn 3 (sort_desc (by_keyZ snd) (tech_frequency s)))))
            / inject_Z (len (firstn 3 (sort_desc (by_keyZ snd) (tech_frequency s))))
            / 5.0) 1.0
  end == Spec.techDepth g.
Proof.
  intros Hperm. unfold Spec.techDepth.
  pose proof (top_frequencies g s Hperm) as Htop.
  assert (Hlen : len (firstn 3 (sort_desc (by_keyZ snd) (tech_frequency s)))
                 = len (Spec.topFrequencies g)).
  { unfold len. now rewrite <- Htop, List.length_map. }
  rewrite Hlen, Htop, sumZ_fold_right.
  destruct (tech_frequency s) as [|p freq] eqn:Hfreq.
  - rewrite <- Htop. reflexivity.
  - destruct (Spec.topFrequencies g) as [|n fs] eqn:Hfs.
    + exfalso. apply (f_equal (@length Z)) in Htop.
      rewrite List.length_map, List.length_firstn, sort_desc_length in Htop.
      simpl in Htop. lia.
    + apply Qmin_eq_compat; [|reflexivity].
      unfold Qdiv. apply Qmult_comp; reflexivity.
Qed.

Lemma volume_boost_spec (g s : list PR) :
  Permutation s g ->
  Qmin (inject_Z (len s) / 10.0) 1.0 == Spec.volumeBoost g.
Proof.
  intros H. unfold Spec.volumeBoost. rewrite (len_perm _ _ H).
  apply Qmin_eq_compat; [|reflexivity].
  unfold Qdiv. apply Qmult_comp; reflexivity.
Qed.

Lemma substantial_boost_spec (g s : list PR) :
  Permutation s g ->
  Qmin (inject_Z (len (List.filter is_substantial s)) / 5.0) 0.2
  == Spec.substantialBoost g.
Proof.
  intros H. unfold Spec.substantialBoost.
  rewrite (len_perm _ _ (filter_perm is_substantial _ _ H)).
  apply Qmin_eq_compat; [|reflexivity].
  unfold Qdiv. apply Qmult_comp; reflexivity.
Qed.

Variable now : Z.
Variable decay : Z -> res Q.

Lemma score_author_ok (rw : Q) (a : string) (g : list PR) :
  g <> [] -> exists e, score_author now decay rw a g = Ok e.
Proof.
  intros Hg. unfold score_author.
  destruct (sort_desc (by_keyQ combined_score) g) as [|best s] eqn:Hs.
  - apply sort_desc_nil in Hs. contradiction.
  - eexists. reflexivity.
Qed.

(** What the loop body stores in the profile of an author. *)
Lemma score_author_fields (rw : Q) (a : string) (g : list PR) (e : Expert) :
  score_author now decay rw a g = Ok e ->
  author e = a
  /\ similarity_score e == Spec.similarityScore g
  /\ tech_depth_score e == Spec.techDepth g
  /\ score e == similarity_score e * (1 - rw) + recency_score e * rw
  /\ total_relevant_prs e = len g
  /\ substantial_prs_count e = len (List.filter Spec.substantial g)
  /\ top_prs e = Spec.top 3 g
  /\ hd_error (Spec.top 1 g) = Some (best_pr e).
Proof.
  unfold score_author.
  pose proof (sort_desc_perm (by_keyQ combined_score) g) as Hperm.
  remember (sort_desc (by_keyQ combined_score) g) as s eqn:Hsort.
  destruct s as [|best s']; [discriminate|].
  intros [= <-]. cbn [author similarity_score tech_depth_score score
    recency_score total_relevant_prs substantial_prs_count top_prs best_pr].
  split; [reflexivity|].
  split.
  { unfold Spec.similarityScore, Spec.specializationBoost.
    apply Qmult_comp; [apply Qmult_comp|].
    + exact (weighted_avg_spec g (best :: s') Hsort).
    + apply Qplus_comp; [reflexivity|].
      apply Qmult_comp; [reflexivity|].
      exact (volume_boost_spec g (best :: s') Hperm).
    + apply Qplus_comp; [apply Qplus_comp; [reflexivity|]|].
      * exact (substantial_boost_spec g (best :: s') Hperm).
      * apply Qmult_comp; [|reflexivity].
        exact (tech_depth_spec g (best :: s') Hperm). }
  split; [exact (tech_depth_spec g (best :: s') Hperm)|].
  split; [reflexivity|].
  split; [now apply len_perm|].
  split; [exact (len_perm _ _ (filter_perm is_substantial _ _ Hperm))|].
  unfold Spec.top. rewrite <- sort_by_combined, <- Hsort. split; reflexivity.
Qed.
End Profile.

(** ** The minimum-expertise filter *)

Section FilterExperts.
Import ExpertFinder.

Lemma filter_loop (experts acc : list Expert) :
  fold_left (fun acc expert => if meets_criteria expert then acc ++ [expert] else acc)
    experts acc
  = acc ++ List.filter meets_criteria experts.
Proof.
  revert acc. induction experts as [|e experts IH]; intros acc; simpl.
  - now rewrite List.app_nil_r.
  - rewrite IH. destruct (meets_criteria e); [|reflexivity].
    now rewrite <- List.app_assoc.
Qed.

Lemma filter_experts_cases (experts : list Expert) :
  filter_experts experts
  = match List.filter meets_criteria experts with
    | [] => experts
    | kept => kept
    end.
Proof.
  unfold filter_experts. rewrite filter_loop. simpl.
  now destruct (List.filter meets_criteria experts).
Qed.

Lemma meets_criteria_qualifies (e : Expert) :
  meets_criteria e = true <-> Spec.qualifies e.
Proof.
  unfold meets_criteria, Spec.qualifies.
  rewrite Bool.orb_true_iff, !Z.leb_le. reflexivity.
Qed.

Lemma filter_experts_incl (experts : list Expert) (e : Expert) :
  In e (filter_experts experts) -> In e experts.
Proof.
  rewrite filter_experts_cases.
  destruct (List.filter meets_criteria experts) as [|k kept] eqn:Hk; [tauto|].
  rewrite <- Hk, List.filter_In. tauto.
Qed.

Lemma filter_experts_Forall (P : Expert -> Prop) (experts : list Expert) :
  Forall P experts -> Forall P (filter_experts experts).
Proof.
  rewrite !List.Forall_forall. intros H e He. apply H.
  now apply filter_experts_incl.
Qed.
End FilterExperts.

(** ** The ranking as a whole *)

Section Ranking.
Import ExpertFinder.
Variable now : Z.
Variable decay : Z -> res Q.

Lemma score_authors_ok (rw : Q) (groups : list (string * list PR)) :
  Forall (fun ag => snd ag <> []) groups ->
  exists profiles,
    score_authors now decay rw groups = Ok profiles
    /\ Forall2 (fun ag e => score_author now decay rw (fst ag) (snd ag) = Ok e)
         groups profiles.
Proof.
  induction 1 as [|[a g] groups Hg _ (profiles & Hok & Hall)]; simpl.
  - exists []. split; [reflexivity | constructor].
  - destruct (score_author_ok now decay rw a g Hg) as [e He].
    rewrite He, Hok. exists (e :: profiles). split; [reflexivity|].
    constructor; [exact He | exact Hall].
Qed.

(** [_rank_experts] never raises: it builds one profile for every author
    identity of the candidates, sorts the profiles by score and applies
    the minimum-expertise filter. *)
Lemma rank_experts_profiles (prs : list PR) (rw : Q) :
  exists profiles,
    score_authors now decay rw (group_by_author prs) = Ok profiles
    /\ Forall2 (fun a e => score_author now decay rw a (Spec.group a prs) = Ok e)
         (Spec.authors prs) profiles
    /\ _rank_experts now decay prs rw
       = Ok (filter_experts (sort_desc (by_keyQ score) profiles)).
Proof.
  destruct (score_authors_ok rw (group_by_author prs)) as (profiles & Hok & Hall).
  { rewrite group_by_author_spec, List.Forall_map, List.Forall_forall.
    intros a Ha. now apply group_nonempty. }
  exists profiles. split; [exact Hok|]. split.
  - rewrite group_by_author_spec in Hall.
    clear Hok. revert profiles Hall.
    induction (Spec.authors prs) as [|a l IH]; intros profiles Hall;
      inversion Hall; subst; constructor; auto.
  - unfold _rank_experts. now rewrite Hok.
Qed.

Lemma profiles_authors (prs : list PR) (rw : Q) (l : list string)
    (profiles : list Expert) :
  Forall2 (fun a e => score_author now decay rw a (Spec.group a prs) = Ok e)
    l profiles ->
  map author profiles = l.
Proof.
  induction 1 as [|a e l profiles He _ IH]; simpl; [reflexivity|].
  apply score_author_fields in He as [-> _]. now rewrite IH.
Qed.

Lemma profiles_Forall (P : Expert -> Prop) (prs : list PR) (rw : Q)
    (l : list string) (profiles : list Expert) :
  (forall a e, score_author now decay rw a (Spec.group a prs) = Ok e -> P e) ->
  Forall2 (fun a e => score_author now decay rw a (Spec.group a prs) = Ok e)
    l profiles ->
  Forall P profiles.
Proof.
  intros HP. induction 1 as [|a e l profiles He _ IH]; constructor; eauto.
Qed.

Lemma group_by_author_hasAuthor (prs : list PR) :
  group_by_author (List.filter Spec.hasAuthor prs) = group_by_author prs.
Proof.
  unfold group_by_author. generalize (@nil (string * list PR)).
  induction prs as [|pr prs IH]; intros acc; simpl; [reflexivity|].
  assert (Hcase : Spec.hasAuthor pr = true /\ (exists a, truthy_author pr = Some a)
                  \/ Spec.hasAuthor pr = false /\ truthy_author pr = None).
  { unfold Spec.hasAuthor, truthy_author.
    destruct (pr_author pr) as [a|]; [|now right].
    destruct (String.eqb a ""); [now right | left; eauto]. }
  destruct Hcase as [[-> [a Ha]]|[-> Ha]]; simpl; rewrite Ha; apply IH.
Qed.
End Ranking.

(** ** The scenario of section 8 *)

(** Without complexity and impact fields both read as 0.5, which adds
    0.05 + 0.04 to the boosts of every candidate. *)
Example scenario_combined_scores :
  (ExpertFinder.combined_score Sample.alice_600 == 0.9972)%Q
  /\ (ExpertFinder.combined_score Sample.alice_50 == 1.035975)%Q
  /\ (ExpertFinder.combined_score Sample.alice_5000 == 0.496)%Q.
Proof. repeat split. Qed.

(** The 50-line candidate has the highest combined score and is the best
    match; two of the three candidates are substantial. *)
Example scenario_best_match (now : Z) (decay : Z -> res Q) :
  match ExpertFinder._rank_experts now decay
          [Sample.alice_600; Sample.alice_50; Sample.alice_5000] 0.1%Q with
  | Ok [e] =>
      ExpertFinder.author e = "alice"%string
      /\ ExpertFinder.best_pr e = Sample.alice_50
      /\ ExpertFinder.top_prs e
         = [Sample.alice_50; Sample.alice_600; Sample.alice_5000]
      /\ ExpertFinder.total_relevant_prs e = 3%Z
      /\ ExpertFinder.total_lines_changed e = 5650%Z
      /\ ExpertFinder.substantial_prs_count e = 2%Z
      /\ (ExpertFinder.recency_score e == 0)%Q
  | _ => False
  end.
Proof. vm_compute. repeat split. Qed.

(** Equal keys keep their original order under the descending sort. *)
Example sort_desc_is_stable :
  sort_desc (by_keyZ snd) [("a", 1); ("b", 2); ("c", 1); ("d", 2)]%Z
  = [("b", 2); ("d", 2); ("a", 1); ("c", 1)]%Z.
Proof. reflexivity. Qed.

(** ** C2: the aggregate similarity score of an author group *)

(** C2. [_rank_experts] builds exactly one profile for every author
    identity of the candidates, and the [similarity_score] of each profile
    equals the documented aggregate of the author's group: the weighted
    average of the top five combined scores with weights
    [1.0, 0.8, 0.6, 0.4, 0.2] truncated to the group size, multiplied by
    (0.7 + 0.3 * min(groupSize/10, 1)) and by
    (1 + min(substantialCount/5, 0.2) + techDepth * 0.15), where techDepth
    (also stored as [tech_depth_score]) is the average frequency of the
    three most frequent technology tokens, divided by 5 and capped at 1. *)
Theorem C2_similarity_score_formula (now : Z) (decay : Z -> res Q) (prs : list PR)
    (recency_weight : Q) :
  exists profiles,
    ExpertFinder.score_authors now decay recency_weight
      (ExpertFinder.group_by_author prs) = Ok profiles
    /\ map ExpertFinder.author profiles = Spec.authors prs
    /\ Forall (fun e =>
         (ExpertFinder.similarity_score e
          == Spec.similarityScore (Spec.group (ExpertFinder.author e) prs))%Q
         /\ (ExpertFinder.tech_depth_score e
             == Spec.techDepth (Spec.group (ExpertFinder.author e) prs))%Q)
         profiles
    /\ ExpertFinder._rank_experts now decay prs recency_weight
       = Ok (ExpertFinder.filter_experts
               (sort_desc (by_keyQ ExpertFinder.score) profiles)).
Proof.
  destruct (rank_experts_profiles now decay prs recency_weight)
    as (profiles & Hok & Hall & Hrank).
  exists profiles. split; [exact Hok|].
  split; [now apply (profiles_authors now decay prs recency_weight)|].
  split; [|exact Hrank].
  apply (profiles_Forall now decay _ prs recency_weight _ _) with (2 := Hall).
  intros a e He. apply score_author_fields in He as (-> & Hsim & Hdepth & _).
  now split.
Qed.

(** ** C7: the two extreme recency weights *)

(** C7. For every author group the final score is
    similarityScore * (1 - recencyWeight) + recencyScore * recencyWeight;
    with recencyWeight = 0 the final score of every profile equals its
    aggregate similarity score, and with recencyWeight = 1 it equals its
    recency score.  This holds for every profile that is built and hence
    for every profile that [_rank_experts] returns. *)
Theorem C7_recency_weight_extremes (now : Z) (decay : Z -> res Q) (prs : list PR) :
  (forall recency_weight, exists profiles,
      ExpertFinder.score_authors now decay recency_weight
        (ExpertFinder.group_by_author prs) = Ok profiles
      /\ Forall (fun e =>
           (ExpertFinder.score e
            == ExpertFinder.similarity_score e * (1 - recency_weight)
               + ExpertFinder.recency_score e * recency_weight)%Q) profiles)
  /\ (exists profiles experts,
        ExpertFinder.score_authors now decay 0%Q
          (ExpertFinder.group_by_author prs) = Ok profiles
        /\ ExpertFinder._rank_experts now decay prs 0%Q = Ok experts
        /\ Forall (fun e =>
             (ExpertFinder.score e == ExpertFinder.similarity_score e)%Q) profiles
        /\ Forall (fun e =>
             (ExpertFinder.score e == ExpertFinder.similarity_score e)%Q) experts)
  /\ (exists profiles experts,
        ExpertFinder.score_authors now decay 1%Q
          (ExpertFinder.group_by_author prs) = Ok profiles
        /\ ExpertFinder._rank_experts now decay prs 1%Q = Ok experts
        /\ Forall (fun e =>
             (ExpertFinder.score e == ExpertFinder.recency_score e)%Q) profiles
        /\ Forall (fun e =>
             (ExpertFinder.score e == ExpertFinder.recency_score e)%Q) experts).
Proof.
  assert (Hgen : forall rw (P : ExpertFinder.Expert -> Prop),
    (forall e, (ExpertFinder.score e
                == ExpertFinder.similarity_score e * (1 - rw)
                   + ExpertFinder.recency_score e * rw)%Q -> P e) ->
    exists profiles experts,
      ExpertFinder.score_authors now decay rw
        (ExpertFinder.group_by_author prs) = Ok profiles
      /\ ExpertFinder._rank_experts now decay prs rw = Ok experts
      /\ Forall P profiles /\ Forall P experts).
  { intros rw P HP.
    destruct (rank_experts_profiles now decay prs rw) as (profiles & Hok & Hall & Hrank).
    assert (HF : Forall P profiles).
    { apply (profiles_Forall now decay _ prs rw _ _) with (2 := Hall).
      intros a e He. apply HP.
      now apply score_author_fields in He as (_ & _ & _ & Hscore & _). }
    exists profiles, (ExpertFinder.filter_experts
                        (sort_desc (by_keyQ ExpertFinder.score) profiles)).
    repeat split; try assumption.
    now apply filter_experts_Forall, sort_desc_Forall. }
  split; [|split].
  - intros rw. destruct (Hgen rw (fun e =>
      (ExpertFinder.score e
       == ExpertFinder.similarity_score e * (1 - rw)
          + ExpertFinder.recency_score e * rw)%Q)) as (profiles & _ & Hok & _ & HF & _);
      [tauto|]. now exists profiles.
  - apply Hgen. intros e ->. ring.
  - apply Hgen. intros e ->. ring.
Qed.

(** ** C10: candidates without an author *)

(** C10. Candidates whose author field is missing or is the empty string
    are discarded before grouping: removing them from the candidate list
    changes neither the groups nor the result of [_rank_experts], and no
    returned profile has the empty string as its author. *)
Theorem C10_authorless_candidates_discarded (now : Z) (decay : Z -> res Q)
    (prs : list PR) (recency_weight : Q) :
  ExpertFinder.group_by_author (List.filter Spec.hasAuthor prs)
  = ExpertFinder.group_by_author prs
  /\ ExpertFinder._rank_experts now decay (List.filter Spec.hasAuthor prs)
       recency_weight
     = ExpertFinder._rank_experts now decay prs recency_weight
  /\ exists experts,
       ExpertFinder._rank_experts now decay prs recency_weight = Ok experts
       /\ Forall (fun e => ExpertFinder.author e <> ""%string
                           /\ In (ExpertFinder.author e) (Spec.authors prs))
            experts.
Proof.
  split; [apply group_by_author_hasAuthor|].
  split.
  { unfold ExpertFinder._rank_experts. now rewrite group_by_author_hasAuthor. }
  destruct (rank_experts_profiles now decay prs recency_weight)
    as (profiles & Hok & Hall & Hrank).
  eexists. split; [exact Hrank|].
  apply filter_experts_Forall, sort_desc_Forall.
  pose proof (profiles_authors now decay prs recency_weight _ _ Hall) as Hauthors.
  rewrite List.Forall_forall. intros e He.
  assert (In (ExpertFinder.author e) (Spec.authors prs)) as Hin.
  { rewrite <- Hauthors. now apply List.in_map. }
  split; [now apply authors_nonempty in Hin | exact Hin].
Qed.

(** ** C3: the substantiality filter *)

Lemma substantiality_filter_cases (results : list PR) :
  ExpertFinder.substantiality_filter results
  = match List.filter Spec.substantial results with
    | [] => results
    | _ :: _ => Spec.substantialityRule results
    end.
Proof.
  unfold ExpertFinder.substantiality_filter, Spec.substantialityRule.
  change ExpertFinder.is_substantial with Spec.substantial.
  destruct (List.filter Spec.substantial results) as [|c kept] eqn:Hkept;
    [reflexivity|].
  destruct (20 <=? len (c :: kept))%Z; [reflexivity|].
  do 3 f_equal. apply List.filter_ext. intros pr.
  unfold Spec.substantial. apply Z.ltb_antisym.
Qed.

(** C3, the claim as stated, fails when no candidate is substantial: of
    twenty-one candidates of zero lines the source keeps all twenty-one,
    where the stated rule keeps twenty. *)
Lemma C3_counterexample_no_substantial :
  Spec.substantialityRule Sample.all_small
  <> ExpertFinder.substantiality_filter Sample.all_small
  /\ len (ExpertFinder.substantiality_filter Sample.all_small) = 21%Z
  /\ len (Spec.substantialityRule Sample.all_small) = 20%Z.
Proof.
  split; [|split; reflexivity].
  intros H. apply (f_equal (@length PR)) in H. vm_compute in H. discriminate.
Qed.

(** C3 (amended). When at least one retrieved candidate is substantial the
    filter follows the documented rule: with twenty or more substantial
    candidates only these are kept, otherwise all of them are kept,
    followed by the largest non-substantial candidates, at most
    max(10, 20 - substantialCount) of them.  When no candidate is
    substantial, every candidate is kept, in the order given. *)
Theorem C3_substantiality_filter (results : list PR) :
  ((exists c, In c results /\ Spec.substantial c = true) ->
   ExpertFinder.substantiality_filter results = Spec.substantialityRule results)
  /\ ((forall c, In c results -> Spec.substantial c = false) ->
      ExpertFinder.substantiality_filter results = results).
Proof.
  rewrite substantiality_filter_cases. split.
  - intros (c & Hin & Hc).
    destruct (List.filter Spec.substantial results) as [|x kept] eqn:Hkept;
      [|reflexivity].
    assert (In c (List.filter Spec.substantial results)) as Hc'
      by (apply List.filter_In; now split).
    rewrite Hkept in Hc'. contradiction.
  - intros Hnone.
    destruct (List.filter Spec.substantial results) as [|x kept] eqn:Hkept;
      [reflexivity|].
    assert (In x (List.filter Spec.substantial results)) as Hx
      by (rewrite Hkept; now left).
    apply List.filter_In in Hx as [Hin Hx]. rewrite (Hnone x Hin) in Hx. discriminate.
Qed.

Lemma C3_substantiality_filter_witness :
  ExpertFinder.substantiality_filter [Sample.small; Sample.large]
  = Spec.substantialityRule [Sample.small; Sample.large]
  /\ ExpertFinder.substantiality_filter Sample.all_small = Sample.all_small.
Proof.
  split.
  - apply (proj1 (C3_substantiality_filter [Sample.small; Sample.large])).
    exists Sample.large. split; [right; left; reflexivity | reflexivity].
  - apply (proj2 (C3_substantiality_filter Sample.all_small)).
    intros c Hc. apply List.repeat_spec in Hc. subst c. reflexivity.
Defined.

(** ** C4: the minimum-expertise filter *)

(** C4. On a non-empty list of ranked profiles the filter keeps, in order,
    exactly the profiles whose relevant PR count is at least
    [MIN_EXPERT_PRS] or whose total of changed lines is at least
    [MIN_EXPERT_TOTAL_LINES]; when no profile satisfies either condition
    it returns the whole list; in both cases the result is not empty. *)
Theorem C4_minimum_expertise_filter (experts : list ExpertFinder.Expert) :
  experts <> [] ->
  ((exists e, In e experts /\ Spec.qualifies e) ->
   ExpertFinder.filter_experts experts
   = List.filter ExpertFinder.meets_criteria experts
   /\ forall e, In e (ExpertFinder.filter_experts experts)
                <-> In e experts /\ Spec.qualifies e)
  /\ ((forall e, In e experts -> ~ Spec.qualifies e) ->
      ExpertFinder.filter_experts experts = experts)
  /\ ExpertFinder.filter_experts experts <> [].
Proof.
  intros Hne. rewrite filter_experts_cases.
  destruct (List.filter ExpertFinder.meets_criteria experts) as [|k kept] eqn:Hk.
  - split; [|split; [reflexivity | exact Hne]].
    intros (e & Hin & Hq). apply meets_criteria_qualifies in Hq.
    assert (In e (List.filter ExpertFinder.meets_criteria experts)) as He
      by (apply List.filter_In; now split).
    rewrite Hk in He. contradiction.
  - split; [|split; [|discriminate]].
    + intros _. split; [reflexivity|]. intros e.
      rewrite <- Hk, List.filter_In, meets_criteria_qualifies. reflexivity.
    + intros Hnone. exfalso.
      assert (In k (List.filter ExpertFinder.meets_criteria experts)) as Hin
        by (rewrite Hk; now left).
      apply List.filter_In in Hin as [Hin Hq].
      apply meets_criteria_qualifies in Hq. exact (Hnone k Hin Hq).
Qed.

Lemma C4_minimum_expertise_filter_witness :
  ExpertFinder.filter_experts [Sample.one_small_pr; Sample.two_prs]
  = [Sample.two_prs]
  /\ ExpertFinder.filter_experts [Sample.one_small_pr] = [Sample.one_small_pr].
Proof.
  split.
  - assert (H : [Sample.one_small_pr; Sample.two_prs] <> []) by discriminate.
    destruct (C4_minimum_expertise_filter _ H) as [Hkeep _].
    destruct Hkeep as [-> _]; [|reflexivity].
    exists Sample.two_prs. split; [right; left; reflexivity|].
    left. unfold config.MIN_EXPERT_PRS. simpl. lia.
  - assert (H : [Sample.one_small_pr] <> []) by discriminate.
    destruct (C4_minimum_expertise_filter _ H) as (_ & Hall & _).
    apply Hall. intros e [<-|[]] [Hq|Hq];
      unfold config.MIN_EXPERT_PRS, config.MIN_EXPERT_TOTAL_LINES in Hq;
      simpl in Hq; lia.
Defined.

(** ** C9: what [find_experts] returns when the embedding fails *)

Section EmbeddingFailure.
Import ExpertFinder.
Variable now : Z.
Variable decay : Z -> res Q.
Variable dimension : nat.
Variable db_search :
  list Q -> Z -> option (list string) -> option string -> res (list PR).

Lemma rank_experts_nil (rw : Q) : _rank_experts now decay [] rw = Ok [].
Proof. reflexivity. Qed.

Lemma slice_to_nil {A : Type} (n : Z) : slice_to n (@nil A) = [].
Proof. unfold slice_to. destruct (0 <=? n)%Z; apply List.firstn_nil. Qed.

(** The value returned is a function of the query vector alone. *)
Lemma find_experts_value (encode : string -> res (list Q))
    (cache : gmap string (list Q)) (query : string) (top_n : Z)
    (tech_filter : option (list string)) (repo_filter : option string) (rw : Q) :
  fst (find_experts now decay dimension encode db_search cache query top_n
         tech_filter repo_filter rw)
  = match db_search (fst (generate_embedding dimension encode cache query))
            config.TOP_K_RESULTS tech_filter repo_filter with
    | Raise e => Raise e
    | Ok results =>
        match _rank_experts now decay
                (substantiality_filter
                   (sort_desc (by_keyQ pr_similarity_score) results)) rw with
        | Raise e => Raise e
        | Ok experts => Ok (slice_to top_n experts)
        end
    end.
Proof.
  unfold find_experts.
  destruct (generate_embedding dimension encode cache query) as [v cache'].
  simpl. destruct (db_search v config.TOP_K_RESULTS tech_filter repo_filter);
    [|reflexivity].
  now destruct (_rank_experts now decay _ rw).
Qed.

Lemma generate_embedding_failure (encode : string -> res (list Q))
    (cache : gmap string (list Q)) (query : string) (e : exn) :
  cache !! query = None -> encode query = Raise e ->
  generate_embedding dimension encode cache query = (repeat 0.0%Q dimension, cache).
Proof. intros Hc He. unfold generate_embedding. now rewrite Hc, He. Qed.
End EmbeddingFailure.

(** C9, the claim as stated, fails: with the embedding provider down and
    with the provider up, a query over an index that holds nothing returns
    the same value, the empty list. *)
Lemma C9_counterexample_same_empty_result :
  ~ Spec.failuresDistinguishable.
Proof.
  intros H.
  apply (H 0%Z (fun _ => Ok 1%Q) 2%nat Sample.provider_down Sample.provider_up
           Sample.empty_index Sample.empty_index "graphql"%string 5%Z None None
           0.1%Q).
  - eexists. reflexivity.
  - eexists. reflexivity.
  - reflexivity.
  - reflexivity.
Qed.

(** C9 (amended). A failure of the embedding step is not marked in the
    value returned by [find_experts]: the query degrades to the zero vector
    of the configured dimension, the result is exactly the result of a run
    whose provider answered with that zero vector, and when the search for
    it yields no candidate the result is the empty list, as for a query
    that matches nothing. *)
Theorem C9_embedding_failure_is_silent (now : Z) (decay : Z -> res Q)
    (dimension : nat) (encode : string -> res (list Q))
    (db_search : list Q -> Z -> option (list string) -> option string -> res (list PR))
    (cache : gmap string (list Q)) (query : string) (top_n : Z)
    (tech_filter : option (list string)) (repo_filter : option string)
    (recency_weight : Q) :
  cache !! query = None ->
  (exists e, encode query = Raise e) ->
  ExpertFinder.generate_embedding dimension encode cache query
  = (repeat 0.0%Q dimension, cache)
  /\ fst (ExpertFinder.find_experts now decay dimension encode db_search cache
            query top_n tech_filter repo_filter recency_weight)
     = fst (ExpertFinder.find_experts now decay dimension
              (fun _ => Ok (repeat 0.0%Q dimension)) db_search cache
              query top_n tech_filter repo_filter recency_weight)
  /\ (db_search (repeat 0.0%Q dimension) config.TOP_K_RESULTS tech_filter repo_filter
      = Ok [] ->
      fst (ExpertFinder.find_experts now decay dimension encode db_search cache
             query top_n tech_filter repo_filter recency_weight) = Ok []).
Proof.
  intros Hc [e He].
  pose proof (generate_embedding_failure dimension encode cache query e Hc He) as Hgen.
  split; [exact Hgen|].
  rewrite !find_experts_value, Hgen. simpl.
  split.
  - unfold ExpertFinder.generate_embedding. rewrite Hc. reflexivity.
  - intros ->. simpl. f_equal. apply slice_to_nil.
Qed.

Lemma C9_embedding_failure_is_silent_witness :
  fst (ExpertFinder.find_experts 0%Z (fun _ => Ok 1%Q) 2 Sample.provider_down
         Sample.empty_index ∅ "graphql" 5%Z None None 0.1%Q) = Ok [].
Proof.
  refine (proj2 (proj2 (C9_embedding_failure_is_silent 0%Z (fun _ => Ok 1%Q) 2
            Sample.provider_down Sample.empty_index ∅ "graphql" 5%Z None None 0.1%Q
            _ _)) _).
  - reflexivity.
  - eexists. reflexivity.
  - reflexivity.
Defined.

(** ** The record cache *)

Section CacheReads.
Import PRCacheManager.
Local Open Scope Z_scope.

(** [get_cached_prs] in one step, by the four situations it tells apart. *)
Lemma get_cached_prs_run (repo : string) (self : t) :
  get_cached_prs repo self
  = match index self !! repo with
    | None => (Ok None, self)
    | Some _ =>
        match files self !! _get_repo_cache_path self repo with
        | None => (Ok None, saved (set_index (delete repo) self))
        | Some (Json data) =>
            (Ok (Some (data_prs data)),
             with_output (Loaded repo (len (data_prs data))) self)
        | Some (Corrupt e) => (Ok None, with_output (LoadWarning repo e) self)
        end
    end.
Proof.
  unfold get_cached_prs, bind, gets, ret, modify, try_except, lift, print,
    _save_index.
  destruct (index self !! repo) as [entry|]; [|reflexivity].
  destruct (files self !! _get_repo_cache_path self repo) as [[data|e]|];
    reflexivity.
Qed.

Lemma is_cached_iff (now : Z) (self : t) (repo : string) (max_age_days : Z) :
  is_cached now self repo max_age_days = true
  <-> exists entry, index self !! repo = Some entry
                    /\ age_days now (cached_at entry) < max_age_days.
Proof.
  unfold is_cached. destruct (index self !! repo) as [entry|].
  - rewrite Z.ltb_lt. split; [eauto|]. now intros (? & [= <-] & H).
  - split; [discriminate|]. now intros (? & [=] & _).
Qed.
End CacheReads.

(** ** C8: freshness *)

(** C8. [is_cached] is monotone in the age limit: a repository that is
    fresh for [N] days is fresh for every [M] with [N <= M].  It answers
    true exactly when the index has an entry for the repository whose age
    in whole days is strictly below the limit, which is to say that the
    entry is younger than [N] days; without an entry it answers false. *)
Theorem C8_is_cached_monotone (now : Z) (self : PRCacheManager.t) (repo : string)
    (N M : Z) :
  (0 <= N)%Z -> (N <= M)%Z ->
  (PRCacheManager.is_cached now self repo N = true ->
   PRCacheManager.is_cached now self repo M = true)
  /\ (PRCacheManager.is_cached now self repo N = true
      <-> exists entry,
            PRCacheManager.index self !! repo = Some entry
            /\ (PRCacheManager.age_days now (PRCacheManager.cached_at entry) < N)%Z)
  /\ (forall cached_time,
        (PRCacheManager.age_days now cached_time < N)%Z
        <-> (now - cached_time < N * PRCacheManager.microseconds_per_day)%Z)
  /\ (PRCacheManager.index self !! repo = None ->
      PRCacheManager.is_cached now self repo N = false).
Proof.
  intros _ HNM. split; [|split; [|split]].
  - rewrite !is_cached_iff. intros (entry & Hentry & Hage).
    exists entry. split; [exact Hentry | lia].
  - apply is_cached_iff.
  - intros cached_time. unfold PRCacheManager.age_days.
    assert (0 < PRCacheManager.microseconds_per_day)%Z as Hpos by reflexivity.
    split; intros H.
    + apply Z.nle_gt. intros Hle. apply Z.nle_gt in H. apply H.
      now apply Z.div_le_lower_bound; [|rewrite Z.mul_comm].
    + apply Z.div_lt_upper_bound; [exact Hpos | now rewrite Z.mul_comm].
  - intros Hnone. unfold PRCacheManager.is_cached. now rewrite Hnone.
Qed.

Lemma C8_is_cached_monotone_witness :
  PRCacheManager.is_cached Sample.thirty_days Sample.stale_cache "octo/repo" 45
  = true.
Proof.
  refine (proj1 (C8_is_cached_monotone Sample.thirty_days Sample.stale_cache
                   "octo/repo" 31 45 _ _) _).
  - lia.
  - lia.
  - vm_compute. reflexivity.
Defined.

(** ** C6: reading the cache *)

(** C6, the claim as stated, fails for a corrupt payload: [get_cached_prs]
    answers absent and prints its warning, but the index keeps the entry. *)
Lemma C6_counterexample_corrupt_not_pruned :
  fst (PRCacheManager.get_cached_prs "octo/repo" Sample.corrupt_cache) = Ok None
  /\ PRCacheManager.index
       (snd (PRCacheManager.get_cached_prs "octo/repo" Sample.corrupt_cache))
     !! "octo/repo"%string
     = Some (Sample.entry "data/cache/octo_repo.json" 2)
  /\ PRCacheManager.output
       (snd (PRCacheManager.get_cached_prs "octo/repo" Sample.corrupt_cache))
     = [PRCacheManager.LoadWarning "octo/repo" JSONDecodeError].
Proof. repeat split; vm_compute; reflexivity. Qed.

(** C6 (amended). [get_cached_prs] never raises.  Without an index entry
    it answers absent and changes nothing.  When the payload file named by
    the entry does not exist, the entry is removed from the index, the
    index is saved, and the answer is absent.  When the file exists but is
    corrupt, the answer is absent and a warning is printed, and the index
    entry stays.  Otherwise the answer is the list of records of the
    payload.  The payload files are never changed. *)
Theorem C6_get_cached_prs (repo : string) (self : PRCacheManager.t) :
  exists result self',
    PRCacheManager.get_cached_prs repo self = (Ok result, self')
    /\ PRCacheManager.files self' = PRCacheManager.files self
    /\ match PRCacheManager.index self !! repo with
       | None => result = None /\ self' = self
       | Some _ =>
           match PRCacheManager.files self
                 !! PRCacheManager._get_repo_cache_path self repo with
           | None =>
               result = None
               /\ PRCacheManager.index self' = delete repo (PRCacheManager.index self)
               /\ PRCacheManager.index_file self' = PRCacheManager.index self'
               /\ PRCacheManager.output self' = PRCacheManager.output self
           | Some (PRCacheManager.Corrupt e) =>
               result = None
               /\ PRCacheManager.index self' = PRCacheManager.index self
               /\ PRCacheManager.output self'
                  = PRCacheManager.output self ++ [PRCacheManager.LoadWarning repo e]
           | Some (PRCacheManager.Json data) =>
               result = Some (PRCacheManager.data_prs data)
               /\ PRCacheManager.index self' = PRCacheManager.index self
           end
       end.
Proof.
  rewrite get_cached_prs_run.
  destruct (PRCacheManager.index self !! repo) as [entry|].
  - destruct (PRCacheManager.files self
              !! PRCacheManager._get_repo_cache_path self repo) as [[data|e]|];
      eexists; eexists; (split; [reflexivity|]); simpl; auto.
  - eexists; eexists. split; [reflexivity|]. auto.
Qed.

(** ** Get-or-scrape: one iteration *)

Section CacheSteps.
Import PRCacheManager.
Local Open Scope Z_scope.

Lemma get_cached_prs_result (repo : string) (self : t) :
  get_cached_prs repo self
  = (Ok (Spec.cachedRecords self repo), snd (get_cached_prs repo self)).
Proof.
  rewrite get_cached_prs_run. unfold Spec.cachedRecords.
  destruct (index self !! repo) as [entry|]; [|reflexivity].
  destruct (files self !! _get_repo_cache_path self repo) as [[data|e]|];
    reflexivity.
Qed.

Lemma cachedRecords_with_output (ev : event) (self : t) (repo : string) :
  Spec.cachedRecords (with_output ev self) repo = Spec.cachedRecords self repo.
Proof. reflexivity. Qed.

Lemma cachedRecords_after_read (repo : string) (self : t) :
  Spec.cachedRecords (snd (get_cached_prs repo self)) repo
  = Spec.cachedRecords self repo.
Proof.
  rewrite get_cached_prs_run. unfold Spec.cachedRecords.
  destruct (index self !! repo) as [entry|] eqn:Hi; simpl; [|now rewrite Hi].
  destruct (files self !! _get_repo_cache_path self repo) as [[data|e]|] eqn:Hf;
    simpl.
  - unfold _get_repo_cache_path in *. simpl. now rewrite Hi, Hf.
  - unfold _get_repo_cache_path in *. simpl. now rewrite Hi, Hf.
  - now rewrite lookup_delete_eq.
Qed.

Lemma not_truthy_get (cached_prs : option (list PR)) :
  truthy cached_prs = false -> get cached_prs [] = [].
Proof. destruct cached_prs as [[|p l]|]; simpl; congruence. Qed.

(** *** The relation [agreeExcept] *)

Lemma agreeExcept_refl (repo : string) (c : t) : Spec.agreeExcept repo c c.
Proof. repeat split. Qed.

Lemma agreeExcept_sym (repo : string) (c1 c2 : t) :
  Spec.agreeExcept repo c1 c2 -> Spec.agreeExcept repo c2 c1.
Proof.
  intros (Hd & Hf & Hi). repeat split; try congruence.
  intros other Hne. symmetry. now apply Hi.
Qed.

Lemma agreeExcept_trans (repo : string) (c1 c2 c3 : t) :
  Spec.agreeExcept repo c1 c2 -> Spec.agreeExcept repo c2 c3 ->
  Spec.agreeExcept repo c1 c3.
Proof.
  intros (Hd & Hf & Hi) (Hd' & Hf' & Hi'). repeat split; try congruence.
  intros other Hne. rewrite Hi by exact Hne. now apply Hi'.
Qed.

Lemma agreeExcept_with_output (repo : string) (ev1 ev2 : event) (c1 c2 : t) :
  Spec.agreeExcept repo c1 c2 ->
  Spec.agreeExcept repo (with_output ev1 c1) (with_output ev2 c2).
Proof. intros (Hd & Hf & Hi). repeat split; assumption. Qed.

Lemma agreeExcept_output_l (repo : string) (ev : event) (c : t) :
  Spec.agreeExcept repo (with_output ev c) c.
Proof. repeat split. Qed.

(** Reading the entry of [repo] changes the index at [repo] at most. *)
Lemma agreeExcept_after_own_read (repo : string) (c : t) :
  Spec.agreeExcept repo (snd (get_cached_prs repo c)) c.
Proof.
  rewrite get_cached_prs_run.
  destruct (index c !! repo) as [entry|]; [|apply agreeExcept_refl].
  destruct (files c !! _get_repo_cache_path c repo) as [[data|e]|]; simpl;
    try apply agreeExcept_output_l.
  repeat split. intros other Hne. simpl. now apply lookup_delete_ne.
Qed.

Lemma agreeExcept_path (repo other : string) (c1 c2 : t) :
  Spec.agreeExcept repo c1 c2 ->
  _get_repo_cache_path c1 other = _get_repo_cache_path c2 other.
Proof. intros (Hd & _). unfold _get_repo_cache_path. now rewrite Hd. Qed.

Lemma agreeExcept_cachedRecords (repo other : string) (c1 c2 : t) :
  other <> repo -> Spec.agreeExcept repo c1 c2 ->
  Spec.cachedRecords c1 other = Spec.cachedRecords c2 other.
Proof.
  intros Hne H. unfold Spec.cachedRecords.
  rewrite (agreeExcept_path _ other _ _ H).
  destruct H as (_ & Hf & Hi). now rewrite Hf, (Hi other Hne).
Qed.

Lemma agreeExcept_is_cached (now : Z) (repo other : string) (c1 c2 : t) (d : Z) :
  other <> repo -> Spec.agreeExcept repo c1 c2 ->
  is_cached now c1 other d = is_cached now c2 other d.
Proof. intros Hne (_ & _ & Hi). unfold is_cached. now rewrite (Hi other Hne). Qed.

Lemma agreeExcept_after_read (repo other : string) (c1 c2 : t) :
  other <> repo -> Spec.agreeExcept repo c1 c2 ->
  Spec.agreeExcept repo (snd (get_cached_prs other c1)) (snd (get_cached_prs other c2)).
Proof.
  intros Hne H. rewrite !get_cached_prs_run.
  rewrite (agreeExcept_path _ other _ _ H).
  pose proof H as (Hd & Hf & Hi). rewrite Hf, (Hi other Hne).
  destruct (index c2 !! other) as [entry|]; [|exact H].
  destruct (files c2 !! _get_repo_cache_path c2 other) as [[data|e]|]; simpl;
    try now apply agreeExcept_with_output.
  repeat split; simpl; try assumption.
  intros k Hk. destruct (decide (other = k)) as [<-|Hok].
  - now rewrite !lookup_delete_eq.
  - rewrite !lookup_delete_ne by exact Hok. now apply Hi.
Qed.

Lemma cache_prs_run (now : Z) (repo : string) (prs : list PR)
    (metadata : option (Z * Z)) (c : t) :
  cache_prs now repo prs metadata c
  = (Ok tt, snd (cache_prs now repo prs metadata c)).
Proof. reflexivity. Qed.

Lemma agreeExcept_after_cache_prs (now : Z) (repo other : string) (prs : list PR)
    (metadata : option (Z * Z)) (c1 c2 : t) :
  Spec.agreeExcept repo c1 c2 ->
  Spec.agreeExcept repo (snd (cache_prs now other prs metadata c1))
    (snd (cache_prs now other prs metadata c2)).
Proof.
  intros H. pose proof (agreeExcept_path _ other _ _ H) as Hp.
  destruct H as (Hd & Hf & Hi).
  unfold cache_prs, bind, gets, modify, print, _save_index. simpl.
  repeat split; simpl; try assumption.
  - now rewrite Hp, Hf.
  - intros k Hk. rewrite Hp. destruct (decide (other = k)) as [<-|Hok].
    + now rewrite !lookup_insert_eq.
    + rewrite !lookup_insert_ne by exact Hok. now apply Hi.
Qed.
End CacheSteps.

Section GetOrScrapeFacts.
Import PRCacheManager.
Local Open Scope Z_scope.
Variable scraper_func : string -> res (list PR).
Variable force_refresh : bool.
Variable max_cache_age_days : Z.
Variable now : Z.

Abbreviation scrape := (scrape scraper_func now).
Abbreviation loop_body :=
  (loop_body scraper_func force_refresh max_cache_age_days now).
Abbreviation for_repos :=
  (for_repos scraper_func force_refresh max_cache_age_days now).

(** The scraping part of the loop body, by the result of the scraper. *)
Lemma scrape_run (repo : string) (all_prs : list PR) (c : t) :
  scrape repo all_prs c
  = match scraper_func repo with
    | Ok prs =>
        (Ok (all_prs ++ prs),
         snd (cache_prs now repo prs (Some (now, len prs))
                (with_output (Scraping repo) c)))
    | Raise e =>
        let c2 := with_output (ScrapeError repo e) (with_output (Scraping repo) c) in
        if truthy (Spec.cachedRecords c repo)
        then (Ok (all_prs ++ get (Spec.cachedRecords c repo) []),
              with_output (UsingStale repo) (snd (get_cached_prs repo c2)))
        else (Ok all_prs, snd (get_cached_prs repo c2))
    end.
Proof.
  unfold PRCacheManager.scrape, bind, try_except, lift, print, modify.
  destruct (scraper_func repo) as [prs|e]; simpl.
  - reflexivity.
  - rewrite get_cached_prs_result. simpl.
    rewrite !cachedRecords_with_output.
    destruct (truthy (Spec.cachedRecords c repo)); reflexivity.
Qed.

Lemma loop_body_run (repo : string) (all_prs : list PR) (c : t) :
  loop_body repo all_prs c
  = if negb force_refresh && is_cached now c repo max_cache_age_days
    then if truthy (Spec.cachedRecords c repo)
         then (Ok (all_prs ++ get (Spec.cachedRecords c repo) []),
               snd (get_cached_prs repo c))
         else scrape repo all_prs (snd (get_cached_prs repo c))
    else scrape repo all_prs c.
Proof.
  unfold PRCacheManager.loop_body, bind, gets at 1. simpl.
  destruct (negb force_refresh && is_cached now c repo max_cache_age_days);
    [|reflexivity].
  rewrite get_cached_prs_result.
  destruct (truthy (Spec.cachedRecords c repo)); reflexivity.
Qed.

(** One iteration never raises, and it only appends to [all_prs]. *)
Lemma scrape_appends (repo : string) (c : t) :
  exists prs c', forall all_prs, scrape repo all_prs c = (Ok (all_prs ++ prs), c').
Proof.
  destruct (scraper_func repo) as [prs|e] eqn:Hs.
  - eexists; eexists. intros all_prs. rewrite scrape_run, Hs. reflexivity.
  - destruct (truthy (Spec.cachedRecords c repo)) eqn:Ht.
    + eexists; eexists. intros all_prs. rewrite scrape_run, Hs. simpl.
      rewrite Ht. reflexivity.
    + exists [], (snd (get_cached_prs repo
                        (with_output (ScrapeError repo e) (with_output (Scraping repo) c)))).
      intros all_prs. rewrite scrape_run, Hs. simpl. rewrite Ht.
      now rewrite List.app_nil_r.
Qed.

Lemma loop_body_appends (repo : string) (c : t) :
  exists prs c', forall all_prs, loop_body repo all_prs c = (Ok (all_prs ++ prs), c').
Proof.
  destruct (negb force_refresh && is_cached now c repo max_cache_age_days) eqn:Hfresh.
  - destruct (truthy (Spec.cachedRecords c repo)) eqn:Ht.
    + eexists; eexists. intros all_prs. rewrite loop_body_run, Hfresh, Ht. reflexivity.
    + destruct (scrape_appends repo (snd (get_cached_prs repo c))) as (prs & c' & H).
      exists prs, c'. intros all_prs. rewrite loop_body_run, Hfresh, Ht. apply H.
  - destruct (scrape_appends repo c) as (prs & c' & H).
    exists prs, c'. intros all_prs. rewrite loop_body_run, Hfresh. apply H.
Qed.

Lemma for_repos_appends (repos : list string) (c : t) :
  exists prs c', forall all_prs, for_repos repos all_prs c = (Ok (all_prs ++ prs), c').
Proof.
  revert c. induction repos as [|repo repos IH]; intros c.
  - exists [], c. intros all_prs. simpl. unfold ret. now rewrite List.app_nil_r.
  - destruct (loop_body_appends repo c) as (prs1 & c1 & H1).
    destruct (IH c1) as (prs2 & c2 & H2).
    exists (prs1 ++ prs2), c2. intros all_prs. simpl. unfold bind.
    rewrite H1, H2. now rewrite List.app_assoc.
Qed.

Lemma for_repos_app (l1 l2 : list string) (all_prs : list PR) (c : t) :
  for_repos (l1 ++ l2) all_prs c
  = bind (for_repos l1 all_prs) (for_repos l2) c.
Proof.
  revert all_prs c. induction l1 as [|repo l1 IH]; intros all_prs c; simpl.
  - reflexivity.
  - unfold bind.
    destruct (loop_body repo all_prs c) as [[prs|e] c1]; [|reflexivity].
    rewrite IH. reflexivity.
Qed.

(** *** A repository whose scrape fails *)

Lemma scrape_failure (repo : string) (e : exn) (all_prs : list PR) (c : t) :
  scraper_func repo = Raise e ->
  fst (scrape repo all_prs c) = Ok (all_prs ++ get (Spec.cachedRecords c repo) [])
  /\ Spec.agreeExcept repo (snd (scrape repo all_prs c)) c.
Proof.
  intros Hs. rewrite scrape_run, Hs. cbv zeta.
  assert (Hagree : Spec.agreeExcept repo
            (snd (get_cached_prs repo
                    (with_output (ScrapeError repo e) (with_output (Scraping repo) c))))
            c).
  { eapply agreeExcept_trans; [apply agreeExcept_after_own_read|].
    eapply agreeExcept_trans; apply agreeExcept_output_l. }
  destruct (truthy (Spec.cachedRecords c repo)) eqn:Ht; simpl; split.
  - reflexivity.
  - eapply agreeExcept_trans; [apply agreeExcept_output_l | exact Hagree].
  - now rewrite (not_truthy_get _ Ht), List.app_nil_r.
  - exact Hagree.
Qed.

(** When the scraper raises for [repo], the iteration contributes exactly
    the records that the cache can serve for [repo], fresh or stale, and
    leaves every other index entry and every payload file as they were. *)
Lemma loop_body_failure (repo : string) (e : exn) (all_prs : list PR) (c : t) :
  scraper_func repo = Raise e ->
  fst (loop_body repo all_prs c) = Ok (all_prs ++ get (Spec.cachedRecords c repo) [])
  /\ Spec.agreeExcept repo (snd (loop_body repo all_prs c)) c.
Proof.
  intros Hs. rewrite loop_body_run.
  destruct (negb force_refresh && is_cached now c repo max_cache_age_days);
    [|now apply scrape_failure with e].
  destruct (truthy (Spec.cachedRecords c repo)) eqn:Ht; simpl.
  - split; [reflexivity | apply agreeExcept_after_own_read].
  - destruct (scrape_failure repo e all_prs (snd (get_cached_prs repo c)) Hs)
      as [Hr Ha].
    rewrite cachedRecords_after_read in Hr. split; [exact Hr|].
    eapply agreeExcept_trans; [exact Ha | apply agreeExcept_after_own_read].
Qed.

(** *** Repositories other than the failing one *)

Lemma scrape_respects (repo other : string) (all_prs : list PR) (c1 c2 : t) :
  other <> repo -> Spec.agreeExcept repo c1 c2 ->
  fst (scrape other all_prs c1) = fst (scrape other all_prs c2)
  /\ Spec.agreeExcept repo (snd (scrape other all_prs c1)) (snd (scrape other all_prs c2)).
Proof.
  intros Hne H. rewrite !scrape_run.
  rewrite (agreeExcept_cachedRecords repo other c1 c2 Hne H).
  destruct (scraper_func other) as [prs|e]; simpl.
  - split; [reflexivity|].
    now apply agreeExcept_after_cache_prs, agreeExcept_with_output.
  - assert (Hread : Spec.agreeExcept repo
      (snd (get_cached_prs other
              (with_output (ScrapeError other e) (with_output (Scraping other) c1))))
      (snd (get_cached_prs other
              (with_output (ScrapeError other e) (with_output (Scraping other) c2))))).
    { apply agreeExcept_after_read; [exact Hne|].
      now do 2 apply agreeExcept_with_output. }
    destruct (truthy (Spec.cachedRecords c2 other)); simpl;
      (split; [reflexivity|]); [now apply agreeExcept_with_output | exact Hread].
Qed.

Lemma loop_body_respects (repo other : string) (all_prs : list PR) (c1 c2 : t) :
  other <> repo -> Spec.agreeExcept repo c1 c2 ->
  fst (loop_body other all_prs c1) = fst (loop_body other all_prs c2)
  /\ Spec.agreeExcept repo (snd (loop_body other all_prs c1))
       (snd (loop_body other all_prs c2)).
Proof.
  intros Hne H. rewrite !loop_body_run.
  rewrite (agreeExcept_is_cached now repo other c1 c2 _ Hne H).
  rewrite (agreeExcept_cachedRecords repo other c1 c2 Hne H).
  destruct (negb force_refresh && is_cached now c2 other max_cache_age_days);
    [|now apply scrape_respects].
  destruct (truthy (Spec.cachedRecords c2 other)); simpl.
  - split; [reflexivity | now apply agreeExcept_after_read].
  - apply scrape_respects; [exact Hne | now apply agreeExcept_after_read].
Qed.

Lemma for_repos_respects (repo : string) (repos : list string) (all_prs : list PR)
    (c1 c2 : t) :
  ~ In repo repos -> Spec.agreeExcept repo c1 c2 ->
  fst (for_repos repos all_prs c1) = fst (for_repos repos all_prs c2)
  /\ Spec.agreeExcept repo (snd (for_repos repos all_prs c1))
       (snd (for_repos repos all_prs c2)).
Proof.
  revert all_prs c1 c2. induction repos as [|other repos IH];
    intros all_prs c1 c2 Hnotin H; simpl.
  - now split.
  - assert (other <> repo) as Hne by (intros ->; apply Hnotin; now left).
    assert (~ In repo repos) as Hnotin' by (intros Hin; apply Hnotin; now right).
    destruct (loop_body_respects repo other all_prs c1 c2 Hne H) as [Hr Ha].
    unfold bind.
    destruct (loop_body other all_prs c1) as [r1 c1'],
             (loop_body other all_prs c2) as [r2 c2']. simpl in Hr, Ha. subst r2.
    destruct r1 as [prs|e]; [now apply IH | now split].
Qed.
(** *** The contribution of every repository *)

Lemma for_repos_contributions (repos : list string) (all_prs : list PR) (c : t) :
  fst (for_repos repos all_prs c)
  = Ok (all_prs
        ++ concat (map snd (Spec.contributions scraper_func force_refresh
                              max_cache_age_days now repos c))).
Proof.
  revert all_prs c. induction repos as [|repo repos IH]; intros all_prs c; simpl.
  - unfold ret. simpl. now rewrite List.app_nil_r.
  - destruct (loop_body_appends repo c) as (prs & c' & H).
    unfold bind. rewrite (H all_prs), (H []). simpl.
    rewrite IH. now rewrite List.app_assoc.
Qed.

(** Taking the failing repository out of the list leaves the contribution
    of every other repository as it is. *)
Lemma contributions_without (repo : string) (e : exn) (repos : list string)
    (c1 c2 : t) :
  scraper_func repo = Raise e ->
  Spec.agreeExcept repo c1 c2 ->
  Spec.others repo (Spec.contributions scraper_func force_refresh
                      max_cache_age_days now repos c1)
  = Spec.contributions scraper_func force_refresh max_cache_age_days now
      (Spec.without repo repos) c2.
Proof.
  intros He. revert c1 c2. induction repos as [|other repos IH]; intros c1 c2 H;
    simpl; [reflexivity|].
  destruct (String.eqb_spec other repo) as [->|Hne]; simpl.
  - destruct (loop_body_failure repo e [] c1 He) as [_ Hagree].
    destruct (loop_body repo [] c1) as [r c1']. simpl in *.
    rewrite String.eqb_refl. simpl. apply IH.
    now apply agreeExcept_trans with c1.
  - destruct (loop_body_respects repo other [] c1 c2 Hne H) as [Hr Hagree].
    destruct (loop_body other [] c1) as [r1 c1'],
             (loop_body other [] c2) as [r2 c2']. simpl in *. subst r2.
    assert (String.eqb other repo = false) as -> by now apply String.eqb_neq.
    simpl. f_equal. now apply IH.
Qed.

End GetOrScrapeFacts.

(** *** Repositories that do not share the entry or the payload file *)

Section SameEntry.
Import PRCacheManager.
Local Open Scope Z_scope.

Lemma sameEntry_refl (repo : string) (c : t) : Spec.sameEntry repo c c.
Proof. repeat split. Qed.

Lemma sameEntry_trans (repo : string) (c1 c2 c3 : t) :
  Spec.sameEntry repo c1 c2 -> Spec.sameEntry repo c2 c3 -> Spec.sameEntry repo c1 c3.
Proof. intros (? & ? & ?) (? & ? & ?). repeat split; congruence. Qed.

Lemma sameEntry_cachedRecords (repo : string) (c1 c2 : t) :
  Spec.sameEntry repo c1 c2 ->
  Spec.cachedRecords c1 repo = Spec.cachedRecords c2 repo.
Proof. intros (_ & Hi & Hf). unfold Spec.cachedRecords. now rewrite Hi, Hf. Qed.

Lemma sameEntry_with_output (repo : string) (ev : event) (c : t) :
  Spec.sameEntry repo (with_output ev c) c.
Proof. repeat split. Qed.

Lemma sameEntry_after_read (repo other : string) (c : t) :
  other <> repo -> Spec.sameEntry repo (snd (get_cached_prs other c)) c.
Proof.
  intros Hne. rewrite get_cached_prs_run.
  destruct (index c !! other) as [entry|]; [|apply sameEntry_refl].
  destruct (files c !! _get_repo_cache_path c other) as [[data|e]|]; simpl;
    try apply sameEntry_with_output.
  repeat split. simpl. now apply lookup_delete_ne.
Qed.

Lemma sameEntry_after_cache_prs (now : Z) (repo other : string) (prs : list PR)
    (metadata : option (Z * Z)) (c : t) :
  other <> repo ->
  _get_repo_cache_path c other <> _get_repo_cache_path c repo ->
  Spec.sameEntry repo (snd (cache_prs now other prs metadata c)) c.
Proof.
  intros Hne Hpath.
  unfold cache_prs, bind, gets, modify, print, _save_index. simpl.
  repeat split; simpl.
  - now apply lookup_insert_ne.
  - unfold _get_repo_cache_path in *. simpl. now apply lookup_insert_ne.
Qed.

Lemma sameEntry_path (repo other : string) (c1 c2 : t) :
  Spec.sameEntry repo c1 c2 ->
  _get_repo_cache_path c1 other = _get_repo_cache_path c2 other.
Proof. intros (Hd & _). unfold _get_repo_cache_path. now rewrite Hd. Qed.

Variable scraper_func : string -> res (list PR).
Variable force_refresh : bool.
Variable max_cache_age_days : Z.
Variable now : Z.

Lemma scrape_sameEntry (repo other : string) (all_prs : list PR) (c : t) :
  other <> repo ->
  _get_repo_cache_path c other <> _get_repo_cache_path c repo ->
  Spec.sameEntry repo (snd (scrape scraper_func now other all_prs c)) c.
Proof.
  intros Hne Hpath. rewrite scrape_run.
  destruct (scraper_func other) as [prs|e]; simpl.
  - eapply sameEntry_trans; [|apply (sameEntry_with_output repo (Scraping other))].
    now apply sameEntry_after_cache_prs.
  - assert (Hread : Spec.sameEntry repo
      (snd (get_cached_prs other
              (with_output (ScrapeError other e) (with_output (Scraping other) c)))) c).
    { eapply sameEntry_trans; [now apply sameEntry_after_read|].
      eapply sameEntry_trans; apply sameEntry_with_output. }
    destruct (truthy (Spec.cachedRecords c other)); simpl; [|exact Hread].
    eapply sameEntry_trans; [apply sameEntry_with_output | exact Hread].
Qed.

Lemma loop_body_sameEntry (repo other : string) (all_prs : list PR) (c : t) :
  other <> repo ->
  _get_repo_cache_path c other <> _get_repo_cache_path c repo ->
  Spec.sameEntry repo
    (snd (loop_body scraper_func force_refresh max_cache_age_days now other all_prs c))
    c.
Proof.
  intros Hne Hpath. rewrite loop_body_run.
  pose proof (sameEntry_after_read repo other c Hne) as Hread.
  destruct (negb force_refresh && is_cached now c other max_cache_age_days);
    [|now apply scrape_sameEntry].
  destruct (truthy (Spec.cachedRecords c other)); simpl; [exact Hread|].
  eapply sameEntry_trans; [|exact Hread].
  apply scrape_sameEntry; [exact Hne|].
  now rewrite !(sameEntry_path repo _ _ _ Hread).
Qed.

Lemma for_repos_sameEntry (repo : string) (repos : list string) (all_prs : list PR)
    (c : t) :
  (forall other, In other repos ->
     other <> repo
     /\ _get_repo_cache_path c other <> _get_repo_cache_path c repo) ->
  Spec.sameEntry repo
    (snd (for_repos scraper_func force_refresh max_cache_age_days now repos all_prs c))
    c.
Proof.
  revert all_prs c. induction repos as [|other repos IH]; intros all_prs c Hall; simpl.
  - apply sameEntry_refl.
  - destruct (Hall other (or_introl eq_refl)) as [Hne Hpath].
    pose proof (loop_body_sameEntry repo other all_prs c Hne Hpath) as Hstep.
    unfold bind.
    destruct (loop_body scraper_func force_refresh max_cache_age_days now other
                all_prs c) as [[prs|e] c1]; simpl in *; [|exact Hstep].
    eapply sameEntry_trans; [|exact Hstep].
    apply IH. intros y Hy. destruct (Hall y (or_intror Hy)) as [Hy1 Hy2].
    split; [exact Hy1|]. now rewrite !(sameEntry_path repo _ _ _ Hstep).
Qed.
End SameEntry.

(** ** C5: a failing repository does not abort the batch *)

(** C5. Let the scraper raise for the repository [X] of the list
    [pre ++ X :: post].  Then [get_or_scrape_repos] returns without
    raising, and its result is the records obtained for [pre], followed by
    the records that the cache serves for [X] when its turn comes (fresh or
    stale; none when the cache cannot serve [X]), followed by the records
    obtained for [post].  The cache serves for [X] what it served at the
    start when no repository of [pre] is [X] or shares its payload file.
    The result is the concatenation of what the repositories contribute
    one by one, and every repository other than [X] contributes what it
    contributes when [X] is taken out of the list; in particular, when [X]
    does not occur again, the records obtained for [post] are those
    obtained without [X]. *)
Theorem C5_fetch_failure_falls_back
    (scraper_func : string -> res (list PR)) (force_refresh : bool)
    (max_cache_age_days now : Z) (pre post : list string) (X : string)
    (self : PRCacheManager.t) :
  (exists e, scraper_func X = Raise e) ->
  exists before self1 after self3,
    PRCacheManager.get_or_scrape_repos scraper_func force_refresh
      max_cache_age_days now pre self = (Ok before, self1)
    /\ PRCacheManager.get_or_scrape_repos scraper_func force_refresh
         max_cache_age_days now (pre ++ X :: post) self
       = (Ok (before ++ get (Spec.cachedRecords self1 X) [] ++ after), self3)
    /\ ((forall other, In other pre ->
           other <> X
           /\ PRCacheManager._get_repo_cache_path self other
              <> PRCacheManager._get_repo_cache_path self X) ->
        Spec.cachedRecords self1 X = Spec.cachedRecords self X)
    /\ before ++ get (Spec.cachedRecords self1 X) [] ++ after
       = concat (map snd (Spec.contributions scraper_func force_refresh
                            max_cache_age_days now (pre ++ X :: post) self))
    /\ Spec.others X (Spec.contributions scraper_func force_refresh
                        max_cache_age_days now (pre ++ X :: post) self)
       = Spec.contributions scraper_func force_refresh max_cache_age_days now
           (Spec.without X (pre ++ X :: post)) self
    /\ (~ In X post ->
        fst (PRCacheManager.get_or_scrape_repos scraper_func force_refresh
               max_cache_age_days now post self1) = Ok after
        /\ fst (PRCacheManager.get_or_scrape_repos scraper_func force_refresh
                  max_cache_age_days now (pre ++ post) self)
           = Ok (before ++ after)).
Proof.
  intros [e He]. unfold PRCacheManager.get_or_scrape_repos.
  destruct (for_repos_appends scraper_func force_refresh max_cache_age_days now
              pre self) as (before & self1 & Hpre).
  destruct (loop_body_appends scraper_func force_refresh max_cache_age_days now
              X self1) as (rX & self2 & HX).
  destruct (for_repos_appends scraper_func force_refresh max_cache_age_days now
              post self2) as (after & self3 & Hpost).
  destruct (loop_body_failure scraper_func force_refresh max_cache_age_days now
              X e [] self1 He) as [Hfst Hagree].
  rewrite HX in Hfst, Hagree. simpl in Hfst, Hagree.
  injection Hfst as HrX. subst rX.
  exists before, self1, after, self3.
  assert (Hall : PRCacheManager.for_repos scraper_func force_refresh
                   max_cache_age_days now (pre ++ X :: post) [] self
                 = (Ok (before ++ get (Spec.cachedRecords self1 X) [] ++ after),
                    self3)).
  { rewrite for_repos_app. unfold bind. rewrite (Hpre []). simpl.
    unfold bind. rewrite HX, Hpost. now rewrite <- List.app_assoc. }
  split; [exact (Hpre [])|].
  split; [exact Hall|].
  split.
  { intros Hpaths. apply sameEntry_cachedRecords.
    pose proof (for_repos_sameEntry scraper_func force_refresh max_cache_age_days
                  now X pre [] self Hpaths) as Hsame.
    now rewrite (Hpre []) in Hsame. }
  split.
  { pose proof (for_repos_contributions scraper_func force_refresh
                  max_cache_age_days now (pre ++ X :: post) [] self) as Hc.
    rewrite Hall in Hc. simpl in Hc. now injection Hc. }
  split.
  { apply contributions_without with e; [exact He | apply agreeExcept_refl]. }
  intros Hnotin.
  destruct (for_repos_respects scraper_func force_refresh max_cache_age_days now
              X post [] self2 self1 Hnotin Hagree) as [Hsame _].
  rewrite (Hpost []) in Hsame. simpl in Hsame.
  split; [now rewrite <- Hsame|].
  rewrite for_repos_app. unfold bind. rewrite (Hpre []). simpl.
  destruct (for_repos_appends scraper_func force_refresh max_cache_age_days now
              post self1) as (after' & self3' & Hpost').
  rewrite (Hpost' []) in Hsame. simpl in Hsame. injection Hsame as <-.
  now rewrite Hpost'.
Qed.

Lemma C5_fetch_failure_falls_back_witness :
  exists before self1 after self3,
    PRCacheManager.get_or_scrape_repos Sample.flaky_scraper false 7
      Sample.thirty_days ["left/pad"%string] Sample.stale_cache
    = (Ok before, self1)
    /\ PRCacheManager.get_or_scrape_repos Sample.flaky_scraper false 7
         Sample.thirty_days
         (["left/pad"%string] ++ "octo/repo"%string :: ["right/pad"%string])
         Sample.stale_cache
       = (Ok (before ++ get (Spec.cachedRecords self1 "octo/repo") [] ++ after),
          self3).
Proof.
  destruct (C5_fetch_failure_falls_back Sample.flaky_scraper false 7
              Sample.thirty_days ["left/pad"%string] ["right/pad"%string]
              "octo/repo" Sample.stale_cache)
    as (before & self1 & after & self3 & Hpre & Hall & _).
  - exists (ProviderError "rate limit"). reflexivity.
  - exists before, self1, after, self3. split; [exact Hpre | exact Hall].
Defined.

(** The stale records of ["octo/repo"] reach the result between the
    records scraped for its neighbours. *)
Example get_or_scrape_repos_stale_fallback :
  fst (PRCacheManager.get_or_scrape_repos Sample.flaky_scraper false 7
         Sample.thirty_days ["left/pad"; "octo/repo"; "right/pad"]%string
         Sample.stale_cache)
  = Ok [Sample.anonymous; Sample.small; Sample.large; Sample.anonymous].
Proof. vm_compute. reflexivity. Qed.

(** * Further properties of the record cache *)

Section CacheWrites.
Import PRCacheManager.
Local Open Scope Z_scope.

Lemma cache_prs_state (now : Z) (repo : string) (prs : list PR)
    (metadata : option (Z * Z)) (c : t) :
  snd (cache_prs now repo prs metadata c)
  = mkCache (cache_dir c)
      (<[repo := mkEntry now (len prs) (_get_repo_cache_path c repo)]> (index c))
      (<[repo := mkEntry now (len prs) (_get_repo_cache_path c repo)]> (index c))
      (<[_get_repo_cache_path c repo
         := Json (mkData repo now (len prs) metadata prs)]> (files c))
      (output c ++ [Cached repo (len prs)]).
Proof. reflexivity. Qed.

Lemma invalidate_cache_run (repo : string) (c : t) :
  invalidate_cache repo c
  = match index c !! repo with
    | None => (Ok tt, c)
    | Some _ =>
        (Ok tt,
         mkCache (cache_dir c) (delete repo (index c)) (delete repo (index c))
           (delete (_get_repo_cache_path c repo) (files c))
           (output c ++ [Invalidated repo]))
    end.
Proof.
  unfold invalidate_cache, bind, gets, modify, print, _save_index, ret.
  now destruct (index c !! repo).
Qed.


Lemma get_after_cache_prs (now : Z) (repo : string) (prs : list PR)
    (metadata : option (Z * Z)) (c : t) :
  fst (get_cached_prs repo (snd (cache_prs now repo prs metadata c)))
  = Ok (Some prs).
Proof.
  rewrite cache_prs_state, get_cached_prs_run. simpl. rewrite lookup_insert_eq.
  unfold _get_repo_cache_path. simpl. now rewrite lookup_insert_eq.
Qed.
End CacheWrites.


(** X2. [invalidate_cache] removes the entry and its payload file: after
    it the cache serves nothing for [repo] and reports it as not cached for
    every age limit, a read leaves the state as it is, and a second
    invalidation changes nothing; when [repo] had no entry the first
    invalidation changes nothing either. *)
Theorem X2_invalidate_cache (repo : string) (c : PRCacheManager.t) :
  let c' := snd (PRCacheManager.invalidate_cache repo c) in
  fst (PRCacheManager.invalidate_cache repo c) = Ok tt
  /\ PRCacheManager.index c' !! repo = None
  /\ PRCacheManager.get_cached_prs repo c' = (Ok None, c')
  /\ (forall now max_age_days,
        PRCacheManager.is_cached now c' repo max_age_days = false)
  /\ PRCacheManager.invalidate_cache repo c' = (Ok tt, c')
  /\ match PRCacheManager.index c !! repo with
     | None => c' = c
     | Some _ =>
         PRCacheManager.files c'
         = delete (PRCacheManager._get_repo_cache_path c repo) (PRCacheManager.files c)
         /\ PRCacheManager.index c' = delete repo (PRCacheManager.index c)
         /\ PRCacheManager.index_file c' = PRCacheManager.index c'
     end.
Proof.
  intros c'. subst c'.
  assert (Hgone : PRCacheManager.index
                    (snd (PRCacheManager.invalidate_cache repo c)) !! repo = None).
  { rewrite invalidate_cache_run.
    destruct (PRCacheManager.index c !! repo) eqn:Hi; simpl;
      [apply lookup_delete_eq | exact Hi]. }
  split; [|split; [exact Hgone|split; [|split; [|split]]]].
  - rewrite invalidate_cache_run. now destruct (PRCacheManager.index c !! repo).
  - rewrite get_cached_prs_run. now rewrite Hgone.
  - intros now d. unfold PRCacheManager.is_cached. now rewrite Hgone.
  - rewrite (invalidate_cache_run repo (snd _)). now rewrite Hgone.
  - rewrite invalidate_cache_run.
    destruct (PRCacheManager.index c !! repo); simpl; auto.
Qed.

Section CacheFrame.
Import PRCacheManager.
Local Open Scope Z_scope.



Lemma string_length_app (a b : string) :
  String.length (a ++ b)%string = (String.length a + String.length b)%nat.
Proof. induction a as [|ch a IH]; simpl; [reflexivity | now rewrite IH]. Qed.

Lemma string_app_inj_r (a b s : string) :
  (a ++ s)%string = (b ++ s)%string -> a = b.
Proof.
  revert b. induction a as [|ch a IH]; intros [|ch' b] H.
  - reflexivity.
  - apply (f_equal String.length) in H.
    rewrite !string_length_app in H. simpl in H. lia.
  - apply (f_equal String.length) in H.
    rewrite !string_length_app in H. simpl in H. lia.
  - change (String ch (a ++ s) = String ch' (b ++ s))%string in H.
    injection H as -> H. f_equal. now apply IH.
Qed.

(** Two repositories share a payload file exactly when their names agree
    after every slash is replaced by an underscore. *)
Lemma cache_path_eq_iff (c : t) (r1 r2 : string) :
  _get_repo_cache_path c r1 = _get_repo_cache_path c r2
  <-> replace_slash r1 = replace_slash r2.
Proof.
  unfold _get_repo_cache_path. split; [|now intros ->].
  intros H. apply String.app_inj in H. apply (String.app_inj "/") in H.
  now apply string_app_inj_r in H.
Qed.
End CacheFrame.



(** X4. Two repository names that agree after the replacement of slashes
    share one payload file.  After [cache_prs] for the first and then for
    the second, a read of the first returns the records of the second; and
    once the second is invalidated, the first has no payload left: its read
    returns absent and removes its index entry. *)
Theorem X4_payload_file_collision (now1 now2 : Z) (r1 r2 : string)
    (prs1 prs2 : list PR) (m1 m2 : option (Z * Z)) (c : PRCacheManager.t) :
  r1 <> r2 ->
  PRCacheManager.replace_slash r1 = PRCacheManager.replace_slash r2 ->
  let c2 := snd (PRCacheManager.cache_prs now2 r2 prs2 m2
                   (snd (PRCacheManager.cache_prs now1 r1 prs1 m1 c))) in
  let c3 := snd (PRCacheManager.invalidate_cache r2 c2) in
  fst (PRCacheManager.get_cached_prs r1 c2) = Ok (Some prs2)
  /\ fst (PRCacheManager.get_cached_prs r2 c2) = Ok (Some prs2)
  /\ is_Some (PRCacheManager.index c3 !! r1)
  /\ fst (PRCacheManager.get_cached_prs r1 c3) = Ok None
  /\ PRCacheManager.index (snd (PRCacheManager.get_cached_prs r1 c3)) !! r1 = None.
Proof.
  intros Hne Hsafe c2 c3.
  assert (Hpath : forall c0, PRCacheManager._get_repo_cache_path c0 r1
                             = PRCacheManager._get_repo_cache_path c0 r2)
    by (intros c0; now apply cache_path_eq_iff).
  assert (Hr2 : fst (PRCacheManager.get_cached_prs r2 c2) = Ok (Some prs2))
    by apply get_after_cache_prs.
  subst c3 c2. rewrite !cache_prs_state in *. simpl.
  split; [|split; [exact Hr2|]].
  - rewrite get_cached_prs_run. simpl.
    rewrite lookup_insert_ne by congruence. rewrite lookup_insert_eq.
    unfold PRCacheManager._get_repo_cache_path. simpl.
    rewrite Hsafe, lookup_insert_eq. reflexivity.
  - rewrite invalidate_cache_run. simpl. rewrite lookup_insert_eq. simpl.
    split.
    { rewrite lookup_delete_ne, lookup_insert_ne, lookup_insert_eq by congruence.
      eauto. }
    rewrite get_cached_prs_run. simpl.
    rewrite lookup_delete_ne, lookup_insert_ne, lookup_insert_eq by congruence.
    unfold PRCacheManager._get_repo_cache_path. simpl.
    rewrite Hsafe, lookup_delete_eq. simpl.
    split; [reflexivity | apply lookup_delete_eq].
Qed.

Lemma X4_payload_file_collision_witness :
  fst (PRCacheManager.get_cached_prs Cases.repo_slash
         (snd (PRCacheManager.cache_prs 1 Cases.repo_underscore [Sample.large] None
                 (snd (PRCacheManager.cache_prs 0 Cases.repo_slash [Sample.small]
                         None Cases.empty_cache)))))
  = Ok (Some [Sample.large]).
Proof.
  refine (proj1 (X4_payload_file_collision 0 1 Cases.repo_slash
                   Cases.repo_underscore [Sample.small] [Sample.large] None None
                   Cases.empty_cache _ _)).
  - discriminate.
  - reflexivity.
Defined.

(** ** Invariants of the cache *)

Section CacheInvariant.
Import PRCacheManager.
Local Open Scope Z_scope.

Lemma consistent_with_output (ev : event) (c : t) :
  Props.consistent c -> Props.consistent (with_output ev c).
Proof. intros H. exact H. Qed.

Lemma consistent_after_read (repo : string) (c : t) :
  Props.consistent c -> Props.consistent (snd (get_cached_prs repo c)).
Proof.
  intros [Hsaved Hbacked]. rewrite get_cached_prs_run.
  destruct (index c !! repo) as [entry|]; [|now split].
  destruct (files c !! _get_repo_cache_path c repo) as [[data|e]|]; simpl;
    try now split.
  split; [reflexivity|]. simpl. intros r e Hr.
  apply lookup_delete_Some in Hr as [_ Hr]. exact (Hbacked r e Hr).
Qed.

Lemma consistent_after_cache_prs (now : Z) (repo : string) (prs : list PR)
    (metadata : option (Z * Z)) (c : t) :
  Props.consistent c -> Props.consistent (snd (cache_prs now repo prs metadata c)).
Proof.
  intros [Hsaved Hbacked]. rewrite cache_prs_state.
  split; [reflexivity|]. simpl. intros r e Hr.
  unfold _get_repo_cache_path in *. simpl.
  destruct (decide (cache_dir c +:+ "/" +:+ replace_slash repo +:+ ".json"
                    = cache_dir c +:+ "/" +:+ replace_slash r +:+ ".json"))
    as [Heq|Hneq].
  - rewrite Heq, lookup_insert_eq. eauto.
  - rewrite lookup_insert_ne by exact Hneq.
    apply lookup_insert_Some in Hr as [[<- _]|[_ Hr]]; [congruence|].
    exact (Hbacked r e Hr).
Qed.

Variable scraper_func : string -> res (list PR).
Variable force_refresh : bool.
Variable max_cache_age_days : Z.
Variable now : Z.

Lemma consistent_after_scrape (repo : string) (all_prs : list PR) (c : t) :
  Props.consistent c ->
  Props.consistent (snd (scrape scraper_func now repo all_prs c)).
Proof.
  intros H. rewrite scrape_run.
  destruct (scraper_func repo) as [prs|e]; simpl.
  - now apply consistent_after_cache_prs.
  - destruct (truthy (Spec.cachedRecords c repo)); simpl;
      now apply consistent_after_read.
Qed.

Lemma consistent_after_loop_body (repo : string) (all_prs : list PR) (c : t) :
  Props.consistent c ->
  Props.consistent
    (snd (loop_body scraper_func force_refresh max_cache_age_days now repo all_prs c)).
Proof.
  intros H. rewrite loop_body_run.
  destruct (negb force_refresh && is_cached now c repo max_cache_age_days);
    [|now apply consistent_after_scrape].
  destruct (truthy (Spec.cachedRecords c repo)); simpl.
  - now apply consistent_after_read.
  - now apply consistent_after_scrape, consistent_after_read.
Qed.

Lemma consistent_after_for_repos (repos : list string) (all_prs : list PR) (c : t) :
  Props.consistent c ->
  Props.consistent
    (snd (for_repos scraper_func force_refresh max_cache_age_days now repos all_prs c)).
Proof.
  revert all_prs c. induction repos as [|repo repos IH]; intros all_prs c H; simpl.
  - exact H.
  - pose proof (consistent_after_loop_body repo all_prs c H) as Hstep.
    unfold bind.
    destruct (loop_body scraper_func force_refresh max_cache_age_days now repo
                all_prs c) as [[prs|e] c1]; simpl in *; [now apply IH | exact Hstep].
Qed.
End CacheInvariant.

(** X5. The cache stays consistent: when the saved index equals the index
    in memory and every index entry names a payload file that exists, the
    same holds after [cache_prs], after [get_cached_prs] and after a whole
    run of [get_or_scrape_repos], whatever the scraper does. *)
Theorem X5_cache_stays_consistent
    (scraper_func : string -> res (list PR)) (force_refresh : bool)
    (max_cache_age_days now : Z) (repos : list string) (repo : string)
    (prs : list PR) (metadata : option (Z * Z)) (c : PRCacheManager.t) :
  Props.consistent c ->
  Props.consistent (snd (PRCacheManager.cache_prs now repo prs metadata c))
  /\ Props.consistent (snd (PRCacheManager.get_cached_prs repo c))
  /\ Props.consistent
       (snd (PRCacheManager.get_or_scrape_repos scraper_func force_refresh
               max_cache_age_days now repos c)).
Proof.
  intros H. split; [|split].
  - now apply consistent_after_cache_prs.
  - now apply consistent_after_read.
  - now apply consistent_after_for_repos.
Qed.

Lemma X5_cache_stays_consistent_witness :
  Props.consistent
    (snd (PRCacheManager.get_or_scrape_repos Sample.flaky_scraper false 7
            Sample.thirty_days ["left/pad"; "octo/repo"]%string Cases.empty_cache)).
Proof.
  refine (proj2 (proj2 (X5_cache_stays_consistent Sample.flaky_scraper false 7
            Sample.thirty_days ["left/pad"; "octo/repo"]%string "octo/repo" []
            None Cases.empty_cache _))).
  split; [reflexivity|]. intros repo entry H. simpl in H.
  rewrite lookup_empty in H. discriminate.
Defined.

(** ** Clearing the cache *)

Section ClearAll.
Import PRCacheManager.
Local Open Scope Z_scope.

Lemma invalidate_cache_index (repo r : string) (c : t) :
  index (snd (invalidate_cache repo c)) !! r
  = if decide (repo = r) then None else index c !! r.
Proof.
  rewrite invalidate_cache_run.
  destruct (index c !! repo) as [entry|] eqn:Hi; simpl.
  - apply lookup_delete.
  - destruct (decide (repo = r)) as [<-|]; [exact Hi | reflexivity].
Qed.

Lemma invalidate_cache_dir (repo : string) (c : t) :
  cache_dir (snd (invalidate_cache repo c)) = cache_dir c.
Proof. rewrite invalidate_cache_run. now destruct (index c !! repo). Qed.

Lemma invalidate_cache_files (repo p : string) (c : t) :
  files (snd (invalidate_cache repo c)) !! p = None
  \/ files (snd (invalidate_cache repo c)) !! p = files c !! p.
Proof.
  rewrite invalidate_cache_run.
  destruct (index c !! repo) as [entry|]; simpl; [|now right].
  destruct (decide (_get_repo_cache_path c repo = p)) as [<-|Hne].
  - left. apply lookup_delete_eq.
  - right. now apply lookup_delete_ne.
Qed.

Lemma invalidate_each_ok (repos : list string) (c : t) :
  fst (invalidate_each repos c) = Ok tt.
Proof.
  revert c. induction repos as [|repo repos IH]; intros c; simpl; [reflexivity|].
  unfold bind. rewrite invalidate_cache_run.
  destruct (index c !! repo); apply IH.
Qed.

Lemma invalidate_each_step (repo : string) (repos : list string) (c : t) :
  snd (invalidate_each (repo :: repos) c)
  = snd (invalidate_each repos (snd (invalidate_cache repo c))).
Proof.
  simpl. unfold bind. rewrite invalidate_cache_run.
  now destruct (index c !! repo).
Qed.

Lemma invalidate_each_dir (repos : list string) (c : t) :
  cache_dir (snd (invalidate_each repos c)) = cache_dir c.
Proof.
  revert c. induction repos as [|repo repos IH]; intros c; [reflexivity|].
  now rewrite invalidate_each_step, IH, invalidate_cache_dir.
Qed.

Lemma invalidate_each_index (repos : list string) (r : string) (c : t) :
  index (snd (invalidate_each repos c)) !! r
  = if in_dec string_dec r repos then None else index c !! r.
Proof.
  revert c. induction repos as [|repo repos IH]; intros c; [reflexivity|].
  rewrite invalidate_each_step, IH, invalidate_cache_index.
  destruct (in_dec string_dec r repos) as [Hin|Hnotin];
    destruct (in_dec string_dec r (repo :: repos)) as [Hin'|Hnotin'];
    try reflexivity.
  - exfalso. apply Hnotin'. now right.
  - destruct Hin' as [->|Hin']; [|contradiction].
    now destruct (decide (r = r)).
  - destruct (decide (repo = r)) as [->|]; [|reflexivity].
    exfalso. apply Hnotin'. now left.
Qed.

(** Invalidation only ever removes payload files. *)
Lemma invalidate_each_files (repos : list string) (p : string) (c : t) :
  files (snd (invalidate_each repos c)) !! p = None
  \/ files (snd (invalidate_each repos c)) !! p = files c !! p.
Proof.
  revert c. induction repos as [|repo repos IH]; intros c; [now right|].
  rewrite invalidate_each_step.
  destruct (IH (snd (invalidate_cache repo c))) as [H|H]; [now left|].
  rewrite H. apply invalidate_cache_files.
Qed.

Lemma invalidate_each_removes (repos : list string) (r : string) (c : t) :
  In r repos -> is_Some (index c !! r) ->
  files (snd (invalidate_each repos c)) !! _get_repo_cache_path c r = None.
Proof.
  revert c. induction repos as [|repo repos IH]; intros c Hin Hsome; [contradiction|].
  rewrite invalidate_each_step.
  destruct (string_dec repo r) as [->|Hne].
  - destruct (invalidate_each_files repos (_get_repo_cache_path c r)
                (snd (invalidate_cache r c))) as [H|H]; [exact H|].
    rewrite H, invalidate_cache_run. destruct Hsome as [entry ->]. simpl.
    apply lookup_delete_eq.
  - destruct Hin as [Heq|Hin]; [contradiction|].
    assert (Hpath : _get_repo_cache_path c r
                    = _get_repo_cache_path (snd (invalidate_cache repo c)) r).
    { unfold _get_repo_cache_path. now rewrite invalidate_cache_dir. }
    rewrite Hpath. apply IH; [exact Hin|].
    rewrite invalidate_cache_index. now destruct (decide (repo = r)).
Qed.
End ClearAll.

(** X6. The loop of [clear_all_cache] empties the cache: when it runs over
    a listing of the index keys, it does not raise, the index is empty
    afterwards, the payload file of every repository that had an entry is
    gone, and no payload file is created or changed. *)
Theorem X6_clear_all_cache (repos : list string) (c : PRCacheManager.t) :
  (forall repo, is_Some (PRCacheManager.index c !! repo) -> In repo repos) ->
  let c' := snd (PRCacheManager.invalidate_each repos c) in
  fst (PRCacheManager.invalidate_each repos c) = Ok tt
  /\ PRCacheManager.index c' = ∅
  /\ (forall repo, is_Some (PRCacheManager.index c !! repo) ->
        PRCacheManager.files c' !! PRCacheManager._get_repo_cache_path c repo = None
        /\ fst (PRCacheManager.get_cached_prs repo c') = Ok None)
  /\ forall path, PRCacheManager.files c' !! path = None
                  \/ PRCacheManager.files c' !! path = PRCacheManager.files c !! path.
Proof.
  intros Hkeys c'. subst c'.
  assert (Hempty : PRCacheManager.index
                     (snd (PRCacheManager.invalidate_each repos c)) = ∅).
  { apply map_eq. intros r. rewrite invalidate_each_index, lookup_empty.
    destruct (in_dec string_dec r repos) as [Hin|Hnotin]; [reflexivity|].
    destruct (PRCacheManager.index c !! r) as [entry|] eqn:Hr; [|reflexivity].
    exfalso. apply Hnotin, Hkeys. now rewrite Hr. }
  split; [apply invalidate_each_ok|].
  split; [exact Hempty|].
  split; [|intros path; apply invalidate_each_files].
  intros repo Hsome. split.
  - apply invalidate_each_removes; [now apply Hkeys | exact Hsome].
  - rewrite get_cached_prs_run, Hempty. now rewrite lookup_empty.
Qed.

Lemma X6_clear_all_cache_witness :
  PRCacheManager.index
    (snd (PRCacheManager.invalidate_each ["octo/repo"%string] Sample.stale_cache))
  = ∅.
Proof.
  refine (proj1 (proj2 (X6_clear_all_cache ["octo/repo"%string]
                          Sample.stale_cache _))).
  intros repo [entry H]. simpl in H.
  apply lookup_singleton_Some in H as [<- _]. now left.
Defined.

(** ** When the scraper is consulted *)

Section ScraperUse.
Import PRCacheManager.
Local Open Scope Z_scope.

Lemma for_repos_forced (scraper_func : string -> res (list PR))
    (max_cache_age_days now : Z) (repos : list string) (all_prs : list PR) (c : t) :
  (forall repo, In repo repos -> exists prs, scraper_func repo = Ok prs) ->
  fst (for_repos scraper_func true max_cache_age_days now repos all_prs c)
  = Ok (all_prs ++ flat_map (Props.scraped scraper_func) repos).
Proof.
  revert all_prs c. induction repos as [|repo repos IH]; intros all_prs c Hok; simpl.
  - unfold ret. simpl. now rewrite List.app_nil_r.
  - destruct (Hok repo (or_introl eq_refl)) as [prs Hprs].
    unfold bind. rewrite loop_body_run. simpl. rewrite scrape_run, Hprs.
    rewrite IH by (intros r Hr; apply Hok; now right).
    unfold Props.scraped at 2. rewrite Hprs. now rewrite List.app_assoc.
Qed.
End ScraperUse.

(** X7. With [force_refresh] the cache is never read for the result: when
    the scraper succeeds for every repository of the list, the result of
    [get_or_scrape_repos] is the concatenation of what the scraper returns,
    in the order of the list, whatever the cache holds. *)
Theorem X7_force_refresh_uses_scraper
    (scraper_func : string -> res (list PR)) (max_cache_age_days now : Z)
    (repos : list string) (c : PRCacheManager.t) :
  (forall repo, In repo repos -> exists prs, scraper_func repo = Ok prs) ->
  fst (PRCacheManager.get_or_scrape_repos scraper_func true max_cache_age_days
         now repos c)
  = Ok (flat_map (Props.scraped scraper_func) repos).
Proof.
  intros Hok. unfold PRCacheManager.get_or_scrape_repos.
  now rewrite for_repos_forced.
Qed.

Lemma X7_force_refresh_uses_scraper_witness :
  fst (PRCacheManager.get_or_scrape_repos Sample.flaky_scraper true 7
         Sample.thirty_days ["left/pad"; "right/pad"]%string Sample.stale_cache)
  = Ok (flat_map (Props.scraped Sample.flaky_scraper)
          ["left/pad"; "right/pad"]%string).
Proof.
  apply X7_force_refresh_uses_scraper.
  intros repo [<-|[<-|[]]]; eexists; reflexivity.
Defined.

(** X8. A fresh entry that holds at least one record shields the scraper:
    without [force_refresh] the iteration for such a repository returns the
    cached records, touches neither index nor payload files, and gives the
    same result and state whatever function is passed as scraper. *)
Theorem X8_fresh_entry_shields_scraper
    (scraper1 scraper2 : string -> res (list PR)) (max_cache_age_days now : Z)
    (repo : string) (p : PR) (ps all_prs : list PR) (c : PRCacheManager.t) :
  PRCacheManager.is_cached now c repo max_cache_age_days = true ->
  Spec.cachedRecords c repo = Some (p :: ps) ->
  PRCacheManager.loop_body scraper1 false max_cache_age_days now repo all_prs c
  = (Ok (all_prs ++ p :: ps),
     PRCacheManager.with_output (PRCacheManager.Loaded repo (len (p :: ps))) c)
  /\ PRCacheManager.loop_body scraper2 false max_cache_age_days now repo all_prs c
     = PRCacheManager.loop_body scraper1 false max_cache_age_days now repo all_prs c.
Proof.
  intros Hfresh Hrec.
  assert (Hrun : forall scraper,
    PRCacheManager.loop_body scraper false max_cache_age_days now repo all_prs c
    = (Ok (all_prs ++ p :: ps),
       PRCacheManager.with_output (PRCacheManager.Loaded repo (len (p :: ps))) c)).
  { intros scraper. rewrite loop_body_run, Hfresh, Hrec. simpl. f_equal.
    rewrite get_cached_prs_run. unfold Spec.cachedRecords in Hrec.
    destruct (PRCacheManager.index c !! repo); [|discriminate].
    destruct (PRCacheManager.files c
              !! PRCacheManager._get_repo_cache_path c repo) as [[data|e]|];
      try discriminate.
    injection Hrec as ->. reflexivity. }
  split; [apply Hrun | now rewrite !Hrun].
Qed.

Lemma X8_fresh_entry_shields_scraper_witness :
  fst (PRCacheManager.loop_body Sample.flaky_scraper false 45 Sample.thirty_days
         "octo/repo" [] Sample.stale_cache)
  = Ok [Sample.small; Sample.large].
Proof.
  refine (f_equal fst (proj1 (X8_fresh_entry_shields_scraper Sample.flaky_scraper
            Sample.flaky_scraper 45 Sample.thirty_days "octo/repo" Sample.small
            [Sample.large] [] Sample.stale_cache _ _))).
  - vm_compute. reflexivity.
  - vm_compute. reflexivity.
Defined.

(** X9. A fresh entry that holds an empty list does not shield the
    scraper: [if cached_prs:] is false for it, so the repository is scraped
    again; when the scraper succeeds its records are returned and replace
    the cached list. *)
Theorem X9_empty_entry_is_scraped_again
    (scraper_func : string -> res (list PR)) (force_refresh : bool)
    (max_cache_age_days now : Z) (repo : string) (prs all_prs : list PR)
    (c : PRCacheManager.t) :
  PRCacheManager.is_cached now c repo max_cache_age_days = true ->
  Spec.cachedRecords c repo = Some [] ->
  scraper_func repo = Ok prs ->
  let run := PRCacheManager.loop_body scraper_func force_refresh
               max_cache_age_days now repo all_prs c in
  fst run = Ok (all_prs ++ prs)
  /\ Spec.cachedRecords (snd run) repo = Some prs
  /\ In (PRCacheManager.Scraping repo) (PRCacheManager.output (snd run)).
Proof.
  intros Hfresh Hrec Hscrape run. subst run.
  rewrite loop_body_run, Hfresh, Hrec. simpl.
  assert (Hboth : forall c0,
    fst (PRCacheManager.scrape scraper_func now repo all_prs c0)
    = Ok (all_prs ++ prs)
    /\ Spec.cachedRecords
         (snd (PRCacheManager.scrape scraper_func now repo all_prs c0)) repo
       = Some prs
    /\ In (PRCacheManager.Scraping repo)
         (PRCacheManager.output
            (snd (PRCacheManager.scrape scraper_func now repo all_prs c0)))).
  { intros c0. rewrite scrape_run, Hscrape. simpl.
    split; [reflexivity|]. split.
    - unfold Spec.cachedRecords. simpl. rewrite lookup_insert_eq.
      unfold PRCacheManager._get_repo_cache_path. simpl.
      now rewrite lookup_insert_eq.
    - apply List.in_or_app. left. apply List.in_or_app. right. now left. }
  destruct (negb force_refresh); simpl; apply Hboth.
Qed.

Lemma X9_empty_entry_is_scraped_again_witness :
  fst (PRCacheManager.loop_body Sample.flaky_scraper false 7 0 "left/pad" []
         (snd (PRCacheManager.cache_prs 0 "left/pad" [] None Cases.empty_cache)))
  = Ok [Sample.anonymous].
Proof.
  refine (proj1 (X9_empty_entry_is_scraped_again Sample.flaky_scraper false 7 0
                   "left/pad" [Sample.anonymous] []
                   (snd (PRCacheManager.cache_prs 0 "left/pad" [] None
                           Cases.empty_cache)) _ _ _)).
  - vm_compute. reflexivity.
  - vm_compute. reflexivity.
  - reflexivity.
Defined.

(** * Further properties of the ranking *)

Section ScoreBounds.
Import ExpertFinder.
Local Open Scope Q_scope.

Lemma Qmin_bounds (x : Q) : 0 <= x -> 0 <= Qmin x 1 /\ Qmin x 1 <= 1.
Proof.
  intros Hx. split.
  - apply Q.min_glb; [exact Hx | lra].
  - apply Q.le_min_r.
Qed.

Lemma lines_normalized_bounds (lines : Z) :
  (0 <= lines)%Z ->
  0 <= Spec.f (inject_Z lines) /\ Spec.f (inject_Z lines) <= 1.
Proof.
  intros Hl. unfold Spec.f. apply Qmin_bounds.
  assert (0 <= inject_Z lines) by (unfold Qle; simpl; lia).
  unfold Qdiv. apply Qmult_le_0_compat; [assumption|].
  vm_compute. discriminate.
Qed.

Lemma recency_bounds (now : Z) (decay : Z -> res Q) (d : date_field) :
  0 <= _calculate_recency_score now decay d
  /\ _calculate_recency_score now decay d <= 1.
Proof.
  unfold _calculate_recency_score. destruct d as [| |t]; try (split; lra).
  destruct (decay (age_in_days now t)) as [score|e]; [|split; lra].
  split.
  - apply Qle_trans with 0.0; [vm_compute; discriminate | apply Q.le_max_l].
  - apply Q.max_lub; [vm_compute; discriminate|].
    apply Qle_trans with 1.0; [apply Q.le_min_l | vm_compute; discriminate].
Qed.
End ScoreBounds.

(** X10. The boosts of [combined_score] amplify the similarity by at most
    41 percent and never reduce it: for a candidate with non-negative
    similarity and line count whose complexity and impact scores, when
    present, lie in [0, 1], the combined score lies between the similarity
    and 1.41 times the similarity. *)
Theorem X10_combined_score_bounds (c : PR) :
  (0 <= pr_similarity_score c)%Q ->
  (0 <= pr_lines_changed c)%Z ->
  (0 <= get (pr_complexity_score c) 0.5 <= 1)%Q ->
  (0 <= get (pr_impact_score c) 0.5 <= 1)%Q ->
  (pr_similarity_score c <= ExpertFinder.combined_score c
   /\ ExpertFinder.combined_score c <= 1.41 * pr_similarity_score c)%Q.
Proof.
  intros Hsim Hlines [Hc0 Hc1] [Hi0 Hi1].
  rewrite combined_score_spec. unfold Spec.combined.
  destruct (lines_normalized_bounds _ Hlines) as [Hf0 Hf1].
  assert (Hsize : (0 <= Spec.sizeBoost c /\ Spec.sizeBoost c <= 0.15)%Q).
  { unfold Spec.sizeBoost. destruct (Spec.substantial c); split; nra. }
  assert (Hquality : (0 <= Spec.qualityBoost c /\ Spec.qualityBoost c <= 0.08)%Q).
  { unfold Spec.qualityBoost, Spec.iverson.
    destruct (pr_has_tests c), (pr_has_docs c),
      (5 <? pr_review_comments_count c)%Z; split; lra. }
  unfold Spec.complexityBoost, Spec.impactBoost.
  destruct Hsize as [Hs0 Hs1], Hquality as [Hq0 Hq1].
  split; nra.
Qed.

Lemma X10_combined_score_bounds_witness :
  (pr_similarity_score Sample.alice_600
   <= ExpertFinder.combined_score Sample.alice_600
   /\ ExpertFinder.combined_score Sample.alice_600
      <= 1.41 * pr_similarity_score Sample.alice_600)%Q.
Proof.
  apply X10_combined_score_bounds.
  - vm_compute. discriminate.
  - vm_compute. discriminate.
  - split; vm_compute; discriminate.
  - split; vm_compute; discriminate.
Defined.

Section ProfileFacts.
Import ExpertFinder.
Local Open Scope Q_scope.

Lemma In_firstn {A : Type} (n : nat) (l : list A) (x : A) :
  In x (firstn n l) -> In x l.
Proof.
  revert l. induction n as [|n IH]; intros [|y l]; simpl; try tauto.
  intros [->|H]; [now left | right; now apply IH].
Qed.

Lemma topFrequencies_nonneg (g : list PR) (n : Z) :
  In n (Spec.topFrequencies g) -> (0 <= n)%Z.
Proof.
  unfold Spec.topFrequencies. intros Hin.
  apply In_firstn, sort_desc_In, List.in_map_iff in Hin.
  destruct Hin as (t & <- & _). unfold Spec.frequency, len. lia.
Qed.

Lemma sum_nonneg (l : list Z) :
  (forall n, In n l -> (0 <= n)%Z) -> (0 <= fold_right Z.add 0%Z l)%Z.
Proof.
  induction l as [|x l IH]; simpl; intros H; [lia|].
  assert (0 <= x)%Z by (apply H; now left).
  assert (0 <= fold_right Z.add 0%Z l)%Z by (apply IH; intros n Hn; apply H; now right).
  lia.
Qed.

Lemma techDepth_bounds (g : list PR) :
  0 <= Spec.techDepth g /\ Spec.techDepth g <= 1.
Proof.
  unfold Spec.techDepth.
  pose proof (topFrequencies_nonneg g) as Hnn.
  destruct (Spec.topFrequencies g) as [|n fs]; [split; lra|].
  apply Qmin_bounds.
  assert (Hsum : 0 <= inject_Z (fold_right Z.add 0%Z (n :: fs))).
  { pose proof (sum_nonneg _ Hnn). unfold Qle. simpl in *. lia. }
  assert (Hlen : 0 <= / inject_Z (len (n :: fs))).
  { apply Qinv_le_0_compat. unfold Qle, len. simpl. lia. }
  unfold Qdiv. apply Qmult_le_0_compat.
  - now apply Qmult_le_0_compat.
  - vm_compute. discriminate.
Qed.

Variable now : Z.
Variable decay : Z -> res Q.

(** More of what the loop body stores in a profile. *)
Lemma score_author_evidence (rw : Q) (a : string) (g : list PR) (e : Expert) :
  score_author now decay rw a g = Ok e ->
  recency_score e = _calculate_recency_score now decay (pr_merged_date (best_pr e))
  /\ total_lines_changed e
     = fold_left (fun acc pr => (acc + pr_lines_changed pr)%Z)
         (sort_desc (by_keyQ combined_score) g) 0%Z
  /\ tech_specialization e
     = firstn 5 (sort_desc (by_keyZ snd)
                   (tech_frequency (sort_desc (by_keyQ combined_score) g)))
  /\ tech_expertise e
     = sorted_strings (all_tech (sort_desc (by_keyQ combined_score) g)).
Proof.
  unfold score_author.
  destruct (sort_desc (by_keyQ combined_score) g) as [|best s'] eqn:Hs;
    [discriminate|].
  intros [= <-]. repeat split.
Qed.

Lemma profiles_Forall_in (P : Expert -> Prop) (prs : list PR) (rw : Q)
    (l : list string) (profiles : list Expert) :
  Forall2 (fun a e => score_author now decay rw a (Spec.group a prs) = Ok e)
    l profiles ->
  (forall a e, In a l ->
     score_author now decay rw a (Spec.group a prs) = Ok e -> P e) ->
  Forall P profiles.
Proof.
  induction 1 as [|a e l profiles He _ IH]; intros HP; constructor.
  - apply (HP a e); [now left | exact He].
  - apply IH. intros a' e' Hin. apply HP. now right.
Qed.

(** A property of every profile that the loop body builds holds for all
    profiles and for the profiles that [_rank_experts] returns. *)
Lemma ranking_Forall (prs : list PR) (rw : Q) (P : Expert -> Prop) :
  (forall a e, In a (Spec.authors prs) ->
     score_author now decay rw a (Spec.group a prs) = Ok e -> P e) ->
  exists profiles,
    score_authors now decay rw (group_by_author prs) = Ok profiles
    /\ _rank_experts now decay prs rw
       = Ok (filter_experts (sort_desc (by_keyQ score) profiles))
    /\ map author profiles = Spec.authors prs
    /\ Forall P profiles
    /\ Forall P (filter_experts (sort_desc (by_keyQ score) profiles)).
Proof.
  intros HP.
  destruct (rank_experts_profiles now decay prs rw) as (profiles & Hok & Hall & Hrank).
  assert (HF : Forall P profiles) by now apply (profiles_Forall_in P prs rw _ _ Hall).
  exists profiles. repeat split; try assumption.
  - now apply (profiles_authors now decay prs rw).
  - now apply filter_experts_Forall, sort_desc_Forall.
Qed.
End ProfileFacts.

(** X11. Score bounds.  Every profile that [_rank_experts] builds, and so
    every profile it returns, has a recency score and a technology depth
    score in [0, 1]; and for a recency weight in [0, 1] its final score
    lies between the smaller and the larger of its similarity score and its
    recency score. *)
Theorem X11_profile_score_bounds (now : Z) (decay : Z -> res Q) (prs : list PR)
    (recency_weight : Q) :
  (0 <= recency_weight <= 1)%Q ->
  exists profiles experts,
    ExpertFinder.score_authors now decay recency_weight
      (ExpertFinder.group_by_author prs) = Ok profiles
    /\ ExpertFinder._rank_experts now decay prs recency_weight = Ok experts
    /\ Forall (fun e =>
         (0 <= ExpertFinder.recency_score e <= 1)%Q
         /\ (0 <= ExpertFinder.tech_depth_score e <= 1)%Q
         /\ (Qmin (ExpertFinder.similarity_score e) (ExpertFinder.recency_score e)
             <= ExpertFinder.score e
             <= Qmax (ExpertFinder.similarity_score e)
                  (ExpertFinder.recency_score e))%Q)
         (profiles ++ experts).
Proof.
  intros [Hw0 Hw1].
  destruct (ranking_Forall now decay prs recency_weight (fun e =>
      (0 <= ExpertFinder.recency_score e <= 1)%Q
      /\ (0 <= ExpertFinder.tech_depth_score e <= 1)%Q
      /\ (Qmin (ExpertFinder.similarity_score e) (ExpertFinder.recency_score e)
          <= ExpertFinder.score e
          <= Qmax (ExpertFinder.similarity_score e)
               (ExpertFinder.recency_score e))%Q))
    as (profiles & Hok & Hrank & _ & HF & HF').
  - intros a e _ He.
    pose proof (score_author_evidence now decay _ _ _ _ He) as (Hrec & _).
    apply score_author_fields in He as (_ & _ & Hdepth & Hscore & _).
    split; [rewrite Hrec; apply recency_bounds|].
    split; [rewrite Hdepth; apply techDepth_bounds|].
    rewrite Hscore.
    set (s := ExpertFinder.similarity_score e).
    set (r := ExpertFinder.recency_score e).
    destruct (Qlt_le_dec r s) as [Hlt|Hle].
    + rewrite Q.min_r, Q.max_l by lra. split; nra.
    + rewrite Q.min_l, Q.max_r by lra. split; nra.
  - exists profiles. eexists. split; [exact Hok|]. split; [exact Hrank|].
    apply List.Forall_app. now split.
Qed.

Lemma X11_profile_score_bounds_witness :
  exists profiles experts,
    ExpertFinder.score_authors 0%Z (fun _ => Ok 1%Q) 0.1%Q
      (ExpertFinder.group_by_author [Sample.alice_600; Sample.large]) = Ok profiles
    /\ ExpertFinder._rank_experts 0%Z (fun _ => Ok 1%Q)
         [Sample.alice_600; Sample.large] 0.1%Q = Ok experts
    /\ Forall (fun e =>
         (0 <= ExpertFinder.recency_score e <= 1)%Q
         /\ (0 <= ExpertFinder.tech_depth_score e <= 1)%Q
         /\ (Qmin (ExpertFinder.similarity_score e) (ExpertFinder.recency_score e)
             <= ExpertFinder.score e
             <= Qmax (ExpertFinder.similarity_score e)
                  (ExpertFinder.recency_score e))%Q)
         (profiles ++ experts).
Proof.
  apply X11_profile_score_bounds. split; vm_compute; discriminate.
Defined.

Section RankingOrder.
Import ExpertFinder.

Lemma descending_filter {A : Type} (lt : A -> A -> bool) (f : A -> bool)
    (l : list A) :
  descending lt l -> descending lt (List.filter f l).
Proof.
  unfold descending. induction 1 as [|x l Hl IH Hx]; simpl; [constructor|].
  destruct (f x); [|exact IH].
  constructor; [exact IH|].
  rewrite List.Forall_forall in *. intros y Hy.
  apply List.filter_In in Hy as [Hy _]. now apply Hx.
Qed.

Lemma filter_experts_descending (lt : Expert -> Expert -> bool)
    (experts : list Expert) :
  descending lt experts -> descending lt (filter_experts experts).
Proof.
  intros H. rewrite filter_experts_cases.
  destruct (List.filter meets_criteria experts) as [|k kept] eqn:Hk; [exact H|].
  rewrite <- Hk. now apply descending_filter.
Qed.

Lemma NoDup_map_filter {A B : Type} (g : A -> B) (f : A -> bool) (l : list A) :
  List.NoDup (map g l) -> List.NoDup (map g (List.filter f l)).
Proof.
  induction l as [|x l IH]; simpl; intros H; [constructor|].
  inversion H as [|? ? Hnotin Hnd]; subst.
  destruct (f x); simpl; [|now apply IH].
  constructor; [|now apply IH].
  intros Hin. apply Hnotin. apply List.in_map_iff in Hin as (y & Hy & Hin).
  apply List.filter_In in Hin as [Hin _]. apply List.in_map_iff. eauto.
Qed.

Lemma filter_experts_NoDup {B : Type} (g : Expert -> B) (experts : list Expert) :
  List.NoDup (map g experts) -> List.NoDup (map g (filter_experts experts)).
Proof.
  intros H. rewrite filter_experts_cases.
  destruct (List.filter meets_criteria experts) as [|k kept] eqn:Hk; [exact H|].
  rewrite <- Hk. now apply NoDup_map_filter.
Qed.
End RankingOrder.

(** X12. [_rank_experts] never raises; the list it returns is ordered by
    final score, no profile standing before a profile with a strictly
    higher score, and no author occurs in it twice. *)
Theorem X12_ranking_sorted_distinct (now : Z) (decay : Z -> res Q) (prs : list PR)
    (recency_weight : Q) :
  exists experts,
    ExpertFinder._rank_experts now decay prs recency_weight = Ok experts
    /\ descending (by_keyQ ExpertFinder.score) experts
    /\ List.NoDup (map ExpertFinder.author experts).
Proof.
  destruct (rank_experts_profiles now decay prs recency_weight)
    as (profiles & _ & Hall & Hrank).
  eexists. split; [exact Hrank|]. split.
  - apply filter_experts_descending, sort_desc_by_keyQ_descending.
  - apply filter_experts_NoDup.
    apply (Permutation_NoDup
             (Permutation_map ExpertFinder.author
                (Permutation_sym (sort_desc_perm _ profiles)))).
    rewrite (profiles_authors now decay prs recency_weight _ _ Hall).
    apply distinct_NoDup.
Qed.

Section Evidence.
Import ExpertFinder.

Lemma hd_error_firstn {A : Type} (n : nat) (l : list A) :
  hd_error (firstn (S n) l) = hd_error l.
Proof. now destruct l. Qed.

Lemma filter_length_le {A : Type} (f : A -> bool) (l : list A) :
  (length (List.filter f l) <= length l)%nat.
Proof.
  induction l as [|x l IH]; simpl; [lia|]. destruct (f x); simpl; lia.
Qed.

Lemma sum_lines_fold (l : list PR) (acc : Z) :
  fold_left (fun a pr => (a + pr_lines_changed pr)%Z) l acc
  = (acc + fold_right Z.add 0%Z (map pr_lines_changed l))%Z.
Proof.
  revert acc. induction l as [|pr l IH]; intros acc; simpl; [lia|].
  rewrite IH. lia.
Qed.

Lemma sum_perm (l1 l2 : list Z) :
  Permutation l1 l2 -> fold_right Z.add 0%Z l1 = fold_right Z.add 0%Z l2.
Proof.
  induction 1 as [|x l1 l2 _ IH|x y l|l1 l2 l3 _ IH1 _ IH2]; simpl; lia.
Qed.

Lemma group_member (a : string) (prs : list PR) (pr : PR) :
  In pr (Spec.group a prs) -> In pr prs /\ pr_author pr = Some a.
Proof.
  unfold Spec.group. rewrite List.filter_In. intros [Hin Ha].
  split; [exact Hin|].
  destruct (pr_author pr) as [b|]; [|discriminate].
  apply String.eqb_eq in Ha. now subst.
Qed.

(** The head of a descending list has the largest key. *)
Lemma descending_head {A : Type} (key : A -> Q) (x : A) (l : list A) :
  descending (by_keyQ key) (x :: l) ->
  Forall (fun y => (key y <= key x)%Q) (x :: l).
Proof.
  unfold descending. intros H. inversion H as [|? ? _ Hall]; subst.
  constructor; [apply Qle_refl|].
  rewrite List.Forall_forall in *. intros y Hy. specialize (Hall y Hy).
  unfold by_keyQ, Qltb in Hall. rewrite Bool.negb_false_iff in Hall.
  now apply Qle_bool_iff.
Qed.

Variable now : Z.
Variable decay : Z -> res Q.

Lemma score_author_best (rw : Q) (a : string) (g : list PR) (e : Expert) :
  score_author now decay rw a g = Ok e ->
  In (best_pr e) g
  /\ Forall (fun pr => (combined_score pr <= combined_score (best_pr e))%Q) g.
Proof.
  unfold score_author.
  pose proof (sort_desc_by_keyQ_descending combined_score g) as Hsorted.
  pose proof (sort_desc_In (by_keyQ combined_score) g) as Hin.
  destruct (sort_desc (by_keyQ combined_score) g) as [|best s'] eqn:Hs;
    [discriminate|].
  intros [= <-]. simpl. split.
  - apply Hin. now left.
  - apply descending_head in Hsorted. rewrite List.Forall_forall in *.
    intros pr Hpr. apply Hsorted, Hin, Hpr.
Qed.
End Evidence.

(** X13. The evidence of a profile belongs to its author.  For every
    profile that [_rank_experts] builds or returns: the count of relevant
    PRs is the size of the author's group and at least one; the count of
    substantial PRs lies between zero and that size; the total of changed
    lines is the sum over the group; [top_prs] holds at most three
    candidates, all of them candidates of the input written by this
    author, and its first element is [best_pr]; [best_pr] has the highest
    combined score of the group; [tech_specialization] has at most five
    entries. *)
Theorem X13_profile_evidence (now : Z) (decay : Z -> res Q) (prs : list PR)
    (recency_weight : Q) :
  exists profiles experts,
    ExpertFinder.score_authors now decay recency_weight
      (ExpertFinder.group_by_author prs) = Ok profiles
    /\ ExpertFinder._rank_experts now decay prs recency_weight = Ok experts
    /\ Forall (fun e =>
         let g := Spec.group (ExpertFinder.author e) prs in
         ExpertFinder.total_relevant_prs e = len g
         /\ (1 <= ExpertFinder.total_relevant_prs e)%Z
         /\ (0 <= ExpertFinder.substantial_prs_count e
             <= ExpertFinder.total_relevant_prs e)%Z
         /\ ExpertFinder.total_lines_changed e
            = fold_right Z.add 0%Z (map pr_lines_changed g)
         /\ (length (ExpertFinder.top_prs e) <= 3)%nat
         /\ hd_error (ExpertFinder.top_prs e) = Some (ExpertFinder.best_pr e)
         /\ Forall (fun pr => In pr prs
                              /\ pr_author pr = Some (ExpertFinder.author e))
              (ExpertFinder.top_prs e)
         /\ Forall (fun pr =>
              (ExpertFinder.combined_score pr
               <= ExpertFinder.combined_score (ExpertFinder.best_pr e))%Q) g
         /\ (length (ExpertFinder.tech_specialization e) <= 5)%nat)
         (profiles ++ experts).
Proof.
  destruct (ranking_Forall now decay prs recency_weight (fun e =>
      let g := Spec.group (ExpertFinder.author e) prs in
      ExpertFinder.total_relevant_prs e = len g
      /\ (1 <= ExpertFinder.total_relevant_prs e)%Z
      /\ (0 <= ExpertFinder.substantial_prs_count e
          <= ExpertFinder.total_relevant_prs e)%Z
      /\ ExpertFinder.total_lines_changed e
         = fold_right Z.add 0%Z (map pr_lines_changed g)
      /\ (length (ExpertFinder.top_prs e) <= 3)%nat
      /\ hd_error (ExpertFinder.top_prs e) = Some (ExpertFinder.best_pr e)
      /\ Forall (fun pr => In pr prs
                           /\ pr_author pr = Some (ExpertFinder.author e))
           (ExpertFinder.top_prs e)
      /\ Forall (fun pr =>
           (ExpertFinder.combined_score pr
            <= ExpertFinder.combined_score (ExpertFinder.best_pr e))%Q) g
      /\ (length (ExpertFinder.tech_specialization e) <= 5)%nat))
    as (profiles & Hok & Hrank & _ & HF & HF').
  - intros a e Ha He.
    pose proof (score_author_evidence now decay _ _ _ _ He)
      as (_ & Hlines & Hspec & _).
    pose proof (score_author_best now decay _ _ _ _ He) as [_ Hbest].
    apply score_author_fields in He
      as (-> & _ & _ & _ & Htotal & Hsub & Htop & Hhd).
    cbv zeta.
    assert (Hg : Spec.group a prs <> []) by now apply group_nonempty.
    split; [exact Htotal|].
    split.
    { rewrite Htotal. unfold len. destruct (Spec.group a prs); [congruence|].
      simpl. lia. }
    split.
    { rewrite Htotal, Hsub. unfold len.
      pose proof (filter_length_le Spec.substantial (Spec.group a prs)). lia. }
    split.
    { rewrite Hlines, sum_lines_fold. simpl.
      apply sum_perm, Permutation_map, sort_desc_perm. }
    split.
    { rewrite Htop. unfold Spec.top. apply List.firstn_le_length. }
    split.
    { rewrite Htop. unfold Spec.top in *. now rewrite hd_error_firstn in *. }
    split.
    { rewrite Htop, List.Forall_forall. intros pr Hpr. unfold Spec.top in Hpr.
      apply In_firstn, sort_desc_In in Hpr. now apply group_member. }
    split; [exact Hbest|].
    rewrite Hspec. apply List.firstn_le_length.
  - exists profiles. eexists. split; [exact Hok|]. split; [exact Hrank|].
    apply List.Forall_app. now split.
Qed.

Section Conservation.
Import ExpertFinder.

Lemma append_pr_size (a : string) (pr : PR) (d : list (string * list PR)) :
  fold_right (fun ag n => (len (snd ag) + n)%Z) 0%Z (append_pr a pr d)
  = (fold_right (fun ag n => (len (snd ag) + n)%Z) 0%Z d + 1)%Z.
Proof.
  unfold append_pr. induction d as [|[b l] d IH]; simpl.
  - reflexivity.
  - destruct (String.eqb a b); simpl.
    + unfold len. rewrite List.length_app. simpl. lia.
    + rewrite IH. lia.
Qed.

Lemma hasAuthor_truthy (pr : PR) :
  Spec.hasAuthor pr = match truthy_author pr with Some _ => true | None => false end.
Proof.
  unfold Spec.hasAuthor, truthy_author.
  destruct (pr_author pr) as [a|]; [|reflexivity]. now destruct (String.eqb a "").
Qed.

Lemma group_by_author_size (prs : list PR) :
  fold_right (fun ag n => (len (snd ag) + n)%Z) 0%Z (group_by_author prs)
  = len (List.filter Spec.hasAuthor prs).
Proof.
  unfold group_by_author.
  assert (H : forall acc,
    fold_right (fun ag n => (len (snd ag) + n)%Z) 0%Z
      (fold_left (fun author_prs pr =>
                    match truthy_author pr with
                    | Some a => append_pr a pr author_prs
                    | None => author_prs
                    end) prs acc)
    = (fold_right (fun ag n => (len (snd ag) + n)%Z) 0%Z acc
       + len (List.filter Spec.hasAuthor prs))%Z).
  { induction prs as [|pr prs IH]; intros acc; simpl.
    - unfold len. simpl. lia.
    - rewrite IH, hasAuthor_truthy.
      destruct (truthy_author pr) as [a|].
      + rewrite append_pr_size. unfold len. simpl length. lia.
      + reflexivity. }
  rewrite H. simpl. lia.
Qed.

Variable now : Z.
Variable decay : Z -> res Q.

Lemma profiles_total (rw : Q) (groups : list (string * list PR))
    (profiles : list Expert) :
  Forall2 (fun ag e => score_author now decay rw (fst ag) (snd ag) = Ok e)
    groups profiles ->
  fold_right Z.add 0%Z (map total_relevant_prs profiles)
  = fold_right (fun ag n => (len (snd ag) + n)%Z) 0%Z groups.
Proof.
  induction 1 as [|[a g] e groups profiles He _ IH]; simpl; [reflexivity|].
  apply score_author_fields in He as (_ & _ & _ & _ & -> & _).
  now rewrite IH.
Qed.
End Conservation.

(** X14. Every candidate with an author is counted for exactly one
    profile: over all the profiles that [_rank_experts] builds (before the
    minimum-expertise filter) the counts of relevant PRs add up to the
    number of candidates whose author is present and not empty. *)
Theorem X14_relevant_counts_add_up (now : Z) (decay : Z -> res Q) (prs : list PR)
    (recency_weight : Q) :
  exists profiles,
    ExpertFinder.score_authors now decay recency_weight
      (ExpertFinder.group_by_author prs) = Ok profiles
    /\ ExpertFinder._rank_experts now decay prs recency_weight
       = Ok (ExpertFinder.filter_experts
               (sort_desc (by_keyQ ExpertFinder.score) profiles))
    /\ fold_right Z.add 0%Z (map ExpertFinder.total_relevant_prs profiles)
       = len (List.filter Spec.hasAuthor prs).
Proof.
  destruct (score_authors_ok now decay recency_weight
              (ExpertFinder.group_by_author prs)) as (profiles & Hok & Hall).
  { rewrite group_by_author_spec, List.Forall_map, List.Forall_forall.
    intros a Ha. now apply group_nonempty. }
  exists profiles. split; [exact Hok|]. split.
  - unfold ExpertFinder._rank_experts. now rewrite Hok.
  - rewrite (profiles_total now decay recency_weight _ _ Hall).
    apply group_by_author_size.
Qed.

(** ** The substantiality filter and [find_experts] *)

Section FilterFacts.
Import ExpertFinder.

Lemma partition_perm {A : Type} (f : A -> bool) (l : list A) :
  Permutation (List.filter f l ++ List.filter (fun x => negb (f x)) l) l.
Proof.
  induction l as [|x l IH]; simpl; [constructor|].
  destruct (f x); simpl.
  - now constructor.
  - rewrite <- Permutation_middle. now constructor.
Qed.

Lemma substantiality_filter_partition (results : list PR) :
  exists dropped,
    Permutation (substantiality_filter results ++ dropped) results
    /\ Forall (fun c => Spec.substantial c = false) dropped.
Proof.
  rewrite substantiality_filter_cases.
  destruct (List.filter Spec.substantial results) as [|c kept] eqn:Hkept.
  - exists []. rewrite List.app_nil_r. split; [reflexivity | constructor].
  - unfold Spec.substantialityRule. rewrite Hkept.
    assert (Hother : Forall (fun c => Spec.substantial c = false)
                       (List.filter (fun c => negb (Spec.substantial c)) results)).
    { rewrite List.Forall_forall. intros x Hx.
      apply List.filter_In in Hx as [_ Hx]. now apply Bool.negb_true_iff. }
    destruct (20 <=? len (c :: kept))%Z.
    + exists (List.filter (fun c => negb (Spec.substantial c)) results).
      split; [|exact Hother]. rewrite <- Hkept. apply partition_perm.
    + set (k := Z.to_nat (Z.max 10 (20 - len (c :: kept)))).
      set (other := sort_desc (by_keyZ pr_lines_changed)
                      (List.filter (fun c => negb (Spec.substantial c)) results)).
      exists (skipn k other). split.
      * rewrite <- List.app_assoc, List.firstn_skipn. unfold other.
        rewrite sort_desc_perm, <- Hkept. apply partition_perm.
      * rewrite List.Forall_forall in *. intros x Hx. apply Hother.
        apply (sort_desc_In (by_keyZ pr_lines_changed)).
        fold other. rewrite <- (List.firstn_skipn k other).
        apply List.in_or_app. now right.
Qed.

Lemma substantiality_filter_incl (results : list PR) (c : PR) :
  In c (substantiality_filter results) -> In c results.
Proof.
  destruct (substantiality_filter_partition results) as (dropped & Hperm & _).
  intros Hin. apply (Permutation_in _ Hperm), List.in_or_app. now left.
Qed.

Lemma substantiality_filter_keeps_substantial (results : list PR) :
  List.filter Spec.substantial (substantiality_filter results)
  = List.filter Spec.substantial results.
Proof.
  rewrite substantiality_filter_cases.
  destruct (List.filter Spec.substantial results) as [|c kept] eqn:Hkept;
    [exact Hkept|].
  unfold Spec.substantialityRule. rewrite Hkept.
  assert (Hidem : List.filter Spec.substantial (c :: kept) = c :: kept).
  { rewrite <- Hkept. apply List.forallb_filter_id, List.forallb_forall.
    intros x Hx. now apply List.filter_In in Hx. }
  destruct (20 <=? len (c :: kept))%Z; [exact Hidem|].
  rewrite List.filter_app, Hidem.
  assert (Hnone : forall l,
    Forall (fun c => Spec.substantial c = false) l ->
    List.filter Spec.substantial l = []).
  { induction 1 as [|x l Hx _ IH]; simpl; [reflexivity|]. now rewrite Hx. }
  rewrite Hnone; [now rewrite List.app_nil_r|].
  rewrite List.Forall_forall. intros x Hx.
  apply In_firstn, sort_desc_In, List.filter_In in Hx as [_ Hx].
  now apply Bool.negb_true_iff.
Qed.
End FilterFacts.

(** X15. The substantiality filter only drops candidates that are not
    substantial: its result together with the dropped candidates is a
    rearrangement of the retrieved list, so nothing is invented or
    duplicated, and the substantial candidates of the result are those of
    the retrieved list, in the same order. *)
Theorem X15_substantiality_filter_partition (results : list PR) :
  exists dropped,
    Permutation (ExpertFinder.substantiality_filter results ++ dropped) results
    /\ Forall (fun c => Spec.substantial c = false) dropped
    /\ List.filter Spec.substantial (ExpertFinder.substantiality_filter results)
       = List.filter Spec.substantial results
    /\ (length (ExpertFinder.substantiality_filter results) <= length results)%nat.
Proof.
  destruct (substantiality_filter_partition results) as (dropped & Hperm & Hdrop).
  exists dropped. split; [exact Hperm|]. split; [exact Hdrop|].
  split; [apply substantiality_filter_keeps_substantial|].
  rewrite <- (Permutation_length Hperm), List.length_app. lia.
Qed.

Section FindExpertsFacts.
Import ExpertFinder.

Lemma slice_to_firstn {A : Type} (n : Z) (l : list A) :
  exists k, slice_to n l = firstn k l.
Proof. unfold slice_to. destruct (0 <=? n)%Z; eauto. Qed.

Lemma slice_to_len {A : Type} (n : Z) (l : list A) :
  (0 <= n)%Z -> (len (slice_to n l) <= n)%Z.
Proof.
  intros Hn. unfold slice_to.
  destruct (Z.leb_spec 0 n) as [_|Hlt]; [|lia].
  pose proof (List.firstn_le_length (Z.to_nat n) l). unfold len. lia.
Qed.

Lemma descending_firstn {A : Type} (lt : A -> A -> bool) (k : nat) (l : list A) :
  descending lt l -> descending lt (firstn k l).
Proof.
  unfold descending. intros H. revert k.
  induction H as [|x l Hl IH Hx]; intros [|k]; simpl; try constructor.
  - apply IH.
  - rewrite List.Forall_forall in *. intros y Hy. apply Hx.
    now apply In_firstn in Hy.
Qed.

Lemma NoDup_map_firstn {A B : Type} (g : A -> B) (k : nat) (l : list A) :
  List.NoDup (map g l) -> List.NoDup (map g (firstn k l)).
Proof.
  revert k. induction l as [|x l IH]; intros [|k] H; simpl; try constructor.
  - inversion H as [|? ? Hnotin _]; subst. intros Hin. apply Hnotin.
    apply List.in_map_iff in Hin as (y & Hy & Hin).
    apply List.in_map_iff. exists y. split; [exact Hy | now apply In_firstn in Hin].
  - apply IH. now inversion H.
Qed.

Lemma authors_have_candidates (prs : list PR) (a : string) :
  In a (Spec.authors prs) -> Exists (fun pr => pr_author pr = Some a) prs.
Proof.
  unfold Spec.authors. rewrite distinct_In, List.in_flat_map.
  intros (pr & Hpr & Hin). apply List.Exists_exists. exists pr.
  split; [exact Hpr|]. unfold Spec.named in Hin.
  destruct (pr_author pr) as [b|]; [|contradiction].
  destruct (String.eqb b ""); [contradiction|]. now destruct Hin as [->|[]].
Qed.
End FindExpertsFacts.

Lemma rank_experts_shape (now : Z) (decay : Z -> res Q) (prs : list PR) (rw : Q) :
  exists experts,
    ExpertFinder._rank_experts now decay prs rw = Ok experts
    /\ descending (by_keyQ ExpertFinder.score) experts
    /\ List.NoDup (map ExpertFinder.author experts)
    /\ Forall (fun e => In (ExpertFinder.author e) (Spec.authors prs)) experts.
Proof.
  destruct (ranking_Forall now decay prs rw
              (fun e => In (ExpertFinder.author e) (Spec.authors prs)))
    as (profiles & _ & Hrank & Hauthors & _ & HF).
  { intros a e Ha He. now apply score_author_fields in He as (-> & _). }
  eexists. split; [exact Hrank|]. split; [|split; [|exact HF]].
  - apply filter_experts_descending, sort_desc_by_keyQ_descending.
  - apply filter_experts_NoDup.
    apply (Permutation_NoDup
             (Permutation_map ExpertFinder.author
                (Permutation_sym (sort_desc_perm _ profiles)))).
    rewrite Hauthors. apply distinct_NoDup.
Qed.

(** X16. [find_experts] raises exactly when the vector search raises, and
    then with the exception of the search; a failed embedding never makes
    it raise.  When the search returns candidates, the result holds at most
    [top_n] profiles (for a non-negative [top_n]), ordered by final score,
    no author twice, and every profile is the profile of an author of at
    least one retrieved candidate; no candidates give no profiles. *)
Theorem X16_find_experts_contract (now : Z) (decay : Z -> res Q)
    (dimension : nat) (encode : string -> res (list Q))
    (db_search : list Q -> Z -> option (list string) -> option string -> res (list PR))
    (cache : gmap string (list Q)) (query : string) (top_n : Z)
    (tech_filter : option (list string)) (repo_filter : option string)
    (recency_weight : Q) :
  match db_search (fst (ExpertFinder.generate_embedding dimension encode cache query))
          config.TOP_K_RESULTS tech_filter repo_filter with
  | Raise e =>
      fst (ExpertFinder.find_experts now decay dimension encode db_search cache
             query top_n tech_filter repo_filter recency_weight) = Raise e
  | Ok results =>
      exists experts,
        fst (ExpertFinder.find_experts now decay dimension encode db_search cache
               query top_n tech_filter repo_filter recency_weight) = Ok experts
        /\ ((top_n < 0)%Z \/ (len experts <= top_n)%Z)
        /\ descending (by_keyQ ExpertFinder.score) experts
        /\ List.NoDup (map ExpertFinder.author experts)
        /\ Forall (fun e =>
             Exists (fun pr => pr_author pr = Some (ExpertFinder.author e)) results)
             experts
        /\ (results <> [] \/ experts = [])
  end.
Proof.
  rewrite find_experts_value.
  destruct (db_search _ config.TOP_K_RESULTS tech_filter repo_filter)
    as [results|e]; [|reflexivity].
  set (kept := ExpertFinder.substantiality_filter
                 (sort_desc (by_keyQ pr_similarity_score) results)).
  destruct (rank_experts_shape now decay kept recency_weight)
    as (full & Hrank & Hsorted & Hnodup & Hauthors).
  rewrite Hrank. exists (slice_to top_n full). split; [reflexivity|].
  destruct (slice_to_firstn top_n full) as [k Hk].
  split.
  { destruct (Z.ltb_spec top_n 0) as [Hneg|Hpos]; [now left | right].
    now apply slice_to_len. }
  rewrite Hk.
  split; [now apply descending_firstn|].
  split; [now apply NoDup_map_firstn|].
  split.
  - rewrite List.Forall_forall in *. intros e He.
    apply In_firstn in He. apply Hauthors, authors_have_candidates in He.
    apply List.Exists_exists in He as (pr & Hpr & Ha).
    apply List.Exists_exists. exists pr. split; [|exact Ha].
    apply substantiality_filter_incl in Hpr.
    now apply sort_desc_In in Hpr.
  - destruct results as [|r results]; [right | left; discriminate].
    subst kept. simpl in Hrank. injection Hrank as <-.
    now destruct k.
Qed.

(** * Further properties of the embedder *)

(** X17. The embedding cache of [generate_embedding] only grows: no entry
    is ever changed or removed.  A vector obtained from the cache or from
    a provider call that succeeded is in the cache afterwards, and every
    later call for the same text returns it and leaves the cache alone,
    whatever the provider does then.  The zero vector of a failed call is
    not stored, so the next call asks the provider again. *)
Theorem X17_embedding_cache (dimension : nat) (encode : string -> res (list Q))
    (cache : gmap string (list Q)) (text : string) :
  let r := ExpertFinder.generate_embedding dimension encode cache text in
  (forall t v, cache !! t = Some v -> snd r !! t = Some v)
  /\ match cache !! text, encode text with
     | None, Raise _ => r = (repeat 0.0%Q dimension, cache)
     | _, _ =>
         snd r !! text = Some (fst r)
         /\ forall encode',
              ExpertFinder.generate_embedding dimension encode' (snd r) text = r
     end.
Proof.
  intros r. subst r. unfold ExpertFinder.generate_embedding.
  destruct (cache !! text) as [v0|] eqn:Hc.
  - split; [auto|]. simpl.
    assert (H : v0 = v0 /\ forall encode' : string -> res (list Q),
                  match cache !! text with
                  | Some embedding => (embedding, cache)
                  | None =>
                      match encode' text with
                      | Ok embedding => (embedding, <[text:=embedding]> cache)
                      | Raise _ => (repeat 0.0%Q dimension, cache)
                      end
                  end = (v0, cache)) by (split; [reflexivity | now rewrite Hc]).
    destruct (encode text); (split; [exact Hc | apply H]).
  - destruct (encode text) as [v1|e]; simpl.
    + split.
      * intros t v Ht. rewrite lookup_insert_ne; [exact Ht | congruence].
      * split; [apply lookup_insert_eq|]. intros encode'.
        now rewrite lookup_insert_eq.
    + split; [auto | reflexivity].
Qed.

(** * Further properties: embedding in batches *)

Section ListFacts.
Context {A : Type}.

Lemma insert_at_end (P L : list A) (x : A) :
  PREmbedder.insert_at (length P) x (P ++ L) = P ++ x :: L.
Proof.
  unfold PREmbedder.insert_at.
  induction P as [|p P IH]; simpl; [reflexivity|].
  now rewrite IH.
Qed.

Lemma skipn_cons_nth (l : list A) :
  forall j x rest, skipn j l = x :: rest ->
    nth_error l j = Some x /\ skipn (S j) l = rest.
Proof.
  induction l as [|a l IH]; intros j x rest H.
  - destruct j; discriminate.
  - destruct j as [|j].
    + simpl in H. injection H as -> ->. now split.
    + simpl in H. apply IH in H. exact H.
Qed.

Lemma firstn_firstn_skipn (l : list A) :
  forall a b, firstn a l ++ firstn b (skipn a l) = firstn (a + b) l.
Proof.
  induction l as [|x l IH]; intros a b.
  - now rewrite skipn_nil, !firstn_nil.
  - destruct a as [|a]; simpl; [reflexivity|]. now rewrite IH.
Qed.
End ListFacts.

Section Ranges.
Context {A : Type}.

Lemma range_batches_firstn (l : list A) (n m : nat) :
  concat (map (fun i => firstn n (skipn i l)) (map (fun k => k * n)%nat (seq 0 m)))
  = firstn (m * n) l.
Proof.
  induction m as [|m IH]; [reflexivity|].
  rewrite seq_S, !map_app, concat_app, IH. simpl.
  rewrite List.app_nil_r, firstn_firstn_skipn.
  f_equal. lia.
Qed.

Lemma range_batches (l : list A) (n : nat) :
  (0 < n)%nat ->
  concat (map (fun i => firstn n (skipn i l)) (PREmbedder.range_step (length l) n)) = l.
Proof.
  intros Hn. unfold PREmbedder.range_step.
  rewrite range_batches_firstn. apply firstn_all2.
  pose proof (Nat.div_mod_eq (length l + n - 1) n) as Hd.
  pose proof (Nat.mod_upper_bound (length l + n - 1) n) as Hm.
  nia.
Qed.
End Ranges.

Abbreviation store_vector :=
  (fun (c : gmap string (list Q)) (p : string * list Q) => <[fst p := snd p]> c).
Abbreviation insert_vector :=
  (fun (l : list (list Q)) (p : nat * list Q) => PREmbedder.insert_at (fst p) (snd p) l).

Section BatchFacts.
Variable dimension : nat.
Variable encode_batch : list string -> res (list (list Q)).

Lemma check_cache_fold (c : gmap string (list Q)) (batch : list string) :
  forall k be ut ui,
    fold_left (PREmbedder.check_step c) (combine (seq k (length batch)) batch)
      (be, ut, ui)
    = (be ++ Props.hits c batch, ut ++ Props.misses c batch,
       ui ++ Props.miss_positions c k batch).
Proof.
  induction batch as [|t b IH]; intros k be ut ui; simpl.
  - now rewrite !List.app_nil_r.
  - destruct (c !! t) eqn:Ht; rewrite IH, <- ?List.app_assoc; reflexivity.
Qed.

Lemma check_cache_spec (c : gmap string (list Q)) (batch : list string) :
  PREmbedder.check_cache c batch
  = (Props.hits c batch, Props.misses c batch, Props.miss_positions c 0 batch).
Proof.
  unfold PREmbedder.check_cache, PREmbedder.enumerate.
  now rewrite check_cache_fold.
Qed.

Lemma miss_positions_length (c : gmap string (list Q)) (b : list string) :
  forall k, length (Props.miss_positions c k b) = length (Props.misses c b).
Proof.
  induction b as [|t b IH]; intros k; simpl; [reflexivity|].
  destruct (c !! t); simpl; now rewrite IH.
Qed.

Lemma miss_positions_ge (c : gmap string (list Q)) (b : list string) :
  forall k idx, In idx (Props.miss_positions c k b) -> (k <= idx)%nat.
Proof.
  induction b as [|t b IH]; intros k idx H; simpl in H; [contradiction|].
  destruct (c !! t).
  - apply IH in H. lia.
  - destruct H as [H|H]; [lia|]. apply IH in H. lia.
Qed.

Lemma miss_positions_NoDup (c : gmap string (list Q)) (b : list string) :
  forall k, List.NoDup (Props.miss_positions c k b).
Proof.
  induction b as [|t b IH]; intros k; simpl; [constructor|].
  destruct (c !! t); [apply IH|].
  constructor; [|apply IH].
  intros H. apply miss_positions_ge in H. lia.
Qed.

Lemma misses_In (c : gmap string (list Q)) (b : list string) (t : string) :
  In t (Props.misses c b) <-> In t b /\ c !! t = None.
Proof.
  induction b as [|x b IH]; simpl; [tauto|].
  destruct (c !! x) eqn:Hx; simpl; rewrite IH; split.
  - intros [H1 H2]. auto.
  - intros [[H1|H1] H2]; [subst; congruence | auto].
  - intros [H|[H1 H2]]; [subst; auto | auto].
  - intros [[H1|H1] H2]; auto.
Qed.

Lemma index_nth (ui : list nat) :
  List.NoDup ui ->
  forall j idx, nth_error ui j = Some idx -> PREmbedder.index idx ui = Some j.
Proof.
  induction 1 as [|x l Hx _ IH]; intros j idx Hj.
  - destruct j; discriminate.
  - destruct j as [|j]; simpl in Hj.
    + injection Hj as ->. simpl. now rewrite Nat.eqb_refl.
    + simpl. destruct (Nat.eqb_spec idx x) as [->|_].
      * exfalso. apply Hx. eapply nth_error_In. exact Hj.
      * now rewrite (IH _ _ Hj).
Qed.

Lemma store_new_run (ut : list string) (ui : list nat) :
  List.NoDup ui -> length ut = length ui ->
  forall news j c be,
    PREmbedder.store_new ut ui (combine (skipn j ui) news) (c, be)
    = (Ok tt, (fold_left store_vector (combine (skipn j ut) news) c,
               fold_left insert_vector (combine (skipn j ui) news) be)).
Proof.
  intros Hnd Hlen news.
  induction news as [|e news IH]; intros j c be.
  - now rewrite !combine_nil.
  - destruct (skipn j ui) as [|idx rest] eqn:Hui.
    + assert (Hut : skipn j ut = []).
      { apply length_zero_iff_nil.
        rewrite length_skipn, Hlen, <- length_skipn, Hui. reflexivity. }
      now rewrite Hut.
    + destruct (skipn j ut) as [|t rest_t] eqn:Hut.
      { exfalso. apply (f_equal (@length _)) in Hui, Hut.
        rewrite length_skipn in Hui, Hut. simpl in Hui, Hut. lia. }
      apply skipn_cons_nth in Hui as [Hidx Hrest].
      apply skipn_cons_nth in Hut as [Ht Hrest_t].
      simpl. unfold bind, lift, modify, PREmbedder.item.
      rewrite (index_nth ui Hnd _ _ Hidx), Ht. simpl.
      rewrite <- Hrest, <- Hrest_t. apply IH.
Qed.

Lemma fill_zeros_run (ui : list nat) :
  forall (ts : list string) c be, length ts = length ui ->
    PREmbedder.fill_zeros dimension ui (c, be)
    = (Ok tt, (c, fold_left insert_vector
                    (combine ui (map (fun _ => repeat 0.0%Q dimension) ts)) be)).
Proof.
  induction ui as [|idx ui IH]; intros ts c be Hlen.
  - reflexivity.
  - destruct ts as [|t ts]; [discriminate|].
    simpl. unfold bind, modify. simpl. apply IH. simpl in Hlen. lia.
Qed.

Lemma insert_fold (c : gmap string (list Q)) (g : string -> list Q) (b : list string) :
  forall P,
    fold_left insert_vector
      (combine (Props.miss_positions c (length P) b) (map g (Props.misses c b)))
      (P ++ Props.hits c b)
    = P ++ map (Props.vector_of c g) b.
Proof.
  induction b as [|t b IH]; intros P; simpl; [reflexivity|].
  unfold Props.vector_of at 1.
  destruct (c !! t) as [e|] eqn:Ht; simpl.
  - specialize (IH (P ++ [e])).
    rewrite length_app, Nat.add_1_r, <- !List.app_assoc in IH. exact IH.
  - rewrite insert_at_end.
    specialize (IH (P ++ [g t])).
    rewrite length_app, Nat.add_1_r, <- !List.app_assoc in IH. exact IH.
Qed.

Lemma store_fold_lookup (g : string -> list Q) (ts : list string) :
  forall c t,
    fold_left store_vector (combine ts (map g ts)) c !! t
    = if in_dec string_dec t ts then Some (g t) else c !! t.
Proof.
  induction ts as [|a ts IH]; intros c t; [reflexivity|].
  simpl fold_left. rewrite IH.
  destruct (in_dec string_dec t ts) as [Hin|Hout];
    destruct (in_dec string_dec t (a :: ts)) as [Hin'|Hout']; simpl.
  - reflexivity.
  - exfalso. apply Hout'. now right.
  - destruct Hin' as [->|H]; [apply lookup_insert_eq | contradiction].
  - apply lookup_insert_ne. intros ->. apply Hout'. now left.
Qed.

(** One batch whose provider call succeeds with the vectors [g]. *)
Lemma embed_batch_ok (g : string -> list Q) (b : list string)
    (c : gmap string (list Q)) :
  encode_batch (Props.misses c b) = Ok (map g (Props.misses c b)) ->
  PREmbedder.embed_batch dimension encode_batch b c
  = (map (Props.vector_of c g) b,
     fold_left store_vector
       (combine (Props.misses c b) (map g (Props.misses c b))) c).
Proof.
  intros Hok. unfold PREmbedder.embed_batch. rewrite check_cache_spec.
  pose proof (insert_fold c g b []) as Hins. simpl in Hins.
  destruct (Props.misses c b) as [|t ts] eqn:Hm.
  - rewrite combine_nil in Hins. simpl in Hins. now rewrite Hins.
  - rewrite <- Hm in *. unfold try_except, bind, lift. rewrite Hok.
    pose proof (store_new_run (Props.misses c b) (Props.miss_positions c 0 b)
                  (miss_positions_NoDup c b 0)
                  (eq_sym (miss_positions_length c b 0))
                  (map g (Props.misses c b)) 0 c (Props.hits c b)) as Hrun.
    rewrite !skipn_O in Hrun. rewrite Hrun. simpl. now rewrite Hins.
Qed.

(** One batch whose provider call raises. *)
Lemma embed_batch_failure (e : exn) (b : list string) (c : gmap string (list Q)) :
  encode_batch (Props.misses c b) = Raise e ->
  PREmbedder.embed_batch dimension encode_batch b c
  = (map (Props.vector_of c (fun _ => repeat 0.0%Q dimension)) b, c).
Proof.
  intros Hfail. unfold PREmbedder.embed_batch. rewrite check_cache_spec.
  pose proof (insert_fold c (fun _ => repeat 0.0%Q dimension) b []) as Hins.
  simpl in Hins.
  destruct (Props.misses c b) as [|t ts] eqn:Hm.
  - rewrite combine_nil in Hins. simpl in Hins. now rewrite Hins.
  - rewrite <- Hm in *. unfold try_except, bind, lift. rewrite Hfail.
    rewrite (fill_zeros_run _ (Props.misses c b))
      by (symmetry; apply miss_positions_length).
    simpl. now rewrite Hins.
Qed.
End BatchFacts.

Abbreviation batch_turn dimension encode_batch texts n :=
  (fun (acc : list (list Q) * gmap string (list Q)) (i : nat) =>
     (fst acc ++ fst (PREmbedder.embed_batch dimension encode_batch
                        (firstn n (skipn i texts)) (snd acc)),
      snd (PREmbedder.embed_batch dimension encode_batch
             (firstn n (skipn i texts)) (snd acc)))).

Section BatchRuns.
Variable dimension : nat.
Variable encode_batch : list string -> res (list (list Q)).
Variable cache : gmap string (list Q).

Lemma grown_vector_of (enc : string -> list Q) (seen : list string)
    (c : gmap string (list Q)) :
  Props.grown cache enc seen c ->
  forall t, Props.vector_of c enc t = Props.vector_of cache enc t.
Proof.
  intros Hc t. unfold Props.vector_of at 1. rewrite (Hc t).
  destruct (in_dec string_dec t seen); reflexivity.
Qed.

Lemma grown_step (enc : string -> list Q) (seen b : list string)
    (c : gmap string (list Q)) :
  Props.grown cache enc seen c ->
  Props.grown cache enc (seen ++ b)
    (fold_left store_vector
       (combine (Props.misses c b) (map enc (Props.misses c b))) c).
Proof.
  intros Hc t. rewrite store_fold_lookup.
  pose proof (Hc t) as Ht.
  destruct (in_dec string_dec t (Props.misses c b)) as [Hm|Hm].
  - apply misses_In in Hm as [Hb Hnone].
    destruct (in_dec string_dec t (seen ++ b)) as [_|Hout];
      [|exfalso; apply Hout, in_or_app; now right].
    rewrite Hnone in Ht.
    destruct (in_dec string_dec t seen); [discriminate|].
    unfold Props.vector_of. now rewrite <- Ht.
  - rewrite Ht.
    destruct (in_dec string_dec t seen) as [Hs|Hs];
      destruct (in_dec string_dec t (seen ++ b)) as [Hsb|Hsb];
      try reflexivity.
    + exfalso. apply Hsb, in_or_app. now left.
    + apply in_app_or in Hsb as [Hsb|Hsb]; [contradiction|].
      destruct (cache !! t) as [v|] eqn:Hv.
      * unfold Props.vector_of. now rewrite Hv.
      * exfalso. apply Hm, misses_In. split; [exact Hsb|].
        rewrite Ht. destruct (in_dec string_dec t seen); [contradiction|reflexivity].
Qed.

Lemma batches_ok (enc : string -> list Q) (texts : list string) (n : nat) :
  (forall ts, encode_batch ts = Ok (map enc ts)) ->
  forall idxs E seen c,
    Props.grown cache enc seen c ->
    fst (fold_left (batch_turn dimension encode_batch texts n) idxs (E, c))
    = E ++ map (Props.vector_of cache enc)
             (concat (map (fun i => firstn n (skipn i texts)) idxs))
    /\ Props.grown cache enc
         (seen ++ concat (map (fun i => firstn n (skipn i texts)) idxs))
         (snd (fold_left (batch_turn dimension encode_batch texts n) idxs (E, c))).
Proof.
  intros Hok idxs.
  induction idxs as [|i idxs IH]; intros E seen c Hc; simpl.
  - rewrite !List.app_nil_r. now split.
  - rewrite (embed_batch_ok dimension encode_batch enc) by apply Hok.
    simpl fst. simpl snd.
    destruct (IH (E ++ map (Props.vector_of c enc) (firstn n (skipn i texts)))
                (seen ++ firstn n (skipn i texts)) _
                (grown_step enc seen (firstn n (skipn i texts)) c Hc))
      as [IH1 IH2].
    split.
    + rewrite IH1, <- List.app_assoc, map_app. do 2 f_equal.
      apply map_ext. intros t. now apply (grown_vector_of enc seen).
    + now rewrite List.app_assoc.
Qed.

(** The whole run for a provider that embeds every text on its own. *)
Lemma generate_embeddings_batch_ok (enc : string -> list Q) (texts : list string)
    (batch_size : positive) :
  (forall ts, encode_batch ts = Ok (map enc ts)) ->
  fst (PREmbedder.generate_embeddings_batch dimension encode_batch texts
         batch_size cache)
  = map (Props.vector_of cache enc) texts
  /\ Props.grown cache enc texts
       (snd (PREmbedder.generate_embeddings_batch dimension encode_batch texts
               batch_size cache)).
Proof.
  intros Hok. unfold PREmbedder.generate_embeddings_batch.
  assert (H0 : Props.grown cache enc [] cache) by (intros t; reflexivity).
  destruct (batches_ok enc texts (Pos.to_nat batch_size) Hok
              (PREmbedder.range_step (length texts) (Pos.to_nat batch_size))
              [] [] cache H0) as [H1 H2].
  rewrite range_batches in H1, H2 by lia.
  split; [exact H1 | exact H2].
Qed.

Lemma batches_failure (texts : list string) (n : nat) :
  (forall ts, exists e, encode_batch ts = Raise e) ->
  forall idxs E,
    fold_left (batch_turn dimension encode_batch texts n) idxs (E, cache)
    = (E ++ map (Props.vector_of cache (fun _ => repeat 0.0%Q dimension))
              (concat (map (fun i => firstn n (skipn i texts)) idxs)),
       cache).
Proof.
  intros Hfail idxs.
  induction idxs as [|i idxs IH]; intros E; simpl.
  - now rewrite List.app_nil_r.
  - destruct (Hfail (Props.misses cache (firstn n (skipn i texts)))) as [e He].
    rewrite (embed_batch_failure dimension encode_batch e _ _ He).
    simpl fst. simpl snd. rewrite IH, <- List.app_assoc, map_app. reflexivity.
Qed.
End BatchRuns.

(** X18. [generate_embeddings_batch] with a provider that embeds every
    text on its own returns one vector per text, in the order of the
    texts, whatever the batch size: the cached vector of a text that is in
    the cache, the vector of the provider otherwise.  Afterwards the cache
    holds exactly this vector for every text of the input, and is
    unchanged elsewhere. *)
Theorem X18_batch_embeddings (dimension : nat)
    (encode_batch : list string -> res (list (list Q))) (enc : string -> list Q)
    (texts : list string) (batch_size : positive) (cache : gmap string (list Q)) :
  (forall ts, encode_batch ts = Ok (map enc ts)) ->
  let r := PREmbedder.generate_embeddings_batch dimension encode_batch texts
             batch_size cache in
  fst r = map (fun text => get (cache !! text) (enc text)) texts
  /\ (forall text, In text texts ->
        snd r !! text = Some (get (cache !! text) (enc text)))
  /\ (forall text, ~ In text texts -> snd r !! text = cache !! text).
Proof.
  intros Hok r. subst r.
  destruct (generate_embeddings_batch_ok dimension encode_batch cache enc texts
              batch_size Hok) as [Hvec Hcache].
  split; [exact Hvec|]. split; intros text Hin; rewrite (Hcache text);
    destruct (in_dec string_dec text texts); try reflexivity; contradiction.
Qed.

Lemma X18_batch_embeddings_witness :
  fst (PREmbedder.generate_embeddings_batch 2
         (fun ts => Ok (map (fun t => [inject_Z (Z.of_nat (String.length t)); 1%Q]) ts))
         ["a"; "bb"; "a"; "ccc"; "dd"]%string 2
         (<["bb"%string := [7%Q; 7%Q]]> ∅))
  = [[1%Q; 1%Q]; [7%Q; 7%Q]; [1%Q; 1%Q]; [3%Q; 1%Q]; [2%Q; 1%Q]].
Proof.
  refine (proj1 (X18_batch_embeddings 2 _
                   (fun t => [inject_Z (Z.of_nat (String.length t)); 1%Q])
                   _ 2 _ _)).
  intros ts. reflexivity.
Defined.

(** X19. A provider that fails does not make [generate_embeddings_batch]
    raise, and costs no position: the result still holds one vector per
    text, in order, the cached vector where the text is cached and a zero
    vector of the configured dimension elsewhere, and the cache is left
    as it was (no zero vector is stored). *)
Theorem X19_batch_provider_failure (dimension : nat)
    (encode_batch : list string -> res (list (list Q)))
    (texts : list string) (batch_size : positive) (cache : gmap string (list Q)) :
  (forall ts, exists e, encode_batch ts = Raise e) ->
  PREmbedder.generate_embeddings_batch dimension encode_batch texts batch_size cache
  = (map (fun text => get (cache !! text) (repeat 0.0%Q dimension)) texts, cache).
Proof.
  intros Hfail. unfold PREmbedder.generate_embeddings_batch.
  rewrite (batches_failure dimension encode_batch cache texts _ Hfail).
  rewrite range_batches by lia. reflexivity.
Qed.

Lemma X19_batch_provider_failure_witness :
  PREmbedder.generate_embeddings_batch 2 (fun _ => Raise (ProviderError "down"))
    ["a"; "bb"; "ccc"]%string 2 (<["bb"%string := [7%Q; 7%Q]]> ∅)
  = ([[0.0%Q; 0.0%Q]; [7%Q; 7%Q]; [0.0%Q; 0.0%Q]], <["bb"%string := [7%Q; 7%Q]]> ∅).
Proof.
  apply (X19_batch_provider_failure 2 (fun _ => Raise (ProviderError "down"))).
  intros ts. eexists. reflexivity.
Defined.

Section FlakyProvider.
Variable dimension : nat.
Variable encode_batch : list string -> res (list (list Q)).
Variable enc : string -> list Q.
Variable cache : gmap string (list Q).
Hypothesis provider :
  forall ts, encode_batch ts = Ok (map enc ts) \/ exists e, encode_batch ts = Raise e.

Abbreviation served :=
  (fun (text : string) (v : list Q) =>
     v = get (cache !! text) (enc text)
     \/ (cache !! text = None /\ v = repeat 0.0%Q dimension)).

Lemma Forall2_map_pointwise {A B : Type} (R : A -> B -> Prop) (f : A -> B)
    (l : list A) :
  (forall a, R a (f a)) -> Forall2 R l (map f l).
Proof.
  intros H. induction l; simpl; constructor; auto.
Qed.

Lemma extends_vector (seen : list string) (c : gmap string (list Q))
    (fresh : string -> list Q) (t : string) :
  Props.extends cache enc seen c ->
  (Props.vector_of c fresh t = get (cache !! t) (enc t))
  \/ (cache !! t = None /\ Props.vector_of c fresh t = fresh t).
Proof.
  intros [Hkeep Hnew]. unfold Props.vector_of.
  destruct (c !! t) as [v|] eqn:Hc; simpl.
  - left. destruct (cache !! t) as [v'|] eqn:Hv; simpl.
    + apply Hkeep in Hv. congruence.
    + now apply (Hnew t v Hc).
  - right. split; [|reflexivity].
    destruct (cache !! t) as [v'|] eqn:Hv; [|reflexivity].
    apply Hkeep in Hv. congruence.
Qed.

Lemma extends_batch (seen b : list string) (c : gmap string (list Q)) :
  Props.extends cache enc seen c ->
  Forall2 served b (fst (PREmbedder.embed_batch dimension encode_batch b c))
  /\ Props.extends cache enc (seen ++ b)
       (snd (PREmbedder.embed_batch dimension encode_batch b c)).
Proof.
  intros Hc. destruct (provider (Props.misses c b)) as [Hok|[e Hfail]].
  - rewrite (embed_batch_ok dimension encode_batch enc b c Hok). simpl. split.
    + apply Forall2_map_pointwise. intros t.
      destruct (extends_vector seen c enc t Hc) as [H|[_ H]]; left; [exact H|].
      rewrite H. destruct (extends_vector seen c enc t Hc) as [H'|[H' _]].
      * congruence.
      * now rewrite H'.
    + destruct Hc as [Hkeep Hnew]. split.
      * intros t v Hv. rewrite store_fold_lookup.
        destruct (in_dec string_dec t (Props.misses c b)) as [Hm|_];
          [|now apply Hkeep].
        apply misses_In in Hm as [_ Hm]. apply Hkeep in Hv. congruence.
      * intros t v Hv Hnone. rewrite store_fold_lookup in Hv.
        destruct (in_dec string_dec t (Props.misses c b)) as [Hm|_].
        -- apply misses_In in Hm as [Hb _]. split; [congruence|].
           apply in_or_app. now right.
        -- destruct (Hnew t v Hv Hnone) as [H1 H2]. split; [exact H1|].
           apply in_or_app. now left.
  - rewrite (embed_batch_failure dimension encode_batch e b c Hfail). simpl. split.
    + apply Forall2_map_pointwise. intros t.
      destruct (extends_vector seen c (fun _ => repeat 0.0%Q dimension) t Hc)
        as [H|[H1 H2]]; [left; exact H | right; now split].
    + destruct Hc as [Hkeep Hnew]. split; [exact Hkeep|].
      intros t v Hv Hnone. destruct (Hnew t v Hv Hnone) as [H1 H2].
      split; [exact H1|]. apply in_or_app. now left.
Qed.

Lemma batches_flaky (texts : list string) (n : nat) :
  forall idxs pre E seen c,
    Props.extends cache enc seen c ->
    Forall2 served pre E ->
    Forall2 served (pre ++ concat (map (fun i => firstn n (skipn i texts)) idxs))
      (fst (fold_left (batch_turn dimension encode_batch texts n) idxs (E, c)))
    /\ Props.extends cache enc
         (seen ++ concat (map (fun i => firstn n (skipn i texts)) idxs))
         (snd (fold_left (batch_turn dimension encode_batch texts n) idxs (E, c))).
Proof.
  induction idxs as [|i idxs IH]; intros pre E seen c Hc HE; simpl.
  - rewrite !List.app_nil_r. now split.
  - destruct (extends_batch seen (firstn n (skipn i texts)) c Hc) as [Hb Hc'].
    destruct (IH (pre ++ firstn n (skipn i texts)) _ _ _ Hc'
                (Forall2_app HE Hb)) as [IH1 IH2].
    rewrite <- !List.app_assoc in IH1, IH2. now split.
Qed.
End FlakyProvider.

(** X20. With a provider that may fail on any of its calls,
    [generate_embeddings_batch] still returns one vector per text, in
    order: the cached vector of a text that was in the cache; for another
    text either the vector of the provider or, where a call failed, a zero
    vector.  The cache keeps every entry it had, and every entry it gains
    is the provider's vector of a text of the input: a zero vector that
    stands for a failure is never stored. *)
Theorem X20_batch_flaky_provider (dimension : nat)
    (encode_batch : list string -> res (list (list Q))) (enc : string -> list Q)
    (texts : list string) (batch_size : positive) (cache : gmap string (list Q)) :
  (forall ts, encode_batch ts = Ok (map enc ts) \/ exists e, encode_batch ts = Raise e) ->
  let r := PREmbedder.generate_embeddings_batch dimension encode_batch texts
             batch_size cache in
  Forall2 (fun text v =>
             v = get (cache !! text) (enc text)
             \/ (cache !! text = None /\ v = repeat 0.0%Q dimension))
    texts (fst r)
  /\ (forall text v, cache !! text = Some v -> snd r !! text = Some v)
  /\ (forall text v, snd r !! text = Some v -> cache !! text = None ->
        v = enc text /\ In text texts).
Proof.
  intros Hprov r. subst r. unfold PREmbedder.generate_embeddings_batch.
  assert (H0 : Props.extends cache enc [] cache).
  { split; [auto|]. intros t v Hv Hnone. congruence. }
  destruct (batches_flaky dimension encode_batch enc cache Hprov texts
              (Pos.to_nat batch_size)
              (PREmbedder.range_step (length texts) (Pos.to_nat batch_size))
              [] [] [] cache H0 (List.Forall2_nil _)) as [H1 [H2 H3]].
  simpl in H1, H3. rewrite range_batches in H1, H3 by lia.
  split; [exact H1|]. split; [exact H2 | exact H3].
Qed.

Lemma X20_batch_flaky_provider_witness :
  Forall2 (fun text v =>
             v = get ((∅ : gmap string (list Q)) !! text) [1%Q]
             \/ ((∅ : gmap string (list Q)) !! text = None /\ v = repeat 0.0%Q 1))
    ["a"; "bb"; "ccc"]%string
    (fst (PREmbedder.generate_embeddings_batch 1
            (fun ts => match ts with
                       | [_] => Raise (ProviderError "down")
                       | _ => Ok (map (fun _ => [1%Q]) ts)
                       end)
            ["a"; "bb"; "ccc"]%string 2 ∅)).
Proof.
  refine (proj1 (X20_batch_flaky_provider 1 _ (fun _ => [1%Q]) _ 2 ∅ _)).
  intros ts.
  destruct ts as [|t [|t' ts]];
    [left; reflexivity | right; eexists; reflexivity | left; reflexivity].
Defined.

(** * Further properties: [embed_prs] *)

Section EmbedPrs.
Variable dimension : nat.
Variable encode_batch : list string -> res (list (list Q)).
Variable text_of : PR -> string.

Lemma nth_error_middle {A : Type} (pre rest : list A) (x : A) :
  nth_error (pre ++ x :: rest) (length pre) = Some x.
Proof.
  induction pre as [|a pre IH]; simpl; [reflexivity | exact IH].
Qed.

Lemma select_fold (prs : list PR) :
  forall k texts valid,
    fold_left (PREmbedder.select_step text_of) (combine (seq k (length prs)) prs)
      (texts, valid)
    = (texts ++ map text_of (List.filter (Props.has_text text_of) prs),
       valid ++ Props.valid_positions text_of k prs).
Proof.
  induction prs as [|pr prs IH]; intros k texts valid; simpl.
  - now rewrite !List.app_nil_r.
  - unfold Props.has_text at 1.
    destruct (String.eqb (text_of pr) ""); simpl; rewrite IH;
      rewrite <- ?List.app_assoc; reflexivity.
Qed.

Lemma embed_prs_unfold (prs : list PR) (cache : gmap string (list Q)) :
  PREmbedder.embed_prs dimension encode_batch text_of prs cache
  = (PREmbedder.attach prs
       (map text_of (List.filter (Props.has_text text_of) prs))
       (fst (PREmbedder.generate_embeddings_batch dimension encode_batch
               (map text_of (List.filter (Props.has_text text_of) prs))
               100 cache))
       (PREmbedder.enumerate (Props.valid_positions text_of 0 prs)) [],
     snd (PREmbedder.generate_embeddings_batch dimension encode_batch
            (map text_of (List.filter (Props.has_text text_of) prs))
            100 cache)).
Proof.
  unfold PREmbedder.embed_prs, PREmbedder.enumerate at 1.
  now rewrite select_fold.
Qed.

Lemma valid_positions_none (bad : list PR) :
  Forall (fun pr => text_of pr = ""%string) bad ->
  forall k, Props.valid_positions text_of k bad = []
            /\ List.filter (Props.has_text text_of) bad = [].
Proof.
  induction 1 as [|pr bad Hpr _ IH]; intros k; simpl; [now split|].
  unfold Props.has_text at 1. rewrite Hpr. simpl. apply IH.
Qed.

Lemma valid_positions_all (good bad : list PR) :
  Forall (fun pr => text_of pr <> ""%string) good ->
  Forall (fun pr => text_of pr = ""%string) bad ->
  forall k, Props.valid_positions text_of k (good ++ bad) = seq k (length good)
            /\ List.filter (Props.has_text text_of) (good ++ bad) = good.
Proof.
  intros Hgood Hbad.
  induction Hgood as [|pr good Hpr _ IH]; intros k; simpl.
  - now apply valid_positions_none.
  - unfold Props.has_text at 1.
    apply String.eqb_neq in Hpr. rewrite Hpr. simpl.
    destruct (IH (S k)) as [-> ->]. now split.
Qed.

Lemma attach_diagonal (f : PR -> string) (h : PR -> list Q) (bad : list PR) :
  forall good pre acc,
    PREmbedder.attach (pre ++ good ++ bad) (map f (pre ++ good))
      (map h (pre ++ good))
      (combine (seq (length pre) (length good)) (seq (length pre) (length good)))
      acc
    = Ok (acc ++ map (fun pr => PREmbedder.mkEmbedded pr (f pr) (h pr)) good).
Proof.
  induction good as [|p good IH]; intros pre acc; simpl.
  - now rewrite List.app_nil_r.
  - unfold PREmbedder.item.
    rewrite nth_error_middle.
    rewrite !map_app. simpl map.
    rewrite <- (length_map f pre) at 1. rewrite nth_error_middle.
    rewrite <- (length_map h pre) at 1. rewrite nth_error_middle.
    specialize (IH (pre ++ [p]) (acc ++ [PREmbedder.mkEmbedded p (f p) (h p)])).
    rewrite length_app, Nat.add_1_r, !map_app, <- !List.app_assoc in IH.
    simpl in IH. exact IH.
Qed.

Lemma attach_raises (prs : list PR) (texts : list string) (embeddings : list (list Q)) :
  forall pairs acc,
    Exists (fun p : nat * nat => (length texts <= snd p)%nat) pairs ->
    PREmbedder.attach prs texts embeddings pairs acc = Raise IndexError.
Proof.
  induction pairs as [|[pr_idx embedding_idx] pairs IH]; intros acc Hex.
  - inversion Hex.
  - simpl. unfold PREmbedder.item.
    destruct (nth_error prs pr_idx); [|reflexivity].
    destruct (nth_error texts embedding_idx) eqn:Ht; [|reflexivity].
    destruct (nth_error embeddings embedding_idx); [|reflexivity].
    apply IH. inversion Hex as [? ? Hhd|? ? Htl]; subst; [|exact Htl].
    exfalso. simpl in Hhd. apply nth_error_None in Hhd. congruence.
Qed.

Lemma enumerate_In {A : Type} (l : list A) (x : A) :
  In x l -> forall s, exists k, In (k, x) (combine (seq s (length l)) l).
Proof.
  induction l as [|a l IH]; intros Hin s; [contradiction|].
  destruct Hin as [->|Hin].
  - exists s. now left.
  - destruct (IH Hin (S s)) as [k Hk]. exists k. now right.
Qed.

Lemma valid_positions_app (l1 l2 : list PR) :
  forall k, Props.valid_positions text_of k (l1 ++ l2)
            = Props.valid_positions text_of k l1
              ++ Props.valid_positions text_of (k + length l1) l2.
Proof.
  induction l1 as [|pr l1 IH]; intros k; simpl.
  - now rewrite Nat.add_0_r.
  - rewrite IH, Nat.add_succ_r.
    destruct (String.eqb (text_of pr) ""); reflexivity.
Qed.

Lemma valid_positions_bounds (l : list PR) :
  forall k v, In v (Props.valid_positions text_of k l) ->
              (k <= v < k + length l)%nat.
Proof.
  induction l as [|pr l IH]; intros k v Hin; simpl in Hin; [contradiction|].
  simpl. destruct (String.eqb (text_of pr) "").
  - apply IH in Hin. lia.
  - destruct Hin as [<-|Hin]; [lia|]. apply IH in Hin. lia.
Qed.

Lemma valid_positions_NoDup (l : list PR) :
  forall k, List.NoDup (Props.valid_positions text_of k l).
Proof.
  induction l as [|pr l IH]; intros k; simpl; [constructor|].
  destruct (String.eqb (text_of pr) ""); [apply IH|].
  constructor; [|apply IH].
  intros Hin. apply valid_positions_bounds in Hin. lia.
Qed.

Lemma valid_positions_length (l : list PR) :
  forall k, length (Props.valid_positions text_of k l)
            = length (List.filter (Props.has_text text_of) l).
Proof.
  induction l as [|pr l IH]; intros k; simpl; [reflexivity|].
  unfold Props.has_text at 1.
  destruct (String.eqb (text_of pr) ""); simpl; now rewrite IH.
Qed.

(** A record without text in front of a record with text puts a position
    into [valid_indices] that is not a position of [texts]. *)
Lemma valid_positions_gap (l1 l2 l3 : list PR) (p q : PR) :
  text_of p = ""%string -> text_of q <> ""%string ->
  Exists (fun v => (length (Props.valid_positions text_of 0
                              (l1 ++ p :: l2 ++ q :: l3)) <= v)%nat)
    (Props.valid_positions text_of 0 (l1 ++ p :: l2 ++ q :: l3)).
Proof.
  intros Hp Hq.
  set (valid := Props.valid_positions text_of 0 (l1 ++ p :: l2 ++ q :: l3)).
  set (m := length valid).
  assert (Hshape : valid = Props.valid_positions text_of 0 l1
                           ++ Props.valid_positions text_of (S (length l1)) l2
                           ++ (S (length l1) + length l2)%nat
                              :: Props.valid_positions text_of
                                   (S (S (length l1) + length l2)) l3).
  { subst valid. rewrite valid_positions_app. simpl. rewrite Hp. simpl.
    rewrite valid_positions_app. simpl.
    apply String.eqb_neq in Hq. rewrite Hq. reflexivity. }
  assert (Hj : In (S (length l1) + length l2)%nat valid).
  { rewrite Hshape. apply in_or_app. right. apply in_or_app. right. now left. }
  assert (Hi : ~ In (length l1) valid).
  { rewrite Hshape. intros Hin.
    apply in_app_or in Hin as [Hin|Hin].
    - apply valid_positions_bounds in Hin. lia.
    - apply in_app_or in Hin as [Hin|[Hin|Hin]].
      + apply valid_positions_bounds in Hin. lia.
      + lia.
      + apply valid_positions_bounds in Hin. lia. }
  destruct (List.Forall_Exists_dec (fun v => (v < m)%nat)
              (fun v => lt_dec v m) valid) as [Hall|Hex].
  - exfalso. apply Hi.
    assert (Hincl : incl valid (seq 0 m)).
    { intros v Hv. apply in_seq. rewrite List.Forall_forall in Hall.
      specialize (Hall v Hv). lia. }
    assert (Hlen : (length (seq 0 m) <= length valid)%nat)
      by (rewrite length_seq; reflexivity).
    apply (NoDup_length_incl (valid_positions_NoDup _ 0) Hlen Hincl).
    apply in_seq. rewrite List.Forall_forall in Hall.
    specialize (Hall _ Hj). lia.
  - eapply List.Exists_impl; [|exact Hex]. simpl. intros v Hv. lia.
Qed.
End EmbedPrs.

(** X21. When the records without text, if any, all stand behind the
    records with text, and the provider embeds every text on its own,
    [embed_prs] returns the records with text, in their order, each with
    its text and with the vector of its text (the cached one where the
    text was cached); the records without text are left out. *)
Theorem X21_embed_prs (dimension : nat)
    (encode_batch : list string -> res (list (list Q))) (enc : string -> list Q)
    (text_of : PR -> string) (good bad : list PR) (cache : gmap string (list Q)) :
  (forall ts, encode_batch ts = Ok (map enc ts)) ->
  Forall (fun pr => text_of pr <> ""%string) good ->
  Forall (fun pr => text_of pr = ""%string) bad ->
  PREmbedder.embed_prs dimension encode_batch text_of (good ++ bad) cache
  = (Ok (map (fun pr => PREmbedder.mkEmbedded pr (text_of pr)
                          (get (cache !! text_of pr) (enc (text_of pr))))
           good),
     snd (PREmbedder.generate_embeddings_batch dimension encode_batch
            (map text_of good) 100 cache)).
Proof.
  intros Hok Hgood Hbad. rewrite embed_prs_unfold.
  destruct (valid_positions_all text_of good bad Hgood Hbad 0) as [-> ->].
  destruct (generate_embeddings_batch_ok dimension encode_batch cache enc
              (map text_of good) 100 Hok) as [-> _].
  f_equal. unfold PREmbedder.enumerate. rewrite length_seq, map_map.
  pose proof (attach_diagonal text_of
                (fun pr => Props.vector_of cache enc (text_of pr)) bad good [] [])
    as H.
  simpl in H. exact H.
Qed.

Lemma X21_embed_prs_witness :
  fst (PREmbedder.embed_prs 1 (fun ts => Ok (map (fun _ => [1%Q]) ts))
         (fun pr => get (pr_author pr) ""%string)
         ([Sample.small; Sample.large] ++ [Sample.anonymous]) ∅)
  = Ok [PREmbedder.mkEmbedded Sample.small "alice" [1%Q];
        PREmbedder.mkEmbedded Sample.large "bob" [1%Q]].
Proof.
  rewrite (X21_embed_prs 1 (fun ts => Ok (map (fun _ => [1%Q]) ts))
             (fun _ => [1%Q]) (fun pr => get (pr_author pr) ""%string)
             [Sample.small; Sample.large] [Sample.anonymous] ∅).
  - reflexivity.
  - intros ts. reflexivity.
  - constructor; [discriminate|]. constructor; [discriminate|]. constructor.
  - constructor; [reflexivity|]. constructor.
Defined.

(** X22. [embed_prs] reads [texts] and [embeddings] at the positions of
    the records, not at the positions of the texts: as soon as a record
    without text stands in front of a record with text, the call raises
    [IndexError], whatever the provider and the cache. *)
Theorem X22_embed_prs_index_error (dimension : nat)
    (encode_batch : list string -> res (list (list Q)))
    (text_of : PR -> string) (l1 l2 l3 : list PR) (p q : PR)
    (cache : gmap string (list Q)) :
  text_of p = ""%string -> text_of q <> ""%string ->
  fst (PREmbedder.embed_prs dimension encode_batch text_of
         (l1 ++ p :: l2 ++ q :: l3) cache)
  = Raise IndexError.
Proof.
  intros Hp Hq. rewrite embed_prs_unfold. simpl fst.
  apply attach_raises.
  pose proof (valid_positions_gap text_of l1 l2 l3 p q Hp Hq) as Hgap.
  rewrite length_map, <- (valid_positions_length text_of _ 0).
  apply List.Exists_exists in Hgap as (v & Hv & Hle).
  destruct (enumerate_In _ v Hv 0) as [k Hk].
  apply List.Exists_exists. exists (k, v). split; [exact Hk | exact Hle].
Qed.

Lemma X22_embed_prs_index_error_witness :
  fst (PREmbedder.embed_prs 1 (fun ts => Ok (map (fun _ => [1%Q]) ts))
         (fun pr => get (pr_author pr) ""%string)
         ([] ++ Sample.anonymous :: [] ++ Sample.small :: []) ∅)
  = Raise IndexError.
Proof.
  apply (X22_embed_prs_index_error 1 (fun ts => Ok (map (fun _ => [1%Q]) ts))
           (fun pr => get (pr_author pr) ""%string)
           [] [] [] Sample.anonymous Sample.small ∅).
  - reflexivity.
  - discriminate.
Defined.

(** * Further properties: the vector database *)

Section Upload.

Lemma range_step_lt (stop step i : nat) :
  (0 < step)%nat -> In i (PREmbedder.range_step stop step) -> (i < stop)%nat.
Proof.
  intros Hstep Hin. unfold PREmbedder.range_step in Hin.
  apply in_map_iff in Hin as (k & <- & Hk). apply in_seq in Hk.
  pose proof (Nat.div_mod_eq (stop + step - 1) step) as Hd.
  pose proof (Nat.mod_upper_bound (stop + step - 1) step) as Hm.
  nia.
Qed.

Lemma enumerate_In_iff {A : Type} (l : list A) :
  forall k i x,
    In (i, x) (combine (seq k (length l)) l)
    <-> (k <= i)%nat /\ nth_error l (i - k) = Some x.
Proof.
  induction l as [|a l IH]; intros k i x; simpl.
  - split; [contradiction|]. intros [_ H]. destruct (i - k)%nat; discriminate.
  - rewrite IH. split.
    + intros [H|[H1 H2]].
      * injection H as <- <-. split; [lia|]. now rewrite Nat.sub_diag.
      * split; [lia|]. replace (i - k)%nat with (S (i - S k)) by lia. exact H2.
    + intros [H1 H2]. destruct (Nat.eq_dec i k) as [->|Hne].
      * left. rewrite Nat.sub_diag in H2. simpl in H2. congruence.
      * right. split; [lia|].
        replace (i - k)%nat with (S (i - S k)) in H2 by lia. exact H2.
Qed.

Lemma points_fold (prs : list PREmbedder.embedded) :
  forall k points,
    fold_left QdrantDB.point_step (combine (seq k (length prs)) prs) points
    = points ++ flat_map (QdrantDB.point_step [])
                  (combine (seq k (length prs)) prs).
Proof.
  induction prs as [|r prs IH]; intros k points; simpl.
  - now rewrite List.app_nil_r.
  - rewrite IH. destruct (PREmbedder.embedding r); simpl.
    + reflexivity.
    + now rewrite <- List.app_assoc.
Qed.

Lemma points_of_flat_map (prs : list PREmbedder.embedded) :
  QdrantDB.points_of prs
  = flat_map (QdrantDB.point_step []) (PREmbedder.enumerate prs).
Proof.
  unfold QdrantDB.points_of, PREmbedder.enumerate. now rewrite points_fold.
Qed.

Lemma point_step_In (i : nat) (r : PREmbedder.embedded) (pt : QdrantDB.PointStruct) :
  In pt (QdrantDB.point_step [] (i, r))
  <-> PREmbedder.embedding r <> []
      /\ pt = QdrantDB.mkPoint i (PREmbedder.embedding r)
                (QdrantDB.payload_of (PREmbedder.source r)).
Proof.
  simpl. destruct (PREmbedder.embedding r) as [|x v]; simpl.
  - split; [contradiction|]. intros [H _]. now apply H.
  - split.
    + intros [<-|[]]. split; [discriminate|reflexivity].
    + intros [_ ->]. now left.
Qed.

Lemma points_ids_NoDup (prs : list PREmbedder.embedded) :
  forall k,
    List.NoDup (map QdrantDB.id
                  (flat_map (QdrantDB.point_step [])
                     (combine (seq k (length prs)) prs))).
Proof.
  induction prs as [|r prs IH]; intros k; simpl; [constructor|].
  destruct (PREmbedder.embedding r) as [|x v]; simpl; [apply IH|].
  constructor; [|apply IH].
  intros Hin. apply in_map_iff in Hin as (pt & Hid & Hpt).
  apply in_flat_map in Hpt as ([i r'] & Hir & Hpt).
  apply enumerate_In_iff in Hir as [Hle _].
  apply point_step_In in Hpt as [_ ->]. simpl in Hid. lia.
Qed.
End Upload.

(** X23. [upload_prs] sends every point exactly once: the batches passed
    to [client.upsert], joined in the order of the calls, are the list of
    the points, and every batch holds at least one point and at most
    [batch_size].  The identifier of a point is the position of its record
    in the input, so no identifier is used twice; a point exists exactly
    for the records whose vector is not empty, and carries the vector and
    the payload of its record. *)
Theorem X23_upload_prs (prs : list PREmbedder.embedded) (batch_size : positive) :
  concat (QdrantDB.upload_prs prs batch_size) = QdrantDB.points_of prs
  /\ Forall (fun batch => (1 <= length batch <= Pos.to_nat batch_size)%nat)
       (QdrantDB.upload_prs prs batch_size)
  /\ List.NoDup (map QdrantDB.id (QdrantDB.points_of prs))
  /\ (forall pt,
        In pt (QdrantDB.points_of prs)
        <-> exists r,
              nth_error prs (QdrantDB.id pt) = Some r
              /\ PREmbedder.embedding r <> []
              /\ QdrantDB.vector pt = PREmbedder.embedding r
              /\ QdrantDB.payload pt = QdrantDB.payload_of (PREmbedder.source r)).
Proof.
  split; [|split; [|split]].
  - unfold QdrantDB.upload_prs. apply range_batches. lia.
  - unfold QdrantDB.upload_prs. apply List.Forall_forall.
    intros batch Hin. apply in_map_iff in Hin as (i & <- & Hi).
    apply range_step_lt in Hi; [|lia].
    rewrite length_firstn, length_skipn. lia.
  - rewrite points_of_flat_map. apply points_ids_NoDup.
  - intros pt. rewrite points_of_flat_map, in_flat_map. split.
    + intros ([i r] & Hir & Hpt).
      apply enumerate_In_iff in Hir as [_ Hr]. rewrite Nat.sub_0_r in Hr.
      apply point_step_In in Hpt as [Hne ->]. simpl. exists r. auto.
    + intros (r & Hr & Hne & Hv & Hp). exists (QdrantDB.id pt, r). split.
      * apply enumerate_In_iff. split; [lia|]. now rewrite Nat.sub_0_r.
      * apply point_step_In. split; [exact Hne|].
        destruct pt as [i v p]. simpl in *. now subst.
Qed.

(** X24. What the ranking sees of a record that went through the vector
    database.  The payload of [upload_prs] carries neither the scores nor
    the quality marks of the scraper, so for every candidate that
    [search] builds from such a payload the complexity, impact and
    quality boosts of [combined_score] are constants: the combined score
    is the similarity times 1.09 plus the size boost.  Line count,
    substantiality and a non-empty author pass through unchanged. *)
Theorem X24_uploaded_candidates (pr : PR) (score : Q) :
  let c := QdrantDB.format_result (QdrantDB.payload_of pr) score in
  (ExpertFinder.combined_score c
   == score * (1.09 + (if (config.MIN_SUBSTANTIAL_PR_LINES <=? pr_lines_changed pr)%Z
                       then 0.15 else 0.05)
                      * Qmin (inject_Z (pr_lines_changed pr) / 5000.0) 1.0))%Q
  /\ pr_similarity_score c = score
  /\ pr_lines_changed c = pr_lines_changed pr
  /\ ExpertFinder.is_substantial c = ExpertFinder.is_substantial pr
  /\ ExpertFinder.truthy_author c = ExpertFinder.truthy_author pr.
Proof.
  intros c. subst c. split; [|split; [|split; [|split]]]; try reflexivity.
  - unfold ExpertFinder.combined_score. simpl.
    destruct (config.MIN_SUBSTANTIAL_PR_LINES <=? pr_lines_changed pr)%Z; ring.
  - unfold ExpertFinder.truthy_author. simpl.
    destruct (pr_author pr) as [a|]; reflexivity.
Qed.

(** * Further properties: the scores of the scraper *)

Section ScraperScores.
Local Open Scope Q_scope.




Lemma categorize_cases (lower : string -> string) (title : string) :
  In (GitHubAPIScraper._categorize_pr_impact lower title)
    [("feature"%string, 1.0%Q); ("performance"%string, 0.9%Q);
     ("fix"%string, 0.7%Q); ("refactor"%string, 0.5%Q);
     ("docs"%string, 0.3%Q); ("chore"%string, 0.2%Q);
     ("unknown"%string, 0.5%Q)].
Proof.
  unfold GitHubAPIScraper._categorize_pr_impact.
  destruct (String.eqb title ""); [simpl; tauto|].
  unfold GitHubAPIScraper.categories. cbn [find].
  repeat (match goal with
          | |- context [if GitHubAPIScraper.matches ?t ?e then _ else _] =>
              destruct (GitHubAPIScraper.matches t e)
          end);
    simpl; tauto.
Qed.
End ScraperScores.



(** X26. [_categorize_pr_impact] returns one of seven pairs of category
    and score, so the score always lies between 0.2 and 1; an empty title
    is ['unknown'] with 0.5; and the categories are tried in their order:
    a title that contains one of the feature patterns after lowering is a
    ['feature'] with score 1, whatever other patterns it contains. *)
Theorem X26_impact_categories (lower : string -> string) (title : string) :
  let r := GitHubAPIScraper._categorize_pr_impact lower title in
  In r [("feature"%string, 1.0%Q); ("performance"%string, 0.9%Q);
        ("fix"%string, 0.7%Q); ("refactor"%string, 0.5%Q);
        ("docs"%string, 0.3%Q); ("chore"%string, 0.2%Q);
        ("unknown"%string, 0.5%Q)]
  /\ (0.2 <= snd r <= 1)%Q
  /\ (title = ""%string -> r = ("unknown"%string, 0.5%Q))
  /\ (title <> ""%string ->
      (exists pattern,
          In pattern ["feat:"; "feature:"; "add"; "implement"; "introduce";
                      "new"]%string
          /\ contains pattern (lower title) = true) ->
      r = ("feature"%string, 1.0%Q)).
Proof.
  intros r. subst r.
  pose proof (categorize_cases lower title) as Hcases.
  split; [exact Hcases|]. split; [|split].
  - simpl in Hcases.
    repeat (destruct Hcases as [<-|Hcases];
            [simpl; split; vm_compute; discriminate|]).
    contradiction.
  - intros ->. reflexivity.
  - intros Hne (pattern & Hin & Hc).
    unfold GitHubAPIScraper._categorize_pr_impact.
    apply String.eqb_neq in Hne. rewrite Hne.
    unfold GitHubAPIScraper.categories. cbn [find].
    assert (Hm : GitHubAPIScraper.matches (lower title)
                   ("feature"%string,
                    (["feat:"; "feature:"; "add"; "implement"; "introduce";
                      "new"]%string, 1.0%Q)) = true).
    { unfold GitHubAPIScraper.matches. cbn [fst snd].
      apply existsb_exists. exists pattern. now split. }
    now rewrite Hm.
Qed.

Lemma X26_impact_categories_witness :
  GitHubAPIScraper._categorize_pr_impact (fun s => s) "fix: address crash"
  = ("feature"%string, 1.0%Q).
Proof.
  refine (proj2 (proj2 (proj2
            (X26_impact_categories (fun s => s) "fix: address crash"))) _ _).
  - discriminate.
  - exists "add"%string. split; [simpl; tauto | reflexivity].
Defined.

(** * Further properties: utils.py *)

Section Substrings.

Lemma string_app_cons (x : Ascii.ascii) (a b : string) :
  (String x a ++ b)%string = String x (a ++ b)%string.
Proof. reflexivity. Qed.

Lemma string_app_assoc (a b c : string) :
  ((a ++ b) ++ c = a ++ (b ++ c))%string.
Proof.
  induction a as [|x a IH]; [reflexivity|].
  rewrite !string_app_cons. now f_equal.
Qed.

Lemma string_app_empty (a b : string) :
  (a ++ b)%string = ""%string -> a = ""%string /\ b = ""%string.
Proof.
  destruct a as [|x a]; [now split|].
  rewrite string_app_cons. discriminate.
Qed.

Lemma prefix_spec (p : string) :
  forall s, String.prefix p s = true <-> exists b, s = (p ++ b)%string.
Proof.
  induction p as [|x p IH]; intros s.
  - split; [intros _; now exists s|]. intros _. now destruct s.
  - destruct s as [|y s]; simpl.
    + split; [discriminate|]. intros [b Hb].
      rewrite string_app_cons in Hb. discriminate.
    + destruct (Ascii.ascii_dec x y) as [->|Hne].
      * rewrite IH. split; intros [b Hb]; exists b.
        -- rewrite string_app_cons. congruence.
        -- rewrite string_app_cons in Hb. congruence.
      * split; [discriminate|]. intros [b Hb].
        rewrite string_app_cons in Hb. congruence.
Qed.

Lemma contains_unfold (p s : string) :
  contains p s
  = if String.prefix p s then true
    else match s with
         | EmptyString => false
         | String _ s' => contains p s'
         end.
Proof. destruct s; reflexivity. Qed.

Lemma contains_spec (p : string) :
  forall s, contains p s = true <-> exists a b, s = (a ++ p ++ b)%string.
Proof.
  intros s. split.
  - induction s as [|c s IH]; rewrite contains_unfold; intros H.
    + destruct (String.prefix p "") eqn:Hp; [|discriminate].
      apply prefix_spec in Hp as [b Hb]. now exists ""%string, b.
    + destruct (String.prefix p (String c s)) eqn:Hp.
      * apply prefix_spec in Hp as [b Hb]. now exists ""%string, b.
      * destruct (IH H) as (a & b & ->). now exists (String c a), b.
  - intros (a & b & ->). induction a as [|c a IH]; rewrite contains_unfold.
    + assert (Hp : String.prefix p ("" ++ p ++ b) = true)
        by (apply prefix_spec; now exists b).
      now rewrite Hp.
    + destruct (String.prefix p (String c a ++ p ++ b)); [reflexivity|].
      exact IH.
Qed.

Lemma contains_trans (p q s : string) :
  contains p q = true -> contains q s = true -> contains p s = true.
Proof.
  intros Hpq Hqs.
  apply contains_spec in Hpq as (a & b & ->).
  apply contains_spec in Hqs as (a' & b' & ->).
  apply contains_spec. exists (a' ++ a)%string, (b ++ b')%string.
  now rewrite !string_app_assoc.
Qed.

Lemma concat_nonempty (sep x : string) (l : list string) :
  x <> ""%string -> String.concat sep (x :: l) <> ""%string.
Proof.
  intros Hx H. destruct l as [|y l]; simpl in H; [contradiction|].
  apply string_app_empty in H as [H _]. contradiction.
Qed.
End Substrings.

(** X27. The list of known bots never decides [is_bot_author]: a user
    name is taken for a bot exactly when it is empty or its lower-case
    form contains ['bot'], ['automated'] or ['renovate'].  (So every name
    that contains ['bot'] in any casing counts as a bot.) *)
Theorem X27_is_bot_author (lower : string -> string) (username : string) :
  utils.is_bot_author lower username
  = (String.eqb username ""
     || existsb (fun pattern => contains pattern (lower username))
          ["bot"; "automated"; "renovate"]%string).
Proof.
  unfold utils.is_bot_author.
  destruct (String.eqb username ""); [reflexivity|]. simpl orb.
  set (s := lower username).
  destruct (existsb (String.eqb s) utils.BOT_AUTHORS) eqn:Hknown.
  - apply existsb_exists in Hknown as (x & Hx & Hs).
    apply String.eqb_eq in Hs. subst x. symmetry.
    unfold utils.BOT_AUTHORS in Hx. simpl in Hx.
    destruct Hx as [<-|[<-|[<-|[<-|[]]]]]; reflexivity.
  - cbn [existsb].
    destruct (contains "dependabot" s) eqn:Hd; [|now rewrite !orb_false_l].
    assert (Hb : contains "bot" s = true)
      by (apply (contains_trans "bot" "dependabot" s); [reflexivity | exact Hd]).
    now rewrite Hb.
Qed.

(** X28. [format_pr_text_for_embedding] returns the empty string, which
    makes [embed_prs] skip the record, exactly when the title is empty or
    cleaned to nothing, the description is empty or cleaned to nothing,
    and there are no technology keywords. *)
Theorem X28_empty_text (clean_text : string -> string) (title description : string)
    (tech_keywords : list string) :
  utils.format_pr_text_for_embedding clean_text title description tech_keywords
  = ""%string
  <-> (title = ""%string \/ clean_text title = ""%string)
      /\ (description = ""%string \/ clean_text description = ""%string)
      /\ tech_keywords = [].
Proof.
  unfold utils.format_pr_text_for_embedding.
  set (t := if String.eqb title "" then ""%string else clean_text title).
  set (d := if String.eqb description "" then ""%string
            else clean_text description).
  assert (Ht : t = ""%string <-> (title = ""%string \/ clean_text title = ""%string)).
  { subst t. destruct (String.eqb_spec title ""); [tauto|]. tauto. }
  assert (Hd : d = ""%string
               <-> (description = ""%string \/ clean_text description = ""%string)).
  { subst d. destruct (String.eqb_spec description ""); [tauto|]. tauto. }
  rewrite <- Ht, <- Hd. clear Ht Hd. clearbody t d. cbv zeta.
  set (d' := if (500 <? String.length d)%nat
             then (substring 0 500 d ++ "...")%string else d).
  assert (Hd' : d <> ""%string -> d' <> ""%string).
  { subst d'. destruct (500 <? String.length d)%nat; [|auto].
    intros _ H. apply string_app_empty in H as [_ H]. discriminate. }
  clearbody d'.
  destruct (String.eqb_spec t "") as [->|Hnt];
    destruct (String.eqb_spec d "") as [->|Hnd];
    destruct tech_keywords as [|kw kws]; cbn [app].
  - tauto.
  - split; [|intros (_ & _ & H); discriminate].
    intros H. exfalso. revert H. apply concat_nonempty. discriminate.
  - split; [|tauto]. intros H. exfalso. revert H.
    apply concat_nonempty. auto.
  - split; [|tauto]. intros H. exfalso. revert H.
    apply concat_nonempty. auto.
  - split; [|tauto]. intros H. exfalso. revert H.
    apply concat_nonempty. exact Hnt.
  - split; [|tauto]. intros H. exfalso. revert H.
    apply concat_nonempty. exact Hnt.
  - split; [|tauto]. intros H. exfalso. revert H.
    apply concat_nonempty. exact Hnt.
  - split; [|tauto]. intros H. exfalso. revert H.
    apply concat_nonempty. exact Hnt.
Qed.
